(** * Clash configuration generator: the parsers' and the merge's logic

  A shallow embedding of [generate_socks5_clash_config.py]: the proxy-list
  parser [read_proxy_file] and the merge [process_data], with the Python
  built-ins they rely on ([str.strip], [str.split], [int], f-string
  formatting, [sorted], [dict] and [list] operations).

  Conventions.
  - A Python [str] is a [string]; the model covers text whose characters are
    ASCII (a character above 127 is carried along as an ordinary symbol that
    is neither white space nor a digit).
  - A Python [int] is a [Z]; indices and line numbers are [nat].
  - A [dict] whose iteration order matters is an association list in
    insertion order; the reverse lookup of the merge, only ever read through
    [get], is a [gmap].
  - List objects of the base configuration live in a store, so that the
    sharing created by the shallow [dict.copy] is visible. *)

From Stdlib Require Import ZArith String Ascii List Lia Bool.
From Stdlib Require Import DecimalString DecimalNat.
From Stdlib Require Import Sorting.Sorted Sorting.Permutation.
From stdpp Require Import base option list gmap strings sorting.


(** ** Python strings *)

Module PyStr.

Definition colon : ascii := ":"%char.
Definition hash : ascii := "#"%char.
Definition LF : ascii := ascii_of_nat 10.
Definition CR : ascii := ascii_of_nat 13.

(** White space as [str.strip()] sees it on ASCII text: TAB, LF, VT, FF, CR,
    the four separators FS GS RS US, and the space. *)
Definition is_space (c : ascii) : bool :=
  let n := nat_of_ascii c in
  ((9 <=? n) && (n <=? 13) || (28 <=? n) && (n <=? 31) || (n =? 32))%nat.

(** White space as [int()] skips it around an ASCII literal (C [isspace]). *)
Definition is_cspace (c : ascii) : bool :=
  let n := nat_of_ascii c in
  ((9 <=? n) && (n <=? 13) || (n =? 32))%nat.

Definition is_empty (s : string) : bool :=
  match s with EmptyString => true | String _ _ => false end.

Fixpoint lstrip (sp : ascii -> bool) (s : string) : string :=
  match s with
  | EmptyString => EmptyString
  | String c s' => if sp c then lstrip sp s' else s
  end.

Fixpoint rstrip (sp : ascii -> bool) (s : string) : string :=
  match s with
  | EmptyString => EmptyString
  | String c s' =>
      let r := rstrip sp s' in
      if sp c && is_empty r then EmptyString else String c r
  end.

(** [s.strip()] *)
Definition strip (s : string) : string := rstrip is_space (lstrip is_space s).

(** [s.startswith(c)] for a one-character prefix *)
Definition startswith (c : ascii) (s : string) : bool :=
  match s with
  | String d _ => Ascii.eqb d c
  | EmptyString => false
  end.

(** [c in s] for a one-character needle *)
Fixpoint contains (c : ascii) (s : string) : bool :=
  match s with
  | EmptyString => false
  | String d s' => Ascii.eqb d c || contains c s'
  end.

(** [s.split(sep)]: every field, at least one. *)
Fixpoint split (sep : ascii) (s : string) : list string :=
  match s with
  | EmptyString => [EmptyString]
  | String c s' =>
      if Ascii.eqb c sep then EmptyString :: split sep s'
      else match split sep s' with
           | p :: ps => String c p :: ps
           | [] => [String c EmptyString]
           end
  end.

(** [s.split(sep, 1)]: the text before the first separator and, when there
    is a separator, the text after it. *)
Fixpoint split1 (sep : ascii) (s : string) : string * option string :=
  match s with
  | EmptyString => (EmptyString, None)
  | String c s' =>
      if Ascii.eqb c sep then (EmptyString, Some s')
      else let '(p, r) := split1 sep s' in (String c p, r)
  end.

(** The lines a text-mode file yields when iterated, with universal
    newlines: LF, CR and CR LF each end a line and are read as LF. *)
Fixpoint text_lines (s : string) : list string :=
  match s with
  | EmptyString => []
  | String c s' =>
      if Ascii.eqb c LF then String LF EmptyString :: text_lines s'
      else if Ascii.eqb c CR then
        match s' with
        | String d s'' =>
            if Ascii.eqb d LF then String LF EmptyString :: text_lines s''
            else String LF EmptyString :: text_lines s'
        | EmptyString => [String LF EmptyString]
        end
      else match text_lines s' with
           | l :: ls => String c l :: ls
           | [] => [String c EmptyString]
           end
  end.

(** *** [int(s)] on a string, base 10 *)

Definition digit_value (c : ascii) : option Z :=
  let n := nat_of_ascii c in
  if ((48 <=? n) && (n <=? 57))%nat then Some (Z.of_nat (n - 48)) else None.

Definition underscore : ascii := "_"%char.

(** The digits of a literal after its first digit: a digit, or a single
    underscore followed by a digit; trailing white space ends it. *)
Fixpoint int_tail (acc : Z) (s : string) : option Z :=
  match s with
  | EmptyString => Some acc
  | String c s' =>
      match digit_value c with
      | Some d => int_tail (10 * acc + d) s'
      | None =>
          if Ascii.eqb c underscore then
            match s' with
            | String c' s'' =>
                match digit_value c' with
                | Some d => int_tail (10 * acc + d) s''
                | None => None
                end
            | EmptyString => None
            end
          else if is_empty (lstrip is_cspace s) then Some acc
          else None
      end
  end.

Definition int_digits (s : string) : option Z :=
  match s with
  | String c s' =>
      match digit_value c with
      | Some d => int_tail d s'
      | None => None
      end
  | EmptyString => None
  end.

(** [int(s)]: [Some n] when the call returns [n], [None] when it raises
    [ValueError].  Optional white space, an optional sign, decimal digits
    with single underscores between them, optional white space.  (The
    interpreter's configurable limit on the number of digits, 4300 by
    default, is not modelled.) *)
Definition int (s : string) : option Z :=
  match lstrip is_cspace s with
  | String c s' =>
      if Ascii.eqb c "+"%char then int_digits s'
      else if Ascii.eqb c "-"%char then Z.opp <$> int_digits s'
      else int_digits (String c s')
  | EmptyString => None
  end.

(** [str(n)] for a natural number *)
Definition of_nat (n : nat) : string := NilEmpty.string_of_uint (Nat.to_uint n).

Fixpoint zeros (k : nat) : string :=
  match k with
  | O => EmptyString
  | S k' => String "0"%char (zeros k')
  end.

(** [f"{n:02d}"] for a natural number: at least two digits, zero-padded *)
Definition fmt_02d (n : nat) : string :=
  let s := of_nat n in zeros (2 - String.length s) +:+ s.

End PyStr.

(** ** Python values

    The values JSON and YAML documents produce.  A float is kept as the 64
    bits of its IEEE-754 encoding: the program only ever tests one for
    truth. *)

#[warnings="-register-all"]
Inductive pyval :=
| VNone
| VBool (b : bool)
| VInt (z : Z)
| VFloat (bits : Z)
| VStr (s : string)
| VList (xs : list pyval)
| VDict (d : list (string * pyval)).

(** [bool(v)] *)
Definition truthy (v : pyval) : bool :=
  match v with
  | VNone => false
  | VBool b => b
  | VInt z => negb (z =? 0)%Z
  | VFloat bits => negb (Z.land bits (2 ^ 63 - 1) =? 0)%Z
  | VStr s => negb (PyStr.is_empty s)
  | VList xs => match xs with [] => false | _ :: _ => true end
  | VDict d => match d with [] => false | _ :: _ => true end
  end.

(** *** Dictionaries in insertion order *)

Section Dict.
Context {V : Type}.

(** [d.get(k)] *)
Fixpoint dict_get (k : string) (d : list (string * V)) : option V :=
  match d with
  | [] => None
  | (k', v) :: d' => if String.eqb k' k then Some v else dict_get k d'
  end.

(** [d[k] = v]: an existing key keeps its position, a new key goes last. *)
Fixpoint dict_set (k : string) (v : V) (d : list (string * V)) : list (string * V) :=
  match d with
  | [] => [(k, v)]
  | (k', v') :: d' =>
      if String.eqb k' k then (k, v) :: d' else (k', v') :: dict_set k v d'
  end.

(** [d.copy()]: a new dictionary with the same items; the values themselves
    are not copied, so a reference in [d] is shared with the copy. *)
Definition dict_copy (d : list (string * V)) : list (string * V) := d.

(** [d.keys()] *)
Definition dict_keys (d : list (string * V)) : list string := map fst d.

End Dict.

(** *** [sorted]

    [sorted] is stable, and under a total preorder every stable sort returns
    the same list; insertion from the right, placing an element before the
    first one that is not smaller, is such a sort. *)

Section Sorted.
Context {A : Type} (leb : A -> A -> bool).

Fixpoint insert_sorted (x : A) (l : list A) : list A :=
  match l with
  | [] => [x]
  | y :: l' => if leb x y then x :: l else y :: insert_sorted x l'
  end.

Fixpoint py_sorted (l : list A) : list A :=
  match l with
  | [] => []
  | x :: l' => insert_sorted x (py_sorted l')
  end.

End Sorted.

(** ** Outcomes

    [process_data] returns [(config, None)], or [(None, msg)] with one of five
    messages, or lets an exception escape.  A message is kept as its kind and
    the values interpolated into it. *)

Inductive error :=
| ProxyPortInvalid (line_num : nat) (port : string)
    (* line 112: the port on that line of the proxy file is not a number *)
| SocksLocalInvalid (key : string) (socks_local : pyval)
    (* line 162: the entry's socks_local is malformed or missing *)
| SocksLocalPortInvalid (key : string) (local_port_str : string)
    (* line 169: the port of the entry's socks_local is not a number *)
| SocksRemoteMissing (key : string)
    (* line 185: the entry's socks_remote is missing *)
| SocksRemoteNotFound (key : string) (socks_remote_ip : pyval).
    (* line 198: no generated proxy for the entry's socks_remote *)

Inductive exn := TypeError | AttributeError | KeyError | ValueError | UnboundLocalError.

Inductive outcome (A : Type) :=
| Ok (a : A)
| Err (msg : error)
| Raise (e : exn).
Arguments Ok {A} a.
Arguments Err {A} msg.
Arguments Raise {A} e.

Definition obind {A B : Type} (m : outcome A) (f : A -> outcome B) : outcome B :=
  match m with
  | Ok a => f a
  | Err msg => Err msg
  | Raise e => Raise e
  end.

Notation "x <~ m ; k" := (obind m (fun x => k))
  (at level 100, m at next level, right associativity, only parsing).

(** The error kinds of the specification. *)
Inductive error_kind := PortFormatError | MappingFormatError | UnresolvedRemoteError.

Definition kind_of (e : error) : error_kind :=
  match e with
  | ProxyPortInvalid _ _ => PortFormatError
  | SocksLocalInvalid _ _ => MappingFormatError
  | SocksLocalPortInvalid _ _ => MappingFormatError
  | SocksRemoteMissing _ => MappingFormatError
  | SocksRemoteNotFound _ _ => UnresolvedRemoteError
  end.

(** The mapping key a message names, if it names one. *)
Definition key_of (e : error) : option string :=
  match e with
  | ProxyPortInvalid _ _ => None
  | SocksLocalInvalid k _ => Some k
  | SocksLocalPortInvalid k _ => Some k
  | SocksRemoteMissing k => Some k
  | SocksRemoteNotFound k _ => Some k
  end.


(** ** The proxy-list parser: [read_proxy_file] *)

(** One valid line of the proxy file, as the dictionary the parser builds. *)
Record ProxyRecord := {
  ip : string;
  port : string;
  user : string;
  pass : string;
  line_num : nat
}.

(** What the parser finds at its path. *)
Inductive file :=
| NoFile
| Unreadable (reason : string)
| Text (content : string).

Inductive read_error :=
| ProxyFileNotFound
| ProxyFileReadFailed (reason : string).

(** The one message the parser prints about a line's content. *)
Inductive warning :=
| InvalidLine (line_num : nat) (line : string).

(** The body of [for i, line in enumerate(f)], with the list [proxies] it
    appends to and the warnings printed so far. *)
Fixpoint read_proxy_lines (i : nat) (lines : list string)
    (proxies : list ProxyRecord) (log : list warning)
    : list ProxyRecord * list warning :=
  match lines with
  | [] => (proxies, log)
  | line :: rest =>
      let line := PyStr.strip line in
      if PyStr.is_empty line || PyStr.startswith PyStr.hash line then
        read_proxy_lines (S i) rest proxies log
      else
        match PyStr.split PyStr.colon line with
        | [p0; p1; p2; p3] =>
            read_proxy_lines (S i) rest
              (proxies ++ [{| ip := p0; port := p1; user := p2; pass := p3;
                              line_num := i + 1 |}]) log
        | _ =>
            read_proxy_lines (S i) rest proxies (log ++ [InvalidLine (i + 1) line])
        end
  end.

Definition read_proxy_file (f : file)
    : (list ProxyRecord + read_error) * list warning :=
  match f with
  | NoFile => (inr ProxyFileNotFound, [])
  | Unreadable reason => (inr (ProxyFileReadFailed reason), [])
  | Text content =>
      let '(proxies, log) := read_proxy_lines 0 (PyStr.text_lines content) [] [] in
      (inl proxies, log)
  end.

(** ** The merge: [process_data] *)

(** *** Step 1: the generated proxies and the reverse lookup *)

Definition proxy_name (i : nat) : string := "socks_out_" +:+ PyStr.fmt_02d (i + 1).

Definition new_proxy (name : string) (proxy_info : ProxyRecord) (port_int : Z) : pyval :=
  VDict [("name", VStr name);
         ("type", VStr "socks5");
         ("server", VStr (ip proxy_info));
         ("port", VInt port_int);
         ("username", VStr (user proxy_info));
         ("password", VStr (pass proxy_info));
         ("tls", VBool false);
         ("skip-cert-verify", VBool true);
         ("udp", VBool true)].

(** [for i, proxy_info in enumerate(proxy_list)], from index [i] on, with the
    two objects it fills. *)
Fixpoint proxies_loop (i : nat) (proxy_list : list ProxyRecord)
    (generated_proxies : list pyval) (remote_ip_to_proxy_name : gmap string string)
    : outcome (list pyval * gmap string string) :=
  match proxy_list with
  | [] => Ok (generated_proxies, remote_ip_to_proxy_name)
  | proxy_info :: rest =>
      let name := proxy_name i in
      match PyStr.int (port proxy_info) with
      | None => Err (ProxyPortInvalid (line_num proxy_info) (port proxy_info))
      | Some port_int =>
          proxies_loop (S i) rest
            (generated_proxies ++ [new_proxy name proxy_info port_int])
            (<[ip proxy_info := name]> remote_ip_to_proxy_name)
      end
  end.

(** *** Step 3: the order of the mapping keys *)

Definition int_keys (keys : list string) : option (list (string * Z)) :=
  mapM (fun k => (fun n => (k, n)) <$> PyStr.int k) keys.

Definition leb_int_key (a b : string * Z) : bool := (a.2 <=? b.2)%Z.

(** [sorted(keys, key=int)], and on [ValueError] [sorted(keys)]. *)
Definition sorted_mapping_keys (keys : list string) : list string :=
  match int_keys keys with
  | Some decorated => map fst (py_sorted leb_int_key decorated)
  | None => py_sorted String.leb keys
  end.

(** *** Steps 4 to 6: one mapping entry *)

(** [map_entry.get(k)] *)
Definition py_get (map_entry : pyval) (k : string) : outcome pyval :=
  match map_entry with
  | VDict d => Ok (default VNone (dict_get k d))
  | _ => Raise AttributeError
  end.

Definition is_colon_str (v : pyval) : bool :=
  match v with
  | VStr s => String.eqb s ":"
  | _ => false
  end.

(** [':' in v] *)
Definition py_in_colon (v : pyval) : outcome bool :=
  match v with
  | VStr s => Ok (PyStr.contains PyStr.colon s)
  | VList xs => Ok (existsb is_colon_str xs)
  | VDict d => Ok (existsb (fun kv => String.eqb kv.1 ":") d)
  | _ => Raise TypeError
  end.

(** [v.split(':', 1)] *)
Definition py_split1 (v : pyval) : outcome (string * option string) :=
  match v with
  | VStr s => Ok (PyStr.split1 PyStr.colon s)
  | _ => Raise AttributeError
  end.

(** [remote_ip_to_proxy_name.get(v)]: only a string can be among the keys,
    and a list or a dictionary cannot be hashed. *)
Definition remote_get (remote_ip_to_proxy_name : gmap string string) (v : pyval)
    : outcome (option string) :=
  match v with
  | VStr s => Ok (remote_ip_to_proxy_name !! s)
  | VList _ | VDict _ => Raise TypeError
  | _ => Ok None
  end.

(** The test [if not target_proxy_name] on what [get] returned: the name when
    the test fails, that is when a non-empty name was found. *)
Definition found (target_proxy_name : option string) : option string :=
  match target_proxy_name with
  | Some name => if PyStr.is_empty name then None else Some name
  | None => None
  end.

Definition listener_name (key : string) : string := "socks_" +:+ key.
Definition relay_group_name (key : string) : string := "socks_relay_" +:+ key.

Definition new_listener (key : string) (local_port : Z) : pyval :=
  VDict [("name", VStr (listener_name key));
         ("type", VStr "mixed");
         ("port", VInt local_port);
         ("proxy", VStr (relay_group_name key))].

Definition new_group (key : string) (target_proxy_name : string) : pyval :=
  VDict [("name", VStr (relay_group_name key));
         ("type", VStr "relay");
         ("proxies", VList [VStr "Switch-Proxy"; VStr target_proxy_name])].

(** "Generate Listener" *)
Definition make_listener (key : string) (map_entry : pyval) : outcome pyval :=
  socks_local <~ py_get map_entry "socks_local";
  invalid <~ (if negb (truthy socks_local) then Ok true
              else has_colon <~ py_in_colon socks_local; Ok (negb has_colon));
  if (invalid : bool) then Err (SocksLocalInvalid key socks_local)
  else
    parts <~ py_split1 socks_local;
    match parts with
    | (local_ip, Some local_port_str) =>
        match PyStr.int local_port_str with
        | Some local_port => Ok (new_listener key local_port)
        | None => Err (SocksLocalPortInvalid key local_port_str)
        end
    | (_, None) =>
        (* one field cannot be unpacked into two names, and the handler then
           reads a name that was never bound; the test above excludes it *)
        Raise UnboundLocalError
    end.

(** "Generate Proxy Group (Relay)" *)
Definition make_group (remote_ip_to_proxy_name : gmap string string)
    (key : string) (map_entry : pyval) : outcome pyval :=
  socks_remote_ip <~ py_get map_entry "socks_remote";
  if negb (truthy socks_remote_ip) then Err (SocksRemoteMissing key)
  else
    target_proxy_name <~ remote_get remote_ip_to_proxy_name socks_remote_ip;
    match found target_proxy_name with
    | Some name => Ok (new_group key name)
    | None =>
        has_colon <~ py_in_colon socks_remote_ip;
        target_proxy_name <~
          (if (has_colon : bool) then
             parts <~ py_split1 socks_remote_ip;
             match parts with
             | (socks_remote_ip_only, Some _) =>
                 remote_get remote_ip_to_proxy_name (VStr socks_remote_ip_only)
             | (_, None) => Raise ValueError
             end
           else Ok target_proxy_name);
        match found target_proxy_name with
        | Some name => Ok (new_group key name)
        | None => Err (SocksRemoteNotFound key socks_remote_ip)
        end
    end.

(** [mapping_data[key]] *)
Definition py_item (mapping_data : list (string * pyval)) (key : string) : outcome pyval :=
  match dict_get key mapping_data with
  | Some v => Ok v
  | None => Raise KeyError
  end.

(** [for key in sorted_mapping_keys], with the two lists it appends to. *)
Fixpoint mapping_loop (remote_ip_to_proxy_name : gmap string string)
    (mapping_data : list (string * pyval)) (keys : list string)
    (generated_listeners generated_proxy_groups : list pyval)
    : outcome (list pyval * list pyval) :=
  match keys with
  | [] => Ok (generated_listeners, generated_proxy_groups)
  | key :: rest =>
      map_entry <~ py_item mapping_data key;
      new_listener <~ make_listener key map_entry;
      let generated_listeners := generated_listeners ++ [new_listener] in
      new_group <~ make_group remote_ip_to_proxy_name key map_entry;
      let generated_proxy_groups := generated_proxy_groups ++ [new_group] in
      mapping_loop remote_ip_to_proxy_name mapping_data rest
        generated_listeners generated_proxy_groups
  end.

(** *** The base configuration and the store

    The value of a top-level field of the configuration: a list object, held
    by reference into the store, or any other value.  Lists below the top
    level are never modified by the program and stay values. *)

Abbreviation loc := nat (only parsing).

Inductive cval :=
| CList (l : loc)
| CNone
| CBool (b : bool)
| CInt (z : Z)
| CFloat (bits : Z)
| CStr (s : string)
| CDict (d : list (string * pyval)).

Abbreviation config := (list (string * cval)) (only parsing).

(** The list objects, by address. *)
Abbreviation store := (list (list pyval)) (only parsing).

(** A new list object. *)
Definition alloc (xs : list pyval) (st : store) : loc * store :=
  (length st, st ++ [xs]).

(** [isinstance(v, list)] on what [final_config.get(field)] returned *)
Definition is_list (v : option cval) : bool :=
  match v with
  | Some (CList _) => true
  | _ => false
  end.

(** [if not isinstance(final_config.get(field), list): final_config[field] = []] *)
Definition ensure_list (field : string) (st : store) (final_config : config)
    : store * config :=
  if is_list (dict_get field final_config) then (st, final_config)
  else
    let '(l, st) := alloc [] st in
    (st, dict_set field (CList l) final_config).

(** [final_config[field].extend(xs)], in place in the list object.  The
    field holds a list whenever the program gets here. *)
Definition extend_field (field : string) (xs : list pyval) (st : store)
    (final_config : config) : store :=
  match dict_get field final_config with
  | Some (CList l) => alter (fun old => old ++ xs) l st
  | _ => st
  end.

(** Lines 135-138 and again 219-222: make sure the field holds a list, then
    extend that list. *)
Definition append_field (field : string) (xs : list pyval) (st : store)
    (final_config : config) : store * config :=
  let '(st, final_config) := ensure_list field st final_config in
  (extend_field field xs st final_config, final_config).

(** *** [process_data]

    Takes the store before the call and returns the store after it with what
    the call returns. *)
Definition process_data (st : store) (mapping_data : list (string * pyval))
    (proxy_list : list ProxyRecord) (base_clash_config : config)
    : store * outcome config :=
  let final_config := dict_copy base_clash_config in
  match proxies_loop 0 proxy_list [] ∅ with
  | Err msg => (st, Err msg)
  | Raise e => (st, Raise e)
  | Ok (generated_proxies, remote_ip_to_proxy_name) =>
      let '(st, final_config) :=
        append_field "proxies" generated_proxies st final_config in
      let keys := sorted_mapping_keys (dict_keys mapping_data) in
      match mapping_loop remote_ip_to_proxy_name mapping_data keys [] [] with
      | Err msg => (st, Err msg)
      | Raise e => (st, Raise e)
      | Ok (generated_listeners, generated_proxy_groups) =>
          let '(l, st) := alloc generated_listeners st in
          let final_config := dict_set "listeners" (CList l) final_config in
          let '(st, final_config) :=
            append_field "proxy-groups" generated_proxy_groups st final_config in
          (st, Ok final_config)
      end
  end.

(** *** Reading a configuration through the store *)

(** The value a field holds, with a list object replaced by its content. *)
Definition view (st : store) (v : cval) : pyval :=
  match v with
  | CList l => VList (default [] (st !! l))
  | CNone => VNone
  | CBool b => VBool b
  | CInt z => VInt z
  | CFloat bits => VFloat bits
  | CStr s => VStr s
  | CDict d => VDict d
  end.

(** [cfg.get(field)], as a value. *)
Definition field (st : store) (cfg : config) (k : string) : option pyval :=
  view st <$> dict_get k cfg.

(** The whole configuration as a value, as the serializer writes it. *)
Definition snapshot (st : store) (cfg : config) : list (string * pyval) :=
  map (fun kv => (kv.1, view st kv.2)) cfg.

(** The addresses a configuration refers to. *)
Fixpoint refs (cfg : config) : list loc :=
  match cfg with
  | [] => []
  | (_, CList l) :: cfg' => l :: refs cfg'
  | _ :: cfg' => refs cfg'
  end.

(** Every list of the configuration is an object of the store. *)
Definition allocated (st : store) (cfg : config) : Prop :=
  Forall (fun l => l < length st) (refs cfg).

(** ** Vocabulary of the statements *)

(** *** The parser *)

(** Line number [n] of the file, read as [raw], is a record line and [r] is
    its record. *)
Definition valid_line (n : nat) (raw : string) (r : ProxyRecord) : Prop :=
  let line := PyStr.strip raw in
  PyStr.is_empty line = false ∧
  PyStr.startswith PyStr.hash line = false ∧
  PyStr.split PyStr.colon line = [ip r; port r; user r; pass r] ∧
  line_num r = n.

(** The line is neither blank, nor a comment, nor made of four fields. *)
Definition invalid_line (raw : string) : Prop :=
  let line := PyStr.strip raw in
  PyStr.is_empty line = false ∧
  PyStr.startswith PyStr.hash line = false ∧
  length (PyStr.split PyStr.colon line) ≠ 4.

(** *** Step 1 *)


(** The number a decimal string denotes. *)
Definition decode_nat (s : string) : option nat :=
  Nat.of_uint <$> NilEmpty.uint_of_string s.

(** *** The mapping entries *)

(** A field of a mapping entry as the data model has it: a string, or
    missing (absent, or null). *)
Definition str_field (d : list (string * pyval)) (k : string) (o : option string) : Prop :=
  match o with
  | Some s => dict_get k d = Some (VStr s)
  | None => dict_get k d = None ∨ dict_get k d = Some VNone
  end.

(** The [socks_local] of an entry that lines 161 to 171 take without raising
    an exception: a string [s] ([Some s]), or ([None]) a value the test of
    line 161 turns down that is no string, which is a value Python counts
    as false (the field absent or null, false, zero, an empty list or
    object) or a list or an object without the text ":" among its elements
    or its keys.  What is left raises: the membership test of a number or of
    true is a TypeError, and a list or an object that has ":" has no
    [split]. *)
Definition local_field (d : list (string * pyval)) (o : option string) : Prop :=
  match o with
  | Some s => dict_get "socks_local" d = Some (VStr s)
  | None =>
      match default VNone (dict_get "socks_local" d) with
      | VStr _ => False
      | (VList _ | VDict _) as v => py_in_colon v = Ok false
      | v => truthy v = false
      end
  end.

(** The [socks_remote] of an entry that lines 183 to 201 take without
    raising an exception: a string [s] ([Some s]), or ([None]) a value
    Python counts as false that is no string (the field absent or null,
    false, zero, an empty list or object).  What is left raises a
    TypeError: a list or an object cannot be looked up in a dictionary, and
    a number or true has no membership test. *)
Definition remote_field (d : list (string * pyval)) (o : option string) : Prop :=
  match o with
  | Some s => dict_get "socks_remote" d = Some (VStr s)
  | None =>
      match default VNone (dict_get "socks_remote" d) with
      | VStr _ => False
      | v => truthy v = false
      end
  end.

(** The text before the first colon, and the text after it. *)
Definition before_colon (s : string) : string := (PyStr.split1 PyStr.colon s).1.
Definition after_colon (s : string) : string := default "" (PyStr.split1 PyStr.colon s).2.

(** The resolution of a remote address as the specification words it: the
    whole value first, then, if that fails and the value has a colon, the
    text before the colon. *)
Definition resolve (remote : gmap string string) (socks_remote : string) : option string :=
  match remote !! socks_remote with
  | Some name => Some name
  | None =>
      if PyStr.contains PyStr.colon socks_remote
      then remote !! before_colon socks_remote
      else None
  end.

(** The entry's [socks_remote], a non-empty string, resolves to the address
    [target]: it is that address, or it is not itself in the lookup, has a
    colon, and the text before the colon is that address. *)
Definition resolves_to (remote : gmap string string) (socks_remote target : string) : Prop :=
  socks_remote ≠ "" ∧
  (socks_remote = target ∨
   (remote !! socks_remote = None ∧
    PyStr.contains PyStr.colon socks_remote = true ∧
    before_colon socks_remote = target)).

(** The keys the loop has gone through without a failure when it reaches
    [key]: [pre], leaving the listeners [gl] and the groups [gg]. *)
Definition reaches (remote : gmap string string) (m : list (string * pyval))
    (pre : list string) (key : string) (rest : list string)
    (gl gg : list pyval) : Prop :=
  sorted_mapping_keys (dict_keys m) = pre ++ key :: rest ∧
  mapping_loop remote m pre [] [] = Ok (gl, gg).

(** *** The order of the keys *)

(** The key is accepted by [int]. *)
Definition key_parses (k : string) : Prop := is_Some (PyStr.int k).

(** The keys with their integer values, for keys that all have one. *)
Definition decorate (keys : list string) : list (string * Z) :=
  map (fun k => (k, default 0%Z (PyStr.int k))) keys.

(** The order of two keys by integer value. *)
Definition int_le (a b : string) : Prop :=
  ∃ x y, PyStr.int a = Some x ∧ PyStr.int b = Some y ∧ (x ≤ y)%Z.

(** The order of two keys as strings. *)
Definition str_le (a b : string) : Prop := String.leb a b = true.

(** *** Configurations *)


(** What a run returned in field [k], read through the store it left. *)
Definition result_field (run : store * outcome config) (k : string) : option pyval :=
  match run with
  | (st, Ok cfg) => field st cfg k
  | _ => None
  end.

(** Two calls end the same way: both return a configuration, or both return
    the same message, or both let the same exception escape. *)
Definition same_ending (r1 r2 : outcome config) : Prop :=
  match r1, r2 with
  | Ok _, Ok _ => True
  | Err e1, Err e2 => e1 = e2
  | Raise x1, Raise x2 => x1 = x2
  | _, _ => False
  end.

(** Field [k] holds the list object that field [f] holds. *)
Definition shares (cfg : config) (k f : string) : Prop :=
  ∃ l, dict_get k cfg = Some (CList l) ∧ dict_get f cfg = Some (CList l).

(** The list object a field holds is held by that field alone. *)
Definition unshared (cfg : config) (f : string) : Prop :=
  ∀ k, shares cfg k f → k = f.


(** ** Example data *)

(** The proxy list of the file [10.0.0.5:1080:alice:secret]. *)
Definition alice : ProxyRecord :=
  {| ip := "10.0.0.5"; port := "1080"; user := "alice"; pass := "secret";
     line_num := 1 |}.
Definition one_proxy : list ProxyRecord := [alice].

(** What step 1 builds from it. *)
Definition one_generated : list pyval := [new_proxy "socks_out_01" alice 1080].
Definition one_remote : gmap string string := {["10.0.0.5" := "socks_out_01"]}.

(** A second line of the proxy file with the address of the first. *)
Definition bob : ProxyRecord :=
  {| ip := "10.0.0.5"; port := "1090"; user := "bob"; pass := "hunter2";
     line_num := 2 |}.
Definition two_proxies : list ProxyRecord := [alice; bob].
Definition two_generated : list pyval :=
  [new_proxy "socks_out_01" alice 1080; new_proxy "socks_out_02" bob 1090].
Definition two_remote : gmap string string := {["10.0.0.5" := "socks_out_02"]}.

(** A third line whose port is not a number. *)
Definition bad_port : ProxyRecord :=
  {| ip := "1.2.3.4"; port := "notaport"; user := "u"; pass := "p"; line_num := 3 |}.
Definition three_proxies : list ProxyRecord := [alice; bob; bad_port].

(** The mapping [{"1": {"socks_local": "0.0.0.0:1081", "socks_remote": "10.0.0.5"}}]. *)
Definition one_entry : list (string * pyval) :=
  [("socks_local", VStr "0.0.0.0:1081"); ("socks_remote", VStr "10.0.0.5")].
Definition one_mapping : list (string * pyval) := [("1", VDict one_entry)].

Definition entry (socks_local socks_remote : string) : pyval :=
  VDict [("socks_local", VStr socks_local); ("socks_remote", VStr socks_remote)].

(** Two mapping files with the same two entries, written in the two possible
    orders; the keys ["1"] and ["01"] have the same integer value. *)
Definition tie_mapping : list (string * pyval) :=
  [("1", entry "0.0.0.0:1081" "10.0.0.5"); ("01", entry "0.0.0.0:1082" "10.0.0.5")].
Definition tie_mapping_swapped : list (string * pyval) :=
  [("01", entry "0.0.0.0:1082" "10.0.0.5"); ("1", entry "0.0.0.0:1081" "10.0.0.5")].

(** A mapping whose only entry has no [socks_local]. *)
Definition bad_mapping : list (string * pyval) := [("1", VDict [])].

(** The base configuration the parser returns for the YAML document [{}]:
    three empty lists, three objects. *)
Definition empty_base : config :=
  [("proxies", CList 0); ("proxy-groups", CList 1); ("listeners", CList 2)].
Definition empty_store : store := [[]; []; []].


(** The base configuration the parser returns for the YAML document
    [proxies: null] / [proxy-groups: none]. *)
Definition odd_base : config :=
  [("proxies", CNone); ("proxy-groups", CStr "none"); ("listeners", CList 0)].
Definition odd_store : store := [[]].

(** The run of the merge on the example of the specification, from the base
    configuration of the document [{}]. *)
Definition one_run_store : store :=
  Eval vm_compute in (process_data empty_store one_mapping one_proxy empty_base).1.
Definition one_run_config : config :=
  Eval vm_compute in
    match (process_data empty_store one_mapping one_proxy empty_base).2 with
    | Ok cfg => cfg
    | _ => []
    end.

(** The run from [odd_base]. *)
Definition odd_run_store : store :=
  Eval vm_compute in (process_data odd_store one_mapping one_proxy odd_base).1.
Definition odd_run_config : config :=
  Eval vm_compute in
    match (process_data odd_store one_mapping one_proxy odd_base).2 with
    | Ok cfg => cfg
    | _ => []
    end.

(** A mapping whose only entry has the number 1081 for [socks_local], and
    one whose only entry has the number 5 for [socks_remote]. *)
Definition number_local_entry : list (string * pyval) :=
  [("socks_local", VInt 1081); ("socks_remote", VStr "10.0.0.5")].
Definition number_local_mapping : list (string * pyval) :=
  [("1", VDict number_local_entry)].
Definition number_remote_entry : list (string * pyval) :=
  [("socks_local", VStr "0.0.0.0:1081"); ("socks_remote", VInt 5)].
Definition number_remote_mapping : list (string * pyval) :=
  [("1", VDict number_remote_entry)].

(** ** Vocabulary of the further statements *)

(** [v.get(k)] on a generated entry, [None] when [v] is not a dictionary or
    has no such key. *)
Definition entry_field (k : string) (v : pyval) : option pyval :=
  match v with
  | VDict d => dict_get k d
  | _ => None
  end.

(** The names a relay group lists, in order. *)
Definition group_proxies (g : pyval) : list pyval :=
  match entry_field "proxies" g with
  | Some (VList xs) => xs
  | _ => []
  end.

(** The line, stripped, is blank or a comment. *)
Definition skipped_line (raw : string) : bool :=
  let line := PyStr.strip raw in
  PyStr.is_empty line || PyStr.startswith PyStr.hash line.

(** A mapping entry as the data model has it: an object whose
    [socks_local] and [socks_remote] are strings or missing. *)
Definition typed_entry (e : pyval) : Prop :=
  ∃ d ol or, e = VDict d ∧ str_field d "socks_local" ol ∧ str_field d "socks_remote" or.

(** The entry passes both stages of the loop: its [socks_local] is a string
    with a colon followed by an integer, and its [socks_remote] is a
    non-empty string that resolves. *)
Definition entry_accepted (remote : gmap string string) (e : pyval) : Prop :=
  ∃ d sl sr n name,
    e = VDict d ∧
    dict_get "socks_local" d = Some (VStr sl) ∧
    PyStr.contains PyStr.colon sl = true ∧
    PyStr.int (after_colon sl) = Some n ∧
    dict_get "socks_remote" d = Some (VStr sr) ∧
    sr ≠ "" ∧
    resolve remote sr = Some name.

(** ** The other two parsers *)

(** Why a parser's generic handler fired: the loaded value is not an object,
    or the operating system or the decoder refused. *)
Inductive read_failure :=
| TopLevelNotObject
| OsError (reason : string).

(** What [json.load] makes of the file at the path of the mapping table. *)
Inductive json_file :=
| JNoFile
| JUnreadable (reason : string)
| JInvalid (reason : string)
| JValue (data : pyval).

Inductive mapping_error :=
| MappingFileNotFound                        (* line 27 *)
| MappingJsonInvalid (reason : string)       (* line 39 *)
| MappingReadFailed (why : read_failure).    (* line 42 *)

(** [read_mapping_file]: the loaded value when it is a dictionary.  The
    [ValueError] raised for any other value is not a [JSONDecodeError], so it
    is the generic handler that reports it. *)
Definition read_mapping_file (f : json_file) : list (string * pyval) + mapping_error :=
  match f with
  | JNoFile => inr MappingFileNotFound
  | JUnreadable reason => inr (MappingReadFailed (OsError reason))
  | JInvalid reason => inr (MappingJsonInvalid reason)
  | JValue (VDict d) => inl d
  | JValue _ => inr (MappingReadFailed TopLevelNotObject)
  end.

(** What [yaml.safe_load] returns: a mapping, given with the list objects the
    loader created for its top-level sequences (an alias makes two fields
    hold one object) and with references counted from the first of them; or
    any other value. *)
Inductive yaml_doc :=
| YMapping (objs : list (list pyval)) (top : config)
| YOther.

Inductive yaml_file :=
| YNoFile
| YUnreadable (reason : string)
| YInvalid (reason : string)
| YLoaded (doc : yaml_doc).

Inductive clash_error :=
| ClashFileNotFound                          (* line 80 *)
| ClashYamlInvalid (reason : string)         (* line 93 *)
| ClashReadFailed (why : read_failure).      (* line 96 *)

(** The objects of a loaded document placed in the store, after what the
    store already holds. *)
Definition shift (n : nat) (v : cval) : cval :=
  match v with
  | CList l => CList (n + l)
  | _ => v
  end.

Definition load_into (st : store) (objs : list (list pyval)) (top : config)
    : store * config :=
  (st ++ objs, map (fun kv => (kv.1, shift (length st) kv.2)) top).

(** [data.setdefault(k, [])]: nothing when the key is there, whatever its
    value; a new empty list under the key otherwise. *)
Definition setdefault_list (k : string) (st : store) (data : config) : store * config :=
  match dict_get k data with
  | Some _ => (st, data)
  | None => let '(l, st) := alloc [] st in (st, dict_set k (CList l) data)
  end.

(** [read_clash_config] *)
Definition read_clash_config (st : store) (f : yaml_file)
    : store * (config + clash_error) :=
  match f with
  | YNoFile => (st, inr ClashFileNotFound)
  | YUnreadable reason => (st, inr (ClashReadFailed (OsError reason)))
  | YInvalid reason => (st, inr (ClashYamlInvalid reason))
  | YLoaded YOther => (st, inr (ClashReadFailed TopLevelNotObject))
  | YLoaded (YMapping objs top) =>
      let '(st, data) := load_into st objs top in
      let '(st, data) := setdefault_list "proxies" st data in
      let '(st, data) := setdefault_list "proxy-groups" st data in
      let '(st, data) := setdefault_list "listeners" st data in
      (st, inl data)
  end.

(** The three sections the parser makes sure of. *)
Definition is_section (k : string) : Prop :=
  k = "proxies" ∨ k = "proxy-groups" ∨ k = "listeners".

(** What holds of the store [st] and the dictionary [data] while the parser
    completes a document loaded after the store [st0]: the lists are
    allocated, the old objects are as they were, a field of the document has
    the document's value and shares a list only as in the document, and a
    field the document lacks is still missing or is a section holding an
    empty list of its own. *)
Definition loaded (st0 : store) (objs : list (list pyval)) (top : config)
    (st : store) (data : config) : Prop :=
  allocated st data ∧
  (∀ l xs, st0 !! l = Some xs → st !! l = Some xs) ∧
  (∀ k, is_Some (dict_get k top) →
        field st data k = field objs top k ∧
        ∀ k', shares data k' k → shares top k' k) ∧
  (∀ k, dict_get k top = None →
        dict_get k data = None ∨
        (is_section k ∧ field st data k = Some (VList []) ∧ unshared data k)).

(** ** The name of the output file *)

(** What [datetime.datetime.now()] returns, to the second. *)
Record datetime := {
  year : nat; month : nat; day : nat;
  hour : nat; minute : nat; second : nat
}.

(** The ranges of a [datetime]'s fields, from the year 1000 on: [%Y] writes
    such a year with four digits whatever the platform. *)
Definition valid_datetime (t : datetime) : Prop :=
  (1000 ≤ year t < 10 * 1000 ∧ 1 ≤ month t ≤ 12 ∧ 1 ≤ day t ≤ 31 ∧
   hour t < 24 ∧ minute t < 60 ∧ second t < 60)%nat.

(** [t.strftime("%Y%m%d%H%M%S")] *)
Definition strftime (t : datetime) : string :=
  PyStr.of_nat (year t) +:+ PyStr.fmt_02d (month t) +:+ PyStr.fmt_02d (day t) +:+
  PyStr.fmt_02d (hour t) +:+ PyStr.fmt_02d (minute t) +:+ PyStr.fmt_02d (second t).

(** [f"generated_clash_config_{timestamp}.yaml"] *)
Definition output_filename (t : datetime) : string :=
  "generated_clash_config_" +:+ strftime t +:+ ".yaml".

(** The order of two datetimes, that of their fields from the year down. *)
Definition then_compare (c d : comparison) : comparison :=
  match c with
  | Eq => d
  | _ => c
  end.

Definition datetime_compare (a b : datetime) : comparison :=
  then_compare (Nat.compare (year a) (year b))
  (then_compare (Nat.compare (month a) (month b))
  (then_compare (Nat.compare (day a) (day b))
  (then_compare (Nat.compare (hour a) (hour b))
  (then_compare (Nat.compare (minute a) (minute b))
                (Nat.compare (second a) (second b)))))).

(** Equality of two results of a comparison, as a boolean. *)
Definition comparison_eqb (c d : comparison) : bool :=
  match c, d with
  | Eq, Eq | Lt, Lt | Gt, Gt => true
  | _, _ => false
  end.

(** ** Writing the result: [write_output_file] *)

(** What a click on the button finds outside the program: the file at a
    path as each parser meets it ([NoFile], [JNoFile] and [YNoFile] standing
    for a path [os.path.exists] denies), the directories, the clock, the
    platform's [os.path.join], the exception, if any, that opening a path
    for writing raises, and the one, if any, that serializing a document
    into the file opened at a path raises.  Nothing of it changes from a
    click to the dialog that ends it. *)
Record world := {
  mapping_at : string → json_file;
  proxies_at : string → file;
  clash_at : string → yaml_file;
  is_dir : string → bool;
  now : datetime;
  path_join : string → string → string;
  open_refused : string → option string;
  dump_refused : string → list (string * pyval) → option string
}.

Inductive write_error :=
| OutputDirNotFound                          (* line 237 *)
| WriteFailed (reason : string).             (* line 245 *)

(** The exception the handler of [generate_files] catches, by the stage
    that raised it. *)
Inductive failure :=
| MappingFileError (e : mapping_error)       (* line 406 *)
| ProxyFileError (e : read_error)            (* line 409 *)
| ClashConfigError (e : clash_error)         (* line 412 *)
| DataError (e : error)                      (* line 419 *)
| MergeRaised (e : exn)                      (* raised inside process_data *)
| OutputError (e : write_error).             (* line 426 *)

Inductive dialog :=
| NothingSelected                            (* line 370 *)
| MappingFileMissing (path : string)         (* line 383 *)
| ProxyFileMissing (path : string)           (* line 387 *)
| ClashFileMissing (path : string)           (* line 391 *)
| OutputDirInvalid (path : string)           (* line 395 *)
| GenerationFailed (e : failure)             (* line 436 *)
| GenerationSucceeded (output_dir : string). (* line 430 *)

(** What a click does that the user can see afterwards: a dialog; a file
    opened for writing, which creates it or empties it; a document written
    in full into the file opened. *)
Inductive event :=
| Dialog (d : dialog)
| Opened (path : string)
| Written (path : string) (doc : list (string * pyval)).

(** [write_output_file], with the document [yaml.dump] is given.  The file
    is opened before the document is serialized into it: when [yaml.dump]
    raises, the file exists, with what was written of the document, and the
    function returns the error. *)
Definition write_output_file (w : world) (output_dir : string)
    (processed_data : list (string * pyval)) : (string + write_error) * list event :=
  let output_filepath := path_join w output_dir (output_filename (now w)) in
  if negb (is_dir w output_dir) then (inr OutputDirNotFound, [])
  else match open_refused w output_filepath with
       | Some reason => (inr (WriteFailed reason), [])
       | None =>
           match dump_refused w output_filepath processed_data with
           | Some reason => (inr (WriteFailed reason), [Opened output_filepath])
           | None =>
               (inl output_filepath,
                [Opened output_filepath; Written output_filepath processed_data])
           end
       end.

(** ** The window: [FileProcessorApp] *)

Inductive button_state := NORMAL | DISABLED.

(** The texts of the status label. *)
Inductive status :=
| NoStatus                                   (* line 312: the empty text *)
| MappingFileInvalid                         (* line 384 *)
| ProxyFileInvalid                           (* line 388 *)
| ClashFileInvalid                           (* line 392 *)
| OutputDirStatusInvalid                     (* line 396 *)
| Processing                                 (* line 401 *)
| Merging                                    (* line 417 *)
| Succeeded (output_dir : string)            (* line 429 *)
| Failed (e : failure).                      (* line 435 *)

Record FileProcessorApp := {
  mapping_file_var : string;
  proxy_file_var : string;
  clash_file_var : string;
  output_dir_var : string;
  status_label_visible : bool;
  status_label : status;
  generate_button : button_state;
  geometry : string
}.

(** The window [__init__] builds. *)
Definition init : FileProcessorApp :=
  {| mapping_file_var := ""; proxy_file_var := ""; clash_file_var := "";
     output_dir_var := ""; status_label_visible := false; status_label := NoStatus;
     generate_button := NORMAL; geometry := "600x300" |}.

Definition set_status_label (msg : status) (a : FileProcessorApp) : FileProcessorApp :=
  {| mapping_file_var := mapping_file_var a; proxy_file_var := proxy_file_var a;
     clash_file_var := clash_file_var a; output_dir_var := output_dir_var a;
     status_label_visible := status_label_visible a; status_label := msg;
     generate_button := generate_button a; geometry := geometry a |}.

Definition set_generate_button (b : button_state) (a : FileProcessorApp)
    : FileProcessorApp :=
  {| mapping_file_var := mapping_file_var a; proxy_file_var := proxy_file_var a;
     clash_file_var := clash_file_var a; output_dir_var := output_dir_var a;
     status_label_visible := status_label_visible a; status_label := status_label a;
     generate_button := b; geometry := geometry a |}.

(** Lines 375-379: the label is placed in the grid and the window resized. *)
Definition show_status_label (a : FileProcessorApp) : FileProcessorApp :=
  {| mapping_file_var := mapping_file_var a; proxy_file_var := proxy_file_var a;
     clash_file_var := clash_file_var a; output_dir_var := output_dir_var a;
     status_label_visible := true; status_label := status_label a;
     generate_button := generate_button a; geometry := "600x320" |}.

(** [update_status] *)
Definition update_status (message : status) (a : FileProcessorApp) : FileProcessorApp :=
  if status_label_visible a then set_status_label message a else a.

(** [os.path.exists] on the path of each input. *)
Definition mapping_exists (w : world) (p : string) : bool :=
  match mapping_at w p with JNoFile => false | _ => true end.

Definition proxies_exists (w : world) (p : string) : bool :=
  match proxies_at w p with NoFile => false | _ => true end.

Definition clash_exists (w : world) (p : string) : bool :=
  match clash_at w p with YNoFile => false | _ => true end.

(** The body of the [try] of [generate_files], lines 404-432: the window as
    the body leaves it, the exception that ended it, if any, and what it
    did.  The configuration is loaded into a store of its own.  A parser
    returns an error message or a value, never neither, and the merge
    likewise, so the tests of lines 414, 420 and 431 never fire. *)
Definition generate (w : world) (a : FileProcessorApp)
    : FileProcessorApp * option failure * list event :=
  match read_mapping_file (mapping_at w (mapping_file_var a)) with
  | inr e => (a, Some (MappingFileError e), [])
  | inl mapping_data =>
  match (read_proxy_file (proxies_at w (proxy_file_var a))).1 with
  | inr e => (a, Some (ProxyFileError e), [])
  | inl proxy_list =>
  match read_clash_config [] (clash_at w (clash_file_var a)) with
  | (_, inr e) => (a, Some (ClashConfigError e), [])
  | (st, inl base_clash_config) =>
  let a := update_status Merging a in
  match process_data st mapping_data proxy_list base_clash_config with
  | (_, Err e) => (a, Some (DataError e), [])
  | (_, Raise e) => (a, Some (MergeRaised e), [])
  | (st, Ok final_config) =>
  match write_output_file w (output_dir_var a) (snapshot st final_config) with
  | (inr e, evs) => (a, Some (OutputError e), evs)
  | (inl _, evs) =>
      (update_status (Succeeded (output_dir_var a)) a, None,
       evs ++ [Dialog (GenerationSucceeded (output_dir_var a))])
  end end end end end.

(** [generate_files]: the window after the click, and what the click did. *)
Definition generate_files (w : world) (a : FileProcessorApp)
    : FileProcessorApp * list event :=
  let mapping_file := mapping_file_var a in
  let proxy_file := proxy_file_var a in
  let clash_file := clash_file_var a in
  let output_dir := output_dir_var a in
  if negb (forallb (λ s, negb (PyStr.is_empty s))
             [mapping_file; proxy_file; clash_file; output_dir])
  then (a, [Dialog NothingSelected])
  else
    let a := if status_label_visible a then a else show_status_label a in
    if negb (mapping_exists w mapping_file)
    then (update_status MappingFileInvalid a, [Dialog (MappingFileMissing mapping_file)])
    else if negb (proxies_exists w proxy_file)
    then (update_status ProxyFileInvalid a, [Dialog (ProxyFileMissing proxy_file)])
    else if negb (clash_exists w clash_file)
    then (update_status ClashFileInvalid a, [Dialog (ClashFileMissing clash_file)])
    else if negb (is_dir w output_dir)
    then (update_status OutputDirStatusInvalid a, [Dialog (OutputDirInvalid output_dir)])
    else
      let a := set_generate_button DISABLED a in
      let a := update_status Processing a in
      let '(a, r, evs) := generate w a in
      let '(a, evs) :=
        match r with
        | None => (a, evs)
        | Some e => (update_status (Failed e) a, evs ++ [Dialog (GenerationFailed e)])
        end in
      (set_generate_button NORMAL a, evs).

(** The dialogs among the events. *)
Definition dialogs (evs : list event) : list dialog :=
  omap (λ ev, match ev with Dialog d => Some d | _ => None end) evs.

(** The files opened for writing among the events. *)
Definition opened (evs : list event) : list string :=
  omap (λ ev, match ev with Opened p => Some p | _ => None end) evs.

(** The documents written among the events. *)
Definition writes (evs : list event) : list (string * list (string * pyval)) :=
  omap (λ ev, match ev with Written p doc => Some (p, doc) | _ => None end) evs.

(** The text of the status label that goes with a dialog. *)
Definition status_of (d : dialog) (before : status) : status :=
  match d with
  | NothingSelected => before
  | MappingFileMissing _ => MappingFileInvalid
  | ProxyFileMissing _ => ProxyFileInvalid
  | ClashFileMissing _ => ClashFileInvalid
  | OutputDirInvalid _ => OutputDirStatusInvalid
  | GenerationFailed e => Failed e
  | GenerationSucceeded output_dir => Succeeded output_dir
  end.

(** The four paths have been chosen. *)
Definition all_selected (a : FileProcessorApp) : Prop :=
  mapping_file_var a ≠ "" ∧ proxy_file_var a ≠ "" ∧
  clash_file_var a ≠ "" ∧ output_dir_var a ≠ "".

(** Every stage of a run before the output is written goes well, and gives
    the document [doc] to write at the path [path]: the mapping table is a
    JSON object, the proxy file can be read, the base configuration is a
    YAML mapping, the merge returns a configuration, of which [doc] is the
    content, the output directory is a directory, and [path] is the file of
    the moment in it. *)
Definition prepared (w : world) (a : FileProcessorApp)
    (path : string) (doc : list (string * pyval)) : Prop :=
  ∃ m pl st base st' final,
    read_mapping_file (mapping_at w (mapping_file_var a)) = inl m ∧
    (read_proxy_file (proxies_at w (proxy_file_var a))).1 = inl pl ∧
    read_clash_config [] (clash_at w (clash_file_var a)) = (st, inl base) ∧
    process_data st m pl base = (st', Ok final) ∧
    doc = snapshot st' final ∧
    is_dir w (output_dir_var a) = true ∧
    path = path_join w (output_dir_var a) (output_filename (now w)).

(** Moreover the file can be opened and the document serialized. *)
Definition completes (w : world) (a : FileProcessorApp)
    (path : string) (doc : list (string * pyval)) : Prop :=
  prepared w a path doc ∧
  open_refused w path = None ∧ dump_refused w path doc = None.

(** Two windows show the same four paths. *)
Definition same_paths (a b : FileProcessorApp) : Prop :=
  mapping_file_var a = mapping_file_var b ∧ proxy_file_var a = proxy_file_var b ∧
  clash_file_var a = clash_file_var b ∧ output_dir_var a = output_dir_var b.

(** ** Further example data *)

(** A proxy file of three lines: a record, a comment, and a line that does
    not have four fields. *)
Definition proxy_text : string :=
  "10.0.0.5:1080:alice:secret" +:+ String PyStr.LF
    ("# the second" +:+ String PyStr.LF "oops").

(** What the loop over the two keys of [tie_mapping] generates. *)
Definition tie_listeners : list pyval :=
  Eval vm_compute in
    match mapping_loop one_remote tie_mapping
            (sorted_mapping_keys (dict_keys tie_mapping)) [] [] with
    | Ok (gl, _) => gl
    | _ => []
    end.
Definition tie_groups : list pyval :=
  Eval vm_compute in
    match mapping_loop one_remote tie_mapping
            (sorted_mapping_keys (dict_keys tie_mapping)) [] [] with
    | Ok (_, gg) => gg
    | _ => []
    end.

(** The YAML document [port: 7890] / [rules: [MATCH,DIRECT]] /
    [proxies: [{name: home}]] as the loader returns it, what the parser makes
    of it in an empty store, and the merge of the example into that. *)
Definition rules_objs : list (list pyval) :=
  [[VStr "MATCH,DIRECT"]; [VDict [("name", VStr "home")]]].
Definition rules_doc : config :=
  [("port", CInt 7890); ("rules", CList 0); ("proxies", CList 1)].
Definition rules_store : store :=
  Eval vm_compute in (read_clash_config [] (YLoaded (YMapping rules_objs rules_doc))).1.
Definition rules_base : config :=
  Eval vm_compute in
    match (read_clash_config [] (YLoaded (YMapping rules_objs rules_doc))).2 with
    | inl data => data
    | inr _ => []
    end.
Definition rules_run_store : store :=
  Eval vm_compute in (process_data rules_store one_mapping one_proxy rules_base).1.
Definition rules_run_config : config :=
  Eval vm_compute in
    match (process_data rules_store one_mapping one_proxy rules_base).2 with
    | Ok cfg => cfg
    | _ => []
    end.


(** Two moments a second apart, across the end of a year. *)
Definition new_years_eve : datetime :=
  {| year := 2024; month := 12; day := 31; hour := 23; minute := 59; second := 59 |}.
Definition new_year : datetime :=
  {| year := 2025; month := 1; day := 1; hour := 0; minute := 0; second := 0 |}.

(** ** What the user does with the window *)

Definition set_mapping_file_var (p : string) (a : FileProcessorApp) : FileProcessorApp :=
  {| mapping_file_var := p; proxy_file_var := proxy_file_var a;
     clash_file_var := clash_file_var a; output_dir_var := output_dir_var a;
     status_label_visible := status_label_visible a; status_label := status_label a;
     generate_button := generate_button a; geometry := geometry a |}.

Definition set_proxy_file_var (p : string) (a : FileProcessorApp) : FileProcessorApp :=
  {| mapping_file_var := mapping_file_var a; proxy_file_var := p;
     clash_file_var := clash_file_var a; output_dir_var := output_dir_var a;
     status_label_visible := status_label_visible a; status_label := status_label a;
     generate_button := generate_button a; geometry := geometry a |}.

Definition set_clash_file_var (p : string) (a : FileProcessorApp) : FileProcessorApp :=
  {| mapping_file_var := mapping_file_var a; proxy_file_var := proxy_file_var a;
     clash_file_var := p; output_dir_var := output_dir_var a;
     status_label_visible := status_label_visible a; status_label := status_label a;
     generate_button := generate_button a; geometry := geometry a |}.

Definition set_output_dir_var (p : string) (a : FileProcessorApp) : FileProcessorApp :=
  {| mapping_file_var := mapping_file_var a; proxy_file_var := proxy_file_var a;
     clash_file_var := clash_file_var a; output_dir_var := p;
     status_label_visible := status_label_visible a; status_label := status_label a;
     generate_button := generate_button a; geometry := geometry a |}.

(** [browse_mapping_file] and the three like it, with what the file dialog
    returned: the path chosen, or the empty string when it was closed. *)
Definition browse_mapping_file (filepath : string) (a : FileProcessorApp)
    : FileProcessorApp :=
  if PyStr.is_empty filepath then a else set_mapping_file_var filepath a.

Definition browse_proxy_file (filepath : string) (a : FileProcessorApp)
    : FileProcessorApp :=
  if PyStr.is_empty filepath then a else set_proxy_file_var filepath a.

Definition browse_clash_file (filepath : string) (a : FileProcessorApp)
    : FileProcessorApp :=
  if PyStr.is_empty filepath then a else set_clash_file_var filepath a.

Definition browse_output_dir (dirpath : string) (a : FileProcessorApp)
    : FileProcessorApp :=
  if PyStr.is_empty dirpath then a else set_output_dir_var dirpath a.

(** One use of a button of the window: one of the four that open a dialog,
    or the one that generates, in the world of that moment. *)
Inductive action :=
| BrowseMappingFile (filepath : string)
| BrowseProxyFile (filepath : string)
| BrowseClashFile (filepath : string)
| BrowseOutputDir (dirpath : string)
| GenerateFiles (w : world).

Definition act (a : FileProcessorApp) (x : action) : FileProcessorApp :=
  match x with
  | BrowseMappingFile filepath => browse_mapping_file filepath a
  | BrowseProxyFile filepath => browse_proxy_file filepath a
  | BrowseClashFile filepath => browse_clash_file filepath a
  | BrowseOutputDir dirpath => browse_output_dir dirpath a
  | GenerateFiles w => (generate_files w a).1
  end.

(** The window after a session: the actions in order, from the window
    [__init__] builds. *)
Definition session (xs : list action) : FileProcessorApp := fold_left act xs init.

(** A window with the four paths chosen, and a world in which each of them
    leads to the example data: the mapping table of the example, the proxy
    file of three lines, the YAML document above, and a directory that can
    be written to at the first second of 2025. *)
Definition chosen : FileProcessorApp :=
  {| mapping_file_var := "map.json"; proxy_file_var := "proxies.txt";
     clash_file_var := "base.yaml"; output_dir_var := "out";
     status_label_visible := false; status_label := NoStatus;
     generate_button := NORMAL; geometry := "600x300" |}.

Definition example_world : world :=
  {| mapping_at := λ p, if String.eqb p "map.json" then JValue (VDict one_mapping)
                        else JNoFile;
     proxies_at := λ p, if String.eqb p "proxies.txt" then Text proxy_text else NoFile;
     clash_at := λ p, if String.eqb p "base.yaml"
                      then YLoaded (YMapping rules_objs rules_doc) else YNoFile;
     is_dir := λ p, String.eqb p "out";
     now := new_year;
     path_join := λ d f, d +:+ "/" +:+ f;
     open_refused := λ _, None;
     dump_refused := λ _ _, None |}.

(** The same world with a disk that fills up while the document is
    serialized. *)
Definition full_disk_world : world :=
  {| mapping_at := mapping_at example_world;
     proxies_at := proxies_at example_world;
     clash_at := clash_at example_world;
     is_dir := is_dir example_world;
     now := now example_world;
     path_join := path_join example_world;
     open_refused := λ _, None;
     dump_refused := λ _ _, Some "No space left on device" |}.

(** ** The configuration as a graph of objects

    The base configuration as the interpreter holds it after loading: every
    list and every dictionary of the document is an object with an address,
    and a value is a scalar or the address of an object.  An alias of the
    document makes two places hold one address, at the top level or below
    it, so that a list extended in place is seen extended from every place
    that holds it. *)

Module Graph.

Inductive dval :=
| DRef (a : loc)
| DNone
| DBool (b : bool)
| DInt (z : Z)
| DFloat (bits : Z)
| DStr (s : string).

Inductive obj :=
| OList (xs : list dval)
| ODict (d : list (string * dval)).

Abbreviation heap := (list obj) (only parsing).

(** The values an object holds. *)
Definition children (o : obj) : list dval :=
  match o with
  | OList xs => xs
  | ODict d => map snd d
  end.

(** A new object. *)
Definition alloc (o : obj) (h : heap) : loc * heap :=
  (length h, h ++ [o]).

(** *** Values the program builds

    A dictionary or a list literal of the program is a new object, and so is
    every dictionary and list inside it. *)

Section BuildAll.
Variable build : pyval → heap → dval * heap.

Fixpoint build_all (xs : list pyval) (h : heap) : list dval * heap :=
  match xs with
  | [] => ([], h)
  | x :: xs' =>
      let '(d, h) := build x h in
      let '(ds, h) := build_all xs' h in
      (d :: ds, h)
  end.

Fixpoint build_items (kvs : list (string * pyval)) (h : heap)
    : list (string * dval) * heap :=
  match kvs with
  | [] => ([], h)
  | (k, x) :: kvs' =>
      let '(d, h) := build x h in
      let '(ds, h) := build_items kvs' h in
      ((k, d) :: ds, h)
  end.

End BuildAll.

Fixpoint build (v : pyval) (h : heap) : dval * heap :=
  match v with
  | VNone => (DNone, h)
  | VBool b => (DBool b, h)
  | VInt z => (DInt z, h)
  | VFloat bits => (DFloat bits, h)
  | VStr s => (DStr s, h)
  | VList xs =>
      let '(ds, h) := build_all build xs h in
      let '(a, h) := alloc (OList ds) h in
      (DRef a, h)
  | VDict kvs =>
      let '(ds, h) := build_items build kvs h in
      let '(a, h) := alloc (ODict ds) h in
      (DRef a, h)
  end.

(** *** Reading a value

    The value at a place, with every address replaced by the content of its
    object, down to [n] objects deep; a value that goes round in a circle
    has no such reading. *)
Fixpoint view (n : nat) (h : heap) (v : dval) {struct n} : option pyval :=
  match v with
  | DRef a =>
      match n with
      | O => None
      | S n' =>
          match h !! a with
          | Some (OList xs) => VList <$> mapM (view n' h) xs
          | Some (ODict d) =>
              VDict <$> mapM (λ kv, pair kv.1 <$> view n' h kv.2) d
          | None => None
          end
      end
  | DNone => Some VNone
  | DBool b => Some (VBool b)
  | DInt z => Some (VInt z)
  | DFloat bits => Some (VFloat bits)
  | DStr s => Some (VStr s)
  end.

Definition denotes (h : heap) (v : dval) (pv : pyval) : Prop :=
  ∃ n, view n h v = Some pv.

(** *** The dictionary operations of the merge *)

Definition dict_of (o : option obj) : list (string * dval) :=
  match o with
  | Some (ODict d) => d
  | _ => []
  end.

(** [cfg.get(k)] for the dictionary at the address [cfg] *)
Definition item (h : heap) (cfg : loc) (k : string) : option dval :=
  dict_get k (dict_of (h !! cfg)).

(** [cfg[k] = v], in place in the dictionary object *)
Definition set_item (cfg : loc) (k : string) (v : dval) (h : heap) : heap :=
  alter (λ o, match o with
              | ODict d => ODict (dict_set k v d)
              | OList _ => o
              end) cfg h.

(** [isinstance(v, list)] on what [final_config.get(field)] returned *)
Definition is_list (h : heap) (v : option dval) : bool :=
  match v with
  | Some (DRef a) =>
      match h !! a with
      | Some (OList _) => true
      | _ => false
      end
  | _ => false
  end.

(** [if not isinstance(final_config.get(field), list): final_config[field] = []] *)
Definition ensure_list (field : string) (final_config : loc) (h : heap) : heap :=
  if is_list h (item h final_config field) then h
  else
    let '(l, h) := alloc (OList []) h in
    set_item final_config field (DRef l) h.

(** [l.extend(xs)], in place in the list object *)
Definition extend (l : loc) (xs : list dval) (h : heap) : heap :=
  alter (λ o, match o with
              | OList old => OList (old ++ xs)
              | ODict _ => o
              end) l h.

(** [final_config[field].extend(xs)] for the entries [xs] the program
    generated: new objects, added to the list object the field holds.  The
    field holds a list whenever the program gets here. *)
Definition extend_field (field : string) (xs : list pyval) (final_config : loc)
    (h : heap) : heap :=
  match item h final_config field with
  | Some (DRef l) =>
      let '(ds, h) := build_all build xs h in
      extend l ds h
  | _ => h
  end.

(** Lines 135-138 and again 219-222. *)
Definition append_field (field : string) (xs : list pyval) (final_config : loc)
    (h : heap) : heap :=
  extend_field field xs final_config (ensure_list field final_config h).

(** *** [process_data] on the graph

    Takes the objects before the call and the address of the base
    configuration, and returns the objects after the call with what the call
    returns: the address of the new dictionary [final_config].  The loops
    are the ones of the merge above; an entry they generated becomes an
    object when it is added to the configuration.  An address without an
    object is no state of the program; the statements are about a base
    configuration that is a dictionary. *)
Definition process_data (h : heap) (mapping_data : list (string * pyval))
    (proxy_list : list ProxyRecord) (base_clash_config : loc)
    : heap * outcome loc :=
  match h !! base_clash_config with
  | Some (ODict d) =>
      (* line 101: a new dictionary with the same items *)
      let '(final_config, h) := alloc (ODict d) h in
      match proxies_loop 0 proxy_list [] ∅ with
      | Err msg => (h, Err msg)
      | Raise e => (h, Raise e)
      | Ok (generated_proxies, remote_ip_to_proxy_name) =>
          let h := append_field "proxies" generated_proxies final_config h in
          let keys := sorted_mapping_keys (dict_keys mapping_data) in
          match mapping_loop remote_ip_to_proxy_name mapping_data keys [] [] with
          | Err msg => (h, Err msg)
          | Raise e => (h, Raise e)
          | Ok (generated_listeners, generated_proxy_groups) =>
              let '(ds, h) := build_all build generated_listeners h in
              let '(l, h) := alloc (OList ds) h in
              let h := set_item final_config "listeners" (DRef l) h in
              let h :=
                append_field "proxy-groups" generated_proxy_groups final_config h in
              (h, Ok final_config)
          end
      end
  | Some (OList xs) =>
      (* a list has [copy] too, and no [get]: line 135 raises unless step 1
         has returned before *)
      let '(_, h) := alloc (OList xs) h in
      match proxies_loop 0 proxy_list [] ∅ with
      | Err msg => (h, Err msg)
      | _ => (h, Raise AttributeError)
      end
  | None => (h, Raise AttributeError)
  end.

(** *** Vocabulary of the statements on the graph *)

(** An address below [n], or a scalar. *)
Definition valid (n : nat) (v : dval) : bool :=
  match v with
  | DRef a => (a <? n)%nat
  | _ => true
  end.

(** Every address an object holds is the address of an object. *)
Definition closed (h : heap) : bool :=
  forallb (λ o, forallb (valid (length h)) (children o)) h.

(** The object at [b] can be reached from the value [v]: it is [v] itself,
    or it can be reached from a value that the object [v] holds. *)
Inductive reach (h : heap) : dval → loc → Prop :=
| reach_here (a : loc) : reach h (DRef a) a
| reach_step (a : loc) (o : obj) (v : dval) (b : loc) :
    h !! a = Some o → v ∈ children o → reach h v b → reach h (DRef a) b.

(** The list object the field [k] of the dictionary [d] holds, if it holds
    one. *)
Definition list_at (h : heap) (d : list (string * dval)) (k : string) : option loc :=
  match dict_get k d with
  | Some (DRef a) =>
      match h !! a with
      | Some (OList _) => Some a
      | _ => None
      end
  | _ => None
  end.

(** The elements of that list; none when the field holds no list. *)
Definition elements (h : heap) (d : list (string * dval)) (k : string) : list dval :=
  match list_at h d k with
  | Some a =>
      match h !! a with
      | Some (OList xs) => xs
      | _ => []
      end
  | None => []
  end.

(** Neither the list of [proxies] nor that of [proxy-groups] of the
    dictionary [d] can be reached from the value [v]. *)
Definition apart (h : heap) (d : list (string * dval)) (v : dval) : Prop :=
  ∀ a, reach h v a →
       list_at h d "proxies" ≠ Some a ∧ list_at h d "proxy-groups" ≠ Some a.

(** The field [k] of the dictionary at [cfg] reads as [pv]. *)
Definition field_is (h : heap) (cfg : loc) (k : string) (pv : pyval) : Prop :=
  ∃ v, item h cfg k = Some v ∧ denotes h v pv.

(** The elements of the list the field [k] of [d] holds read as [vs]. *)
Definition elements_are (h : heap) (d : list (string * dval)) (k : string)
    (vs : list pyval) : Prop :=
  Forall2 (denotes h) (elements h d k) vs.

(** A set of addresses that holds, with an address, the addresses its object
    holds: from a value of the set only the set can be reached. *)
Definition holds_children (h : heap) (s : list loc) : bool :=
  forallb (λ a, forallb (λ v, match v with
                              | DRef b => bool_decide (b ∈ s)
                              | _ => true
                              end) (children (default (OList []) (h !! a)))) s.

End Graph.

(** *** Example graphs *)

(** The YAML document [port: 7890] / [rules: [MATCH,DIRECT]] /
    [proxies: &a [{name: home}]] / [listeners: *a] / [proxy-groups: []], in
    which the listeners are the list object of the proxies, and the merge of
    the example into it. *)
Definition listed_items : list (string * Graph.dval) :=
  [("port", Graph.DInt 7890); ("rules", Graph.DRef 1); ("proxies", Graph.DRef 2);
   ("listeners", Graph.DRef 2); ("proxy-groups", Graph.DRef 4)].
Definition listed_heap : list Graph.obj :=
  [Graph.ODict listed_items;
   Graph.OList [Graph.DStr "MATCH,DIRECT"];
   Graph.OList [Graph.DRef 3];
   Graph.ODict [("name", Graph.DStr "home")];
   Graph.OList []].
Definition listed_run_heap : list Graph.obj :=
  Eval vm_compute in (Graph.process_data listed_heap one_mapping one_proxy 0).1.

(** [proxies: &a []] / [proxy-groups: *a] / [listeners: []]: one list object
    under two fields. *)
Definition shared_items : list (string * Graph.dval) :=
  [("proxies", Graph.DRef 1); ("proxy-groups", Graph.DRef 1);
   ("listeners", Graph.DRef 2)].
Definition shared_heap : list Graph.obj :=
  [Graph.ODict shared_items; Graph.OList []; Graph.OList []].
Definition shared_run_heap : list Graph.obj :=
  Eval vm_compute in (Graph.process_data shared_heap one_mapping one_proxy 0).1.

(** [proxies: &a []] / [proxy-groups: []] / [listeners: []] /
    [backup: {saved: *a}]: the list object of the proxies is also held below
    the top level. *)
Definition nested_items : list (string * Graph.dval) :=
  [("proxies", Graph.DRef 1); ("proxy-groups", Graph.DRef 2);
   ("listeners", Graph.DRef 3); ("backup", Graph.DRef 4)].
Definition nested_heap : list Graph.obj :=
  [Graph.ODict nested_items; Graph.OList []; Graph.OList []; Graph.OList [];
   Graph.ODict [("saved", Graph.DRef 1)]].
Definition nested_run_heap : list Graph.obj :=
  Eval vm_compute in (Graph.process_data nested_heap one_mapping one_proxy 0).1.

(** * Properties *)

(** ** The proxy-list parser *)

Lemma split_four (s : string) (r : ProxyRecord) (n : nat) (p0 p1 p2 p3 : string) :
  PyStr.split PyStr.colon s = [p0; p1; p2; p3] →
  (PyStr.split PyStr.colon s = [ip r; port r; user r; pass r] ∧ line_num r = n) ↔
  r = {| ip := p0; port := p1; user := p2; pass := p3; line_num := n |}.
Proof.
  intros ->. split.
  - intros [E <-]. destruct r; simpl in *. by simplify_eq.
  - by intros ->.
Qed.

Lemma read_proxy_lines_spec (lines : list string) :
  ∀ (i : nat) (proxies : list ProxyRecord) (log : list warning),
  ∃ recs ws,
    read_proxy_lines i lines proxies log = (proxies ++ recs, log ++ ws) ∧
    (∀ r, r ∈ recs ↔ ∃ k raw, lines !! k = Some raw ∧ valid_line (i + k + 1) raw r) ∧
    StronglySorted (λ a b, line_num a < line_num b) recs ∧
    Forall (λ r, i < line_num r) recs ∧
    (∀ w, w ∈ ws ↔ ∃ k raw, lines !! k = Some raw ∧ invalid_line raw ∧
                      w = InvalidLine (i + k + 1) (PyStr.strip raw)).
Proof.
  induction lines as [|raw lines IH]; intros i proxies log.
  { exists [], []. rewrite !app_nil_r. split; [done|].
    split; [|split; [constructor|split; [constructor|]]].
    - intros r. split; [by intros ?%elem_of_nil|]. by intros (k & ? & ? & _).
    - intros w. split; [by intros ?%elem_of_nil|]. by intros (k & ? & ? & _). }
  simpl.
  destruct (PyStr.is_empty (PyStr.strip raw) || PyStr.startswith PyStr.hash (PyStr.strip raw))
    eqn:Hskip.
  { destruct (IH (S i) proxies log) as (recs & ws & -> & Hrec & Hsort & Hlt & Hws).
    exists recs, ws. split; [done|]. split; [|split; [done|split]].
    - intros r. rewrite Hrec. split.
      + intros (k & raw' & Hk & Hv). exists (S k), raw'. split; [done|].
        by replace (i + S k + 1) with (S i + k + 1) by lia.
      + intros ([|k] & raw' & Hk & Hv); simpl in Hk.
        * simplify_eq. destruct Hv as (H1 & H2 & _).
          rewrite H1, H2 in Hskip. done.
        * exists k, raw'. split; [done|].
          by replace (S i + k + 1) with (i + S k + 1) by lia.
    - eapply Forall_impl; [exact Hlt|]. simpl. lia.
    - intros w. rewrite Hws. split.
      + intros (k & raw' & Hk & Hv & ->). exists (S k), raw'. split; [done|].
        split; [done|]. by replace (i + S k + 1) with (S i + k + 1) by lia.
      + intros ([|k] & raw' & Hk & Hv & ->); simpl in Hk.
        * simplify_eq. destruct Hv as (H1 & H2 & _).
          rewrite H1, H2 in Hskip. done.
        * exists k, raw'. split; [done|]. split; [done|].
          by replace (S i + k + 1) with (i + S k + 1) by lia. }
  apply orb_false_iff in Hskip as [He Hh].
  destruct (decide (length (PyStr.split PyStr.colon (PyStr.strip raw)) = 4)) as [H4|H4].
  - destruct (PyStr.split PyStr.colon (PyStr.strip raw))
      as [|p0 [|p1 [|p2 [|p3 [|? ?]]]]] eqn:Hsp; try done.
    set (r0 := {| ip := p0; port := p1; user := p2; pass := p3; line_num := i + 1 |}).
    destruct (IH (S i) (proxies ++ [r0]) log) as (recs & ws & -> & Hrec & Hsort & Hlt & Hws).
    exists (r0 :: recs), ws. rewrite <- app_assoc. split; [done|].
    split; [|split; [|split]].
    + intros r. rewrite elem_of_cons, Hrec. split.
      * intros [->|(k & raw' & Hk & Hv)].
        -- exists 0, raw. split; [done|]. unfold valid_line. rewrite He, Hh, Hsp.
           simpl. repeat split; lia.
        -- exists (S k), raw'. split; [done|].
           by replace (i + S k + 1) with (S i + k + 1) by lia.
      * intros ([|k] & raw' & Hk & Hv); simpl in Hk.
        -- left. simplify_eq. destruct Hv as (_ & _ & H3 & H4').
           eapply (split_four _ r (i + 1)) in Hsp. apply Hsp. split; [done|lia].
        -- right. exists k, raw'. split; [done|].
           by replace (S i + k + 1) with (i + S k + 1) by lia.
    + constructor; [done|]. eapply Forall_impl; [exact Hlt|]. simpl. lia.
    + constructor; [simpl; lia|]. eapply Forall_impl; [exact Hlt|]. simpl. lia.
    + intros w. rewrite Hws. split.
      * intros (k & raw' & Hk & Hv & ->). exists (S k), raw'. split; [done|].
        split; [done|]. by replace (i + S k + 1) with (S i + k + 1) by lia.
      * intros ([|k] & raw' & Hk & Hv & ->); simpl in Hk.
        -- simplify_eq. destruct Hv as (_ & _ & Hn). by rewrite Hsp in Hn.
        -- exists k, raw'. split; [done|]. split; [done|].
           by replace (S i + k + 1) with (i + S k + 1) by lia.
  - assert (read_proxy_lines (S i) lines proxies
              (log ++ [InvalidLine (i + 1) (PyStr.strip raw)]) =
            match PyStr.split PyStr.colon (PyStr.strip raw) with
            | [p0; p1; p2; p3] =>
                read_proxy_lines (S i) lines
                  (proxies ++ [{| ip := p0; port := p1; user := p2; pass := p3;
                                  line_num := i + 1 |}]) log
            | _ => read_proxy_lines (S i) lines proxies
                     (log ++ [InvalidLine (i + 1) (PyStr.strip raw)])
            end) as <-.
    { destruct (PyStr.split PyStr.colon (PyStr.strip raw))
        as [|? [|? [|? [|? [|? ?]]]]]; simpl in *; done. }
    destruct (IH (S i) proxies (log ++ [InvalidLine (i + 1) (PyStr.strip raw)]))
      as (recs & ws & -> & Hrec & Hsort & Hlt & Hws).
    exists recs, (InvalidLine (i + 1) (PyStr.strip raw) :: ws).
    rewrite <- app_assoc. split; [done|]. split; [|split; [done|split]].
    + intros r. rewrite Hrec. split.
      * intros (k & raw' & Hk & Hv). exists (S k), raw'. split; [done|].
        by replace (i + S k + 1) with (S i + k + 1) by lia.
      * intros ([|k] & raw' & Hk & Hv); simpl in Hk.
        -- simplify_eq. destruct Hv as (_ & _ & H3 & _). by rewrite H3 in H4.
        -- exists k, raw'. split; [done|].
           by replace (S i + k + 1) with (i + S k + 1) by lia.
    + eapply Forall_impl; [exact Hlt|]. simpl. lia.
    + intros w. rewrite elem_of_cons, Hws. split.
      * intros [->|(k & raw' & Hk & Hv & ->)].
        -- exists 0, raw. split; [done|]. split; [done|]. f_equal. lia.
        -- exists (S k), raw'. split; [done|]. split; [done|].
           by replace (i + S k + 1) with (S i + k + 1) by lia.
      * intros ([|k] & raw' & Hk & Hv & ->); simpl in Hk.
        -- left. simplify_eq. f_equal. lia.
        -- right. exists k, raw'. split; [done|]. split; [done|].
           by replace (S i + k + 1) with (i + S k + 1) by lia.
Qed.

(** C8. Whatever the text of the proxy file, the parser returns a list and no
    error.  A record is in the list exactly when some physical line, stripped,
    is neither blank nor a comment and has exactly four colon-separated fields,
    which are its [ip], [port], [user] and [pass], the record carrying that
    line's 1-based number; the records come in file order; a warning is logged
    exactly for the lines that are neither blank, nor comments, nor made of
    four fields; and when no line is valid the list is empty. *)
Theorem C8_read_proxy_file_total (content : string) :
  ∃ proxies log,
    read_proxy_file (Text content) = (inl proxies, log) ∧
    (∀ r, r ∈ proxies ↔
          ∃ k raw, PyStr.text_lines content !! k = Some raw ∧ valid_line (k + 1) raw r) ∧
    StronglySorted (λ a b, line_num a < line_num b) proxies ∧
    (∀ w, w ∈ log ↔
          ∃ k raw, PyStr.text_lines content !! k = Some raw ∧ invalid_line raw ∧
                   w = InvalidLine (k + 1) (PyStr.strip raw)) ∧
    ((∀ k raw r, PyStr.text_lines content !! k = Some raw → ¬ valid_line (k + 1) raw r) →
     proxies = []).
Proof.
  destruct (read_proxy_lines_spec (PyStr.text_lines content) 0 [] [])
    as (recs & ws & E & Hrec & Hsort & _ & Hws).
  exists recs, ws. unfold read_proxy_file. rewrite E. simpl.
  split; [done|]. split; [exact Hrec|]. split; [done|]. split; [exact Hws|].
  intros Hnone. destruct recs as [|r recs]; [done|].
  destruct (proj1 (Hrec r)) as (k & raw & Hk & Hv); [by left|].
  by destruct (Hnone k raw r).
Qed.

(** ** Step 1 of the merge *)

Lemma proxies_loop_ok (pl : list ProxyRecord) :
  ∀ i gp remote gp' remote',
  proxies_loop i pl gp remote = Ok (gp', remote') →
  ∃ new, gp' = gp ++ new ∧ length new = length pl ∧
    ∀ k r, pl !! k = Some r →
      ∃ p, PyStr.int (port r) = Some p ∧
           new !! k = Some (new_proxy (proxy_name (i + k)) r p).
Proof.
  induction pl as [|r0 pl IH]; intros i gp remote gp' remote' H; simpl in H.
  { simplify_eq. exists []. rewrite app_nil_r. split; [done|]. split; [done|].
    intros k r Hk. by rewrite lookup_nil in Hk. }
  destruct (PyStr.int (port r0)) as [p0|] eqn:Hp0; [|done].
  apply IH in H as (new & -> & Hlen & Hnew).
  exists (new_proxy (proxy_name i) r0 p0 :: new).
  rewrite <- app_assoc. split; [done|]. split; [simpl; lia|].
  intros [|k] r Hk; simpl in Hk.
  - simplify_eq. exists p0. split; [done|]. simpl. by rewrite Nat.add_0_r.
  - destruct (Hnew k r Hk) as (p & Hp & Hl). exists p. split; [done|].
    simpl. by replace (i + S k) with (S i + k) by lia.
Qed.





(** The reverse lookup after step 1: the name of the last record with the IP. *)
Lemma proxies_loop_lookup (pl : list ProxyRecord) :
  ∀ i gp remote gp' remote' s,
  proxies_loop i pl gp remote = Ok (gp', remote') →
  (∀ k r, pl !! k = Some r → ip r = s →
     (∀ k' r', k < k' → pl !! k' = Some r' → ip r' ≠ s) →
     remote' !! s = Some (proxy_name (i + k))) ∧
  ((∀ r, r ∈ pl → ip r ≠ s) → remote' !! s = remote !! s).
Proof.
  induction pl as [|r0 pl IH]; intros i gp remote gp' remote' s H; simpl in H.
  { simplify_eq. split; [|done]. intros k r Hk. by rewrite lookup_nil in Hk. }
  destruct (PyStr.int (port r0)) as [p0|] eqn:Hp0; [|done].
  destruct (IH _ _ _ _ _ s H) as [Hlast Hnone]. split.
  - intros [|k] r Hk Hip Hlater; simpl in Hk.
    + simplify_eq. rewrite Hnone.
      * rewrite Nat.add_0_r. apply lookup_insert_eq.
      * intros r' [k' Hk']%list_elem_of_lookup. apply (Hlater (S k') r'); [lia|done].
    + replace (i + S k) with (S i + k) by lia. apply (Hlast k r); [done..|].
      intros k' r' Hlt Hk'. apply (Hlater (S k') r'); [lia|done].
  - intros Hno. rewrite Hnone.
    + apply lookup_insert_ne. apply Hno. by left.
    + intros r Hr. apply Hno. by right.
Qed.

Lemma proxies_loop_names (pl : list ProxyRecord) :
  ∀ i gp remote gp' remote' s name,
  proxies_loop i pl gp remote = Ok (gp', remote') →
  remote' !! s = Some name →
  remote !! s = Some name ∨ ∃ k, name = proxy_name k.
Proof.
  induction pl as [|r0 pl IH]; intros i gp remote gp' remote' s name H Hl; simpl in H.
  { simplify_eq. by left. }
  destruct (PyStr.int (port r0)) as [p0|] eqn:Hp0; [|done].
  destruct (IH _ _ _ _ _ _ _ H Hl) as [Hin|Hk]; [|by right].
  destruct (decide (ip r0 = s)) as [E|Hne].
  - subst s. rewrite lookup_insert_eq in Hin. simplify_eq. right. by eexists.
  - rewrite lookup_insert_ne in Hin by done. by left.
Qed.

(** ** Names *)

Lemma decode_of_nat (n : nat) : decode_nat (PyStr.of_nat n) = Some n.
Proof.
  unfold decode_nat, PyStr.of_nat. rewrite NilEmpty.usu. simpl.
  by rewrite DecimalNat.Unsigned.of_to.
Qed.

Lemma decode_zeros (k : nat) (s : string) (n : nat) :
  decode_nat s = Some n → decode_nat (PyStr.zeros k +:+ s) = Some n.
Proof.
  intros H. induction k as [|k IH]; simpl; [done|].
  unfold decode_nat in *. simpl.
  destruct (NilEmpty.uint_of_string (PyStr.zeros k +:+ s)) as [d|]; [|done].
  simpl in *. by simplify_eq.
Qed.

Lemma decode_fmt_02d (n : nat) : decode_nat (PyStr.fmt_02d n) = Some n.
Proof. unfold PyStr.fmt_02d. apply decode_zeros, decode_of_nat. Qed.

Lemma fmt_02d_inj (n m : nat) : PyStr.fmt_02d n = PyStr.fmt_02d m → n = m.
Proof.
  intros H. pose proof (decode_fmt_02d n) as Hn.
  rewrite H, decode_fmt_02d in Hn. by simplify_eq.
Qed.

Lemma proxy_name_inj (i j : nat) : proxy_name i = proxy_name j → i = j.
Proof.
  unfold proxy_name. simpl. intros H. simplify_eq.
  apply fmt_02d_inj in H. lia.
Qed.

Lemma proxy_name_nonempty (i : nat) : PyStr.is_empty (proxy_name i) = false.
Proof. done. Qed.

Lemma split1_contains (c : ascii) (s : string) :
  PyStr.contains c s = true → ∃ a b, PyStr.split1 c s = (a, Some b).
Proof.
  induction s as [|d s IH]; simpl; [done|].
  destruct (Ascii.eqb d c); simpl; [by eauto|].
  intros (a & b & ->)%IH. by eauto.
Qed.

Lemma split1_no_sep (c : ascii) (s : string) :
  PyStr.contains c s = false → PyStr.split1 c s = (s, None).
Proof.
  induction s as [|d s IH]; simpl; [done|].
  destruct (Ascii.eqb d c); simpl; [done|]. by intros ->%IH.
Qed.

(** ** Dictionaries and the store *)

Section DictFacts.
Context {V : Type}.
Implicit Types (d : list (string * V)) (k : string) (v : V).

Lemma dict_get_set_eq k v d : dict_get k (dict_set k v d) = Some v.
Proof.
  induction d as [|[k' v'] d IH]; simpl.
  - by rewrite String.eqb_refl.
  - destruct (String.eqb k' k) eqn:E; simpl.
    + by rewrite String.eqb_refl.
    + by rewrite E.
Qed.

Lemma dict_get_set_ne k k' v d : k ≠ k' → dict_get k' (dict_set k v d) = dict_get k' d.
Proof.
  intros Hne. induction d as [|[k0 v0] d IH]; simpl.
  - by apply String.eqb_neq in Hne as ->.
  - destruct (String.eqb k0 k) eqn:E; simpl.
    + apply String.eqb_eq in E as ->. by apply String.eqb_neq in Hne as ->.
    + by rewrite IH.
Qed.

Lemma dict_set_id k v d : dict_get k d = Some v → dict_set k v d = d.
Proof.
  induction d as [|[k0 v0] d IH]; simpl; [done|].
  destruct (String.eqb k0 k) eqn:E.
  - apply String.eqb_eq in E as ->. by intros [= ->].
  - intros H. by rewrite IH.
Qed.

End DictFacts.

Lemma refs_dict_get (c : config) (k : string) (l : loc) :
  dict_get k c = Some (CList l) → l ∈ refs c.
Proof.
  induction c as [|[k0 v0] c IH]; simpl; [done|].
  destruct (String.eqb k0 k).
  - intros [= ->]. by left.
  - intros H%IH. destruct v0; try done. by right.
Qed.

Lemma refs_dict_set (c : config) (k : string) (l x : loc) :
  x ∈ refs (dict_set k (CList l) c) → x = l ∨ x ∈ refs c.
Proof.
  induction c as [|[k0 v0] c IH]; simpl.
  - intros ->%list_elem_of_singleton. by left.
  - destruct (String.eqb k0 k); simpl.
    + intros [->|H]%elem_of_cons; [by left|]. right.
      destruct v0; try done. by right.
    + destruct v0; try (intros [?|?]%IH; by eauto).
      intros [->|[?|?]%IH]%elem_of_cons; eauto; right; by constructor.
Qed.

Lemma allocated_get (st : store) (c : config) (k : string) (l : loc) :
  allocated st c → dict_get k c = Some (CList l) → l < length st.
Proof.
  unfold allocated. rewrite Forall_forall. intros H Hk.
  by apply H, (refs_dict_get _ k).
Qed.

Lemma allocated_set (st st' : store) (c : config) (k : string) (l : loc) :
  allocated st c → length st ≤ length st' → l < length st' →
  allocated st' (dict_set k (CList l) c).
Proof.
  unfold allocated. rewrite !Forall_forall. intros H Hle Hl x [->|Hx]%refs_dict_set.
  - done.
  - apply H in Hx. lia.
Qed.

Lemma lookup_snoc {A : Type} (l : list A) (x : A) : (l ++ [x]) !! length l = Some x.
Proof. by rewrite lookup_app_r, Nat.sub_diag by lia. Qed.

Ltac len := rewrite ?length_app, ?length_alter in *; simpl in *; lia.

Lemma append_field_spec (f : string) (xs : list pyval) (st st' : store) (c c' : config) :
  allocated st c → append_field f xs st c = (st', c') →
  ∃ l, c' = dict_set f (CList l) c ∧ l < length st' ∧ length st ≤ length st' ∧
       allocated st' c' ∧
       ((dict_get f c = Some (CList l) ∧ st' = alter (λ old, old ++ xs) l st) ∨
        (is_list (dict_get f c) = false ∧ l = length st ∧ st' = st ++ [xs])).
Proof.
  intros Hal. unfold append_field, ensure_list.
  destruct (is_list (dict_get f c)) eqn:Hl.
  - destruct (dict_get f c) as [[l| | | | | |]|] eqn:Hg; try done.
    unfold extend_field. rewrite Hg. intros [= <- <-].
    pose proof (allocated_get _ _ _ _ Hal Hg) as Hlt.
    exists l. rewrite length_alter. repeat split; try done.
    + by rewrite dict_set_id.
    + unfold allocated in *. by rewrite length_alter.
    + by left.
  - simpl. unfold extend_field. rewrite dict_get_set_eq. intros [= <- <-].
    exists (length st).
    assert (alter (λ old, old ++ xs) (length st) (st ++ [[]]) = st ++ [xs]) as ->.
    { rewrite alter_app_r_alt by lia. by rewrite Nat.sub_diag. }
    rewrite length_app. simpl. repeat split; try lia.
    + apply (allocated_set st); [done| |]; rewrite length_app; simpl; lia.
    + by right.
Qed.

(** What a successful call leaves behind: the returned configuration is the
    base with three fields set to list objects [p], [lm] and [a]; the
    listeners are a new object; the other two are the base's own objects when
    it has them, new ones otherwise; and an object of the old store has
    received the proxies if it is [p] and the groups if it is [a]. *)
Lemma process_data_ok (st st' : store) (m : list (string * pyval))
    (pl : list ProxyRecord) (base final : config) :
  allocated st base →
  process_data st m pl base = (st', Ok final) →
  ∃ gp remote gl gg p lm a,
    proxies_loop 0 pl [] ∅ = Ok (gp, remote) ∧
    mapping_loop remote m (sorted_mapping_keys (dict_keys m)) [] [] = Ok (gl, gg) ∧
    final = dict_set "proxy-groups" (CList a)
              (dict_set "listeners" (CList lm) (dict_set "proxies" (CList p) base)) ∧
    length st ≤ lm ∧ p < lm ∧ st' !! lm = Some gl ∧
    (dict_get "proxies" base = Some (CList p) ∨
     is_list (dict_get "proxies" base) = false ∧ length st ≤ p ∧ st' !! p = Some gp) ∧
    (dict_get "proxy-groups" base = Some (CList a) ∨
     is_list (dict_get "proxy-groups" base) = false ∧ a = S lm ∧ st' !! a = Some gg) ∧
    (∀ l xs, st !! l = Some xs →
       st' !! l = Some (xs ++ (if bool_decide (p = l) then gp else [])
                           ++ (if bool_decide (a = l) then gg else []))).
Proof.
  intros Hal. unfold process_data, dict_copy.
  destruct (proxies_loop 0 pl [] ∅) as [[gp remote]| |] eqn:H1; try done.
  destruct (append_field "proxies" gp st base) as [st1 c1] eqn:Ha1.
  destruct (mapping_loop remote m _ [] []) as [[gl gg]| |] eqn:H2; try done.
  unfold alloc.
  destruct (append_field "proxy-groups" gg (st1 ++ [gl])
              (dict_set "listeners" (CList (length st1)) c1)) as [st2 c2] eqn:Ha2.
  intros [= <- <-].
  destruct (append_field_spec _ _ _ _ _ _ Hal Ha1) as (p & -> & Hp & Hle1 & Hal1 & Hcase1).
  assert (allocated (st1 ++ [gl])
            (dict_set "listeners" (CList (length st1)) (dict_set "proxies" (CList p) base)))
    as Hal1'.
  { apply (allocated_set st1); [done| |]; rewrite length_app; simpl; lia. }
  destruct (append_field_spec _ _ _ _ _ _ Hal1' Ha2) as (a & -> & Ha & Hle2 & Hal2 & Hcase2).
  rewrite length_app in Hle2. simpl in Hle2.
  rewrite !dict_get_set_ne in Hcase2 by done.
  exists gp, remote, gl, gg, p, (length st1), a.
  split; [done|]. split; [done|]. split; [done|].
  destruct Hcase1 as [[Hg1 ->]|(Hn1 & -> & ->)];
    destruct Hcase2 as [[Hg2 ->]|(Hn2 & -> & ->)].
  - (* both fields are lists of the base *)
    pose proof (allocated_get _ _ _ _ Hal Hg1) as Hp'.
    pose proof (allocated_get _ _ _ _ Hal Hg2) as Ha'.
    split; [len|]. split; [len|]. split; [|split; [by left|split; [by left|]]].
    + rewrite list_lookup_alter_ne by len. apply lookup_snoc.
    + intros l xs Hl. pose proof (lookup_lt_Some _ _ _ Hl) as Hlt.
      repeat case_bool_decide; simplify_eq;
        rewrite ?list_lookup_alter_eq, ?list_lookup_alter_ne by done;
        (rewrite lookup_app_l by len);
        rewrite ?list_lookup_alter_eq, ?list_lookup_alter_ne by done;
        rewrite Hl; simpl; by rewrite ?app_nil_r, <- ?app_assoc.
  - (* the proxies are a list of the base, the groups are not *)
    pose proof (allocated_get _ _ _ _ Hal Hg1) as Hp'.
    split; [len|]. split; [len|]. split; [|split; [by left|split; [right|]]].
    + rewrite lookup_app_l by len. apply lookup_snoc.
    + split; [done|]. split; [len|]. apply lookup_snoc.
    + intros l xs Hl. pose proof (lookup_lt_Some _ _ _ Hl) as Hlt.
      rewrite lookup_app_l by len. rewrite lookup_app_l by len.
      assert (length (alter (λ old, old ++ gp) p st ++ [gl]) ≠ l) by len.
      repeat case_bool_decide; simplify_eq;
        rewrite ?list_lookup_alter_eq, ?list_lookup_alter_ne by done;
        rewrite Hl; simpl; by rewrite ?app_nil_r.
  - (* the groups are a list of the base, the proxies are not *)
    pose proof (allocated_get _ _ _ _ Hal Hg2) as Ha'.
    split; [len|]. split; [len|]. split; [|split; [right|split; [by left|]]].
    + rewrite list_lookup_alter_ne by len. apply lookup_snoc.
    + split; [done|]. split; [done|].
      rewrite list_lookup_alter_ne by len.
      rewrite lookup_app_l by len. apply lookup_snoc.
    + intros l xs Hl. pose proof (lookup_lt_Some _ _ _ Hl) as Hlt.
      assert (length st ≠ l) by lia.
      repeat case_bool_decide; simplify_eq;
        rewrite ?list_lookup_alter_eq, ?list_lookup_alter_ne by done;
        (rewrite lookup_app_l by len); (rewrite lookup_app_l by len);
        rewrite Hl; simpl; by rewrite ?app_nil_r.
  - (* neither is a list of the base *)
    split; [len|]. split; [len|]. split; [|split; [right|split; [right|]]].
    + rewrite lookup_app_l by len. apply lookup_snoc.
    + split; [done|]. split; [done|].
      rewrite lookup_app_l by len. rewrite lookup_app_l by len. apply lookup_snoc.
    + split; [done|]. split; [len|]. apply lookup_snoc.
    + intros l xs Hl. pose proof (lookup_lt_Some _ _ _ Hl) as Hlt.
      assert (length st ≠ l) by lia.
      assert (length ((st ++ [gp]) ++ [gl]) ≠ l) by len.
      rewrite lookup_app_l by len. rewrite lookup_app_l by len.
      rewrite lookup_app_l by len. rewrite Hl.
      repeat case_bool_decide; simplify_eq; simpl; by rewrite ?app_nil_r.
Qed.






(** ** The loop over the mapping entries *)

Lemma mapping_loop_app (remote : gmap string string) (m : list (string * pyval))
    (pre ks : list string) :
  ∀ gl gg,
  mapping_loop remote m (pre ++ ks) gl gg =
  (acc <~ mapping_loop remote m pre gl gg; mapping_loop remote m ks acc.1 acc.2).
Proof.
  induction pre as [|k pre IH]; intros gl gg; simpl; [done|].
  destruct (py_item m k) as [e| |]; simpl; try done.
  destruct (make_listener k e) as [l| |]; simpl; try done.
  destruct (make_group remote k e) as [g| |]; simpl; try done.
Qed.

Lemma mapping_loop_ok (remote : gmap string string) (m : list (string * pyval))
    (ks : list string) :
  ∀ gl gg gl' gg',
  mapping_loop remote m ks gl gg = Ok (gl', gg') →
  ∃ ls gs, gl' = gl ++ ls ∧ gg' = gg ++ gs ∧
    length ls = length ks ∧ length gs = length ks ∧
    ∀ i k, ks !! i = Some k →
      ∃ e l g, dict_get k m = Some e ∧
               make_listener k e = Ok l ∧ make_group remote k e = Ok g ∧
               ls !! i = Some l ∧ gs !! i = Some g.
Proof.
  induction ks as [|k ks IH]; intros gl gg gl' gg' H; simpl in H.
  { simplify_eq. exists [], []. rewrite !app_nil_r. repeat split; done. }
  unfold py_item in H. destruct (dict_get k m) as [e|] eqn:He; simpl in H; [|done].
  destruct (make_listener k e) as [l| |] eqn:Hl; simpl in H; try done.
  destruct (make_group remote k e) as [g| |] eqn:Hg; simpl in H; try done.
  apply IH in H as (ls & gs & -> & -> & Hls & Hgs & Hall).
  exists (l :: ls), (g :: gs). rewrite <- !app_assoc. simpl.
  repeat split; try done; try lia.
  intros [|i] k' Hi; simpl in Hi.
  - simplify_eq. by exists e, l, g.
  - by apply Hall.
Qed.

Lemma mapping_loop_step (remote : gmap string string) (m : list (string * pyval))
    (k : string) (e : pyval) (rest : list string) (gl gg : list pyval) :
  dict_get k m = Some e →
  mapping_loop remote m (k :: rest) gl gg =
  (l <~ make_listener k e; g <~ make_group remote k e;
   mapping_loop remote m rest (gl ++ [l]) (gg ++ [g])).
Proof. intros He. simpl. unfold py_item. by rewrite He. Qed.

Lemma process_data_loop_err (st : store) (m : list (string * pyval))
    (pl : list ProxyRecord) (base : config) (gp : list pyval)
    (remote : gmap string string) (e : error) :
  proxies_loop 0 pl [] ∅ = Ok (gp, remote) →
  mapping_loop remote m (sorted_mapping_keys (dict_keys m)) [] [] = Err e →
  process_data st m pl base = ((append_field "proxies" gp st base).1, Err e).
Proof.
  intros H1 H2. unfold process_data, dict_copy. rewrite H1.
  destruct (append_field "proxies" gp st base) as [st1 c1]. by rewrite H2.
Qed.

(** Reaching a key whose entry fails aborts the merge with that failure. *)
Lemma reaches_err (st : store) (m : list (string * pyval)) (pl : list ProxyRecord)
    (base : config) (gp : list pyval) (remote : gmap string string)
    (pre : list string) (k : string) (rest : list string) (gl gg : list pyval)
    (e : error) :
  proxies_loop 0 pl [] ∅ = Ok (gp, remote) →
  reaches remote m pre k rest gl gg →
  mapping_loop remote m (k :: rest) gl gg = Err e →
  process_data st m pl base = ((append_field "proxies" gp st base).1, Err e).
Proof.
  intros H1 [Hkeys Hpre] Hk. apply (process_data_loop_err _ _ _ _ _ remote); [done|].
  by rewrite Hkeys, mapping_loop_app, Hpre.
Qed.

(** Reaching a key in a loop that ends well puts its listener and its group
    at the key's position. *)
Lemma reaches_ok (m : list (string * pyval)) (remote : gmap string string)
    (pre : list string) (k : string) (rest : list string) (gl gg gl' gg' : list pyval)
    (e : pyval) :
  reaches remote m pre k rest gl gg →
  dict_get k m = Some e →
  mapping_loop remote m (sorted_mapping_keys (dict_keys m)) [] [] = Ok (gl', gg') →
  ∃ l g, make_listener k e = Ok l ∧ make_group remote k e = Ok g ∧
         gl' !! length pre = Some l ∧ gg' !! length pre = Some g.
Proof.
  intros [Hkeys Hpre] He Hall.
  apply mapping_loop_ok in Hall as (ls & gs & -> & -> & _ & _ & Hall). simpl.
  destruct (Hall (length pre) k) as (e' & l & g & He' & Hl & Hg & Hls & Hgs).
  { rewrite Hkeys. by apply list_lookup_middle. }
  rewrite He in He'. simplify_eq. by exists l, g.
Qed.

Lemma step1_names (pl : list ProxyRecord) (gp : list pyval)
    (remote : gmap string string) (s name : string) :
  proxies_loop 0 pl [] ∅ = Ok (gp, remote) →
  remote !! s = Some name → ∃ k, name = proxy_name k.
Proof.
  intros H Hl. destruct (proxies_loop_names _ _ _ _ _ _ _ _ H Hl) as [Hin|?]; [|done].
  by rewrite lookup_empty in Hin.
Qed.

Lemma step1_found (pl : list ProxyRecord) (gp : list pyval)
    (remote : gmap string string) (s : string) :
  proxies_loop 0 pl [] ∅ = Ok (gp, remote) → found (remote !! s) = remote !! s.
Proof.
  intros H. destruct (remote !! s) as [name|] eqn:Hl; [|done].
  destruct (step1_names _ _ _ _ _ H Hl) as [k ->]. done.
Qed.

(** The listener stage on an entry whose [socks_local] is a string or missing. *)
Lemma make_listener_str (key : string) (d : list (string * pyval)) (o : option string) :
  str_field d "socks_local" o →
  make_listener key (VDict d) =
  match o with
  | None => Err (SocksLocalInvalid key VNone)
  | Some s =>
      if PyStr.is_empty s || negb (PyStr.contains PyStr.colon s)
      then Err (SocksLocalInvalid key (VStr s))
      else match PyStr.int (after_colon s) with
           | Some n => Ok (new_listener key n)
           | None => Err (SocksLocalPortInvalid key (after_colon s))
           end
  end.
Proof.
  unfold make_listener, str_field, after_colon. destruct o as [s|]; simpl.
  - intros ->. simpl. destruct (PyStr.is_empty s) eqn:Hs; simpl; [done|].
    destruct (PyStr.contains PyStr.colon s) eqn:Hc; simpl; [|done].
    destruct (split1_contains _ _ Hc) as (a & b & ->). simpl.
    by destruct (PyStr.int b).
  - by intros [->| ->].
Qed.

(** The group stage on an entry whose [socks_remote] is a string or missing,
    against the reverse lookup step 1 leaves. *)
Lemma make_group_str (pl : list ProxyRecord) (gp : list pyval)
    (remote : gmap string string) (key : string) (d : list (string * pyval))
    (o : option string) :
  proxies_loop 0 pl [] ∅ = Ok (gp, remote) →
  str_field d "socks_remote" o →
  make_group remote key (VDict d) =
  match o with
  | None => Err (SocksRemoteMissing key)
  | Some sr =>
      if PyStr.is_empty sr then Err (SocksRemoteMissing key)
      else match resolve remote sr with
           | Some name => Ok (new_group key name)
           | None => Err (SocksRemoteNotFound key (VStr sr))
           end
  end.
Proof.
  intros H1. unfold make_group, str_field, resolve, before_colon.
  destruct o as [sr|]; simpl.
  - intros ->. simpl. destruct (PyStr.is_empty sr) eqn:Hs; simpl; [done|].
    rewrite (step1_found _ _ _ _ H1).
    destruct (remote !! sr) as [name|] eqn:Hl; simpl; [done|].
    destruct (PyStr.contains PyStr.colon sr) eqn:Hc; simpl; [|done].
    destruct (split1_contains _ _ Hc) as (a & b & ->). simpl.
    rewrite (step1_found _ _ _ _ H1). by destruct (remote !! a).
  - by intros [->| ->].
Qed.

Lemma is_empty_false (s : string) : s ≠ "" → PyStr.is_empty s = false.
Proof. by destruct s. Qed.

Lemma local_field_str (d : list (string * pyval)) (s : string) :
  local_field d (Some s) → str_field d "socks_local" (Some s).
Proof. done. Qed.

Lemma remote_field_str (d : list (string * pyval)) (s : string) :
  remote_field d (Some s) → str_field d "socks_remote" (Some s).
Proof. done. Qed.

(** A [socks_local] that is no string and is turned down at line 161. *)
Lemma make_listener_turned_down (key : string) (d : list (string * pyval)) :
  local_field d None →
  make_listener key (VDict d) =
  Err (SocksLocalInvalid key (default VNone (dict_get "socks_local" d))).
Proof.
  unfold local_field, make_listener. simpl.
  destruct (default VNone (dict_get "socks_local" d)) as [|b|z|bits|s|xs|kvs];
    simpl; try done.
  - by intros ->.
  - by intros ->.
  - by intros ->.
  - destruct xs; simpl; [done|]. intros H. injection H as ->. done.
  - destruct kvs; simpl; [done|]. intros H. injection H as ->. done.
Qed.

(** A [socks_remote] that is no string and that Python counts as false. *)
Lemma make_group_turned_down (remote : gmap string string) (key : string)
    (d : list (string * pyval)) :
  remote_field d None → make_group remote key (VDict d) = Err (SocksRemoteMissing key).
Proof.
  unfold remote_field, make_group. simpl.
  destruct (default VNone (dict_get "socks_remote" d)); simpl; try done; by intros ->.
Qed.

(** The listener stage of an entry with such a [socks_local]. *)
Lemma make_listener_field (key : string) (d : list (string * pyval)) (o : option string) :
  local_field d o →
  (∃ listener, make_listener key (VDict d) = Ok listener) ∨
  (∃ e, make_listener key (VDict d) = Err e ∧
        kind_of e = MappingFormatError ∧ key_of e = Some key).
Proof.
  destruct o as [s|]; intros Ho.
  - rewrite (make_listener_str key d (Some s) (local_field_str d s Ho)).
    destruct (PyStr.is_empty s || negb (PyStr.contains PyStr.colon s)); [by eauto|].
    destruct (PyStr.int (after_colon s)); by eauto.
  - rewrite (make_listener_turned_down key d Ho). by eauto.
Qed.

(** The two conditions leave out exactly the entries on which the stage
    raises an exception. *)
Lemma local_field_raises (key : string) (d : list (string * pyval)) :
  (∃ o, local_field d o) ↔ ∀ x, make_listener key (VDict d) ≠ Raise x.
Proof.
  split.
  - intros (o & Ho) x Hx.
    destruct (make_listener_field key d o Ho) as [(l & H)|(e & H & _)]; congruence.
  - intros Hno. unfold local_field.
    destruct (dict_get "socks_local" d) as [v|] eqn:Hv; [|by exists None].
    destruct v as [|b|z|bits|s|xs|kvs]; try (by exists (Some s)).
    + by exists None.
    + exists None. simpl. destruct b; [|done].
      exfalso. apply (Hno TypeError). unfold make_listener. simpl. by rewrite Hv.
    + exists None. simpl. destruct (z =? 0)%Z eqn:Hz; [done|].
      exfalso. apply (Hno TypeError). unfold make_listener. simpl. rewrite Hv. simpl.
      by rewrite Hz.
    + exists None. simpl.
      destruct (Z.land bits (2 ^ 63 - 1) =? 0)%Z eqn:Hz; [done|].
      exfalso. apply (Hno TypeError). unfold make_listener. simpl. rewrite Hv. simpl.
      by rewrite Hz.
    + exists None. simpl. destruct (existsb is_colon_str xs) eqn:Hc; [|done].
      exfalso. apply (Hno AttributeError). unfold make_listener. simpl. rewrite Hv.
      destruct xs; [done|]. simpl in *. by rewrite Hc.
    + exists None. simpl.
      destruct (existsb (λ kv : string * pyval, String.eqb kv.1 ":") kvs) eqn:Hc; [|done].
      exfalso. apply (Hno AttributeError). unfold make_listener. simpl. rewrite Hv.
      destruct kvs; [done|]. simpl in *. by rewrite Hc.
Qed.

Lemma remote_field_raises (remote : gmap string string) (key : string)
    (d : list (string * pyval)) :
  (∃ o, remote_field d o) ↔ ∀ x, make_group remote key (VDict d) ≠ Raise x.
Proof.
  split.
  - intros ([s|] & Ho) x Hx.
    + revert Hx. unfold remote_field in Ho. unfold make_group. simpl. rewrite Ho. simpl.
      destruct (PyStr.is_empty s); simpl; [done|].
      destruct (found (remote !! s)); simpl; [done|].
      destruct (PyStr.contains PyStr.colon s) eqn:Hc; simpl.
      * destruct (split1_contains _ _ Hc) as (a & b & ->). simpl.
        by destruct (found (remote !! a)).
      * by destruct (found (remote !! s)).
    + by rewrite (make_group_turned_down remote key d Ho) in Hx.
  - intros Hno. unfold remote_field.
    destruct (dict_get "socks_remote" d) as [v|] eqn:Hv; [|by exists None].
    destruct v as [|b|z|bits|s|xs|kvs]; try (by exists (Some s)).
    + by exists None.
    + exists None. simpl. destruct b; [|done].
      exfalso. apply (Hno TypeError). unfold make_group. simpl. by rewrite Hv.
    + exists None. simpl. destruct (z =? 0)%Z eqn:Hz; [done|].
      exfalso. apply (Hno TypeError). unfold make_group. simpl. rewrite Hv. simpl.
      by rewrite Hz.
    + exists None. simpl.
      destruct (Z.land bits (2 ^ 63 - 1) =? 0)%Z eqn:Hz; [done|].
      exfalso. apply (Hno TypeError). unfold make_group. simpl. rewrite Hv. simpl.
      by rewrite Hz.
    + exists None. simpl. destruct xs; [done|].
      exfalso. apply (Hno TypeError). unfold make_group. simpl. by rewrite Hv.
    + exists None. simpl. destruct kvs; [done|].
      exfalso. apply (Hno TypeError). unfold make_group. simpl. by rewrite Hv.
Qed.

(** C5, as the code has it.  When the merge reaches key [K], whose entry is
    an object with a [socks_local] other than those on which lines 161 to
    171 raise an exception (a number other than zero, true, a list or an
    object that has ":" among its elements or keys): if the field is no
    string (it is absent, null, false, zero, or a list or an object without
    ":"), or is empty, without a colon, or the text after its first colon is
    not accepted by [int], the merge returns a mapping-format error that
    names [K]; otherwise the entry yields the listener named [socks_K], of
    type mixed, on the parsed port, routed to [socks_relay_K], which a merge
    that ends well has at [K]'s position among the generated listeners. *)
Theorem C5_listener (pl : list ProxyRecord) (gp : list pyval)
    (remote : gmap string string) (m : list (string * pyval))
    (pre : list string) (K : string) (rest : list string) (gl gg : list pyval)
    (d : list (string * pyval)) (o : option string) :
  proxies_loop 0 pl [] ∅ = Ok (gp, remote) →
  reaches remote m pre K rest gl gg →
  dict_get K m = Some (VDict d) →
  local_field d o →
  ((o = None ∨
    ∃ s, o = Some s ∧
         (s = "" ∨ PyStr.contains PyStr.colon s = false ∨
          PyStr.int (after_colon s) = None)) →
   ∀ st base, ∃ st' e,
     process_data st m pl base = (st', Err e) ∧
     kind_of e = MappingFormatError ∧ key_of e = Some K) ∧
  (∀ s n,
     o = Some s → s ≠ "" → PyStr.contains PyStr.colon s = true →
     PyStr.int (after_colon s) = Some n →
     let listener := VDict [("name", VStr ("socks_" +:+ K));
                            ("type", VStr "mixed");
                            ("port", VInt n);
                            ("proxy", VStr ("socks_relay_" +:+ K))] in
     make_listener K (VDict d) = Ok listener ∧
     ∀ gl' gg',
       mapping_loop remote m (sorted_mapping_keys (dict_keys m)) [] [] = Ok (gl', gg') →
       gl' !! length pre = Some listener).
Proof.
  intros H1 Hreach HK Ho. split.
  - intros Hbad st base.
    assert (∃ e, make_listener K (VDict d) = Err e ∧
                 kind_of e = MappingFormatError ∧ key_of e = Some K) as (e & He & Hk & Hn).
    { destruct Hbad as [->|(s & -> & Hs)].
      { rewrite (make_listener_turned_down K d Ho). by eauto. }
      rewrite (make_listener_str K d (Some s) (local_field_str d s Ho)).
      destruct Hs as [->|[Hc|Hp]].
      - by eauto.
      - rewrite Hc, orb_true_r. by eauto.
      - destruct (PyStr.is_empty s || negb (PyStr.contains PyStr.colon s)); [by eauto|].
        rewrite Hp. by eauto. }
    eexists _, e. split; [|done].
    eapply reaches_err; [done..|].
    rewrite (mapping_loop_step _ _ _ _ _ _ _ HK), He. done.
  - intros s n -> Hs Hc Hp listener.
    pose proof (make_listener_str K d (Some s) (local_field_str d s Ho)) as Hl.
    cbv beta iota in Hl. rewrite (is_empty_false _ Hs), Hc, Hp in Hl. simpl in Hl. split; [done|].
    intros gl' gg' Hall.
    destruct (reaches_ok _ _ _ _ _ _ _ _ _ _ Hreach HK Hall) as (l & g & Hl' & _ & Hgl & _).
    rewrite Hl in Hl'. by simplify_eq.
Qed.

(** C3, as the code has it.  When the merge reaches key [K], whose entry is
    an object with a [socks_remote] other than those on which lines 183 to
    201 raise an exception (a number other than zero, true, a list or an
    object that is not empty): if the field is no string (it is absent,
    null, false, zero, or an empty list or object) or is the empty string,
    the merge returns a mapping-format error that names [K], whatever
    [socks_local] the listener stage took without an exception; otherwise,
    the listener stage passed, the name is looked up under the whole value
    and then, only if that fails and the value has a colon, under the text
    before the first colon; if both fail the merge returns the
    unresolved-remote error naming [K] and the value; if one succeeds the
    entry yields the group named [socks_relay_K], of type relay, whose
    proxies are [Switch-Proxy] and the name found, in that order, which a
    merge that ends well has at [K]'s position among the generated
    groups. *)
Theorem C3_relay_group (pl : list ProxyRecord) (gp : list pyval)
    (remote : gmap string string) (m : list (string * pyval))
    (pre : list string) (K : string) (rest : list string) (gl gg : list pyval)
    (d : list (string * pyval)) (o : option string) :
  proxies_loop 0 pl [] ∅ = Ok (gp, remote) →
  reaches remote m pre K rest gl gg →
  dict_get K m = Some (VDict d) →
  remote_field d o →
  ((o = None ∨ o = Some "") →
   ∀ ol, local_field d ol →
   ∀ st base, ∃ st' e,
     process_data st m pl base = (st', Err e) ∧
     kind_of e = MappingFormatError ∧ key_of e = Some K) ∧
  (∀ sr listener,
     o = Some sr → sr ≠ "" → make_listener K (VDict d) = Ok listener →
     (resolve remote sr = None →
      ∀ st base, ∃ st',
        process_data st m pl base = (st', Err (SocksRemoteNotFound K (VStr sr))) ∧
        kind_of (SocksRemoteNotFound K (VStr sr)) = UnresolvedRemoteError ∧
        key_of (SocksRemoteNotFound K (VStr sr)) = Some K) ∧
     (∀ name,
        resolve remote sr = Some name →
        let group := VDict [("name", VStr ("socks_relay_" +:+ K));
                            ("type", VStr "relay");
                            ("proxies", VList [VStr "Switch-Proxy"; VStr name])] in
        make_group remote K (VDict d) = Ok group ∧
        ∀ gl' gg',
          mapping_loop remote m (sorted_mapping_keys (dict_keys m)) [] [] = Ok (gl', gg') →
          gg' !! length pre = Some group)).
Proof.
  intros H1 Hreach HK Ho. split.
  - intros Hmiss ol Hol st base.
    assert (make_group remote K (VDict d) = Err (SocksRemoteMissing K)) as Hg'.
    { destruct Hmiss as [-> | ->]; [by apply make_group_turned_down|].
      by rewrite (make_group_str pl gp remote K d (Some "") H1 (remote_field_str d "" Ho)). }
    assert (∃ e, mapping_loop remote m (K :: rest) gl gg = Err e ∧
                 kind_of e = MappingFormatError ∧ key_of e = Some K) as (e & He & Hk & Hn).
    { rewrite (mapping_loop_step _ _ _ _ _ _ _ HK), Hg'.
      destruct (make_listener_field K d ol Hol) as [(l & ->)|(e & -> & He)]; simpl;
        by eauto. }
    eexists _, e. split; [|done]. by eapply reaches_err.
  - intros sr listener -> Hsr Hlis.
    pose proof (make_group_str pl gp remote K d (Some sr) H1 (remote_field_str d sr Ho)) as Hg.
    cbv beta iota in Hg. rewrite (is_empty_false _ Hsr) in Hg. split.
    + intros Hres st base. rewrite Hres in Hg. eexists. split; [|done].
      eapply reaches_err; [done..|].
      by rewrite (mapping_loop_step _ _ _ _ _ _ _ HK), Hlis, Hg.
    + intros name Hres group. rewrite Hres in Hg. split; [done|].
      intros gl' gg' Hall.
      destruct (reaches_ok _ _ _ _ _ _ _ _ _ _ Hreach HK Hall) as (l & g & _ & Hg' & _ & Hgg).
      rewrite Hg in Hg'. by simplify_eq.
Qed.

(** C2. When two records share an IP and the later one, at index [j], is the
    last record with that IP, the reverse lookup maps the IP to the name of
    the proxy generated from that last record, which is not the name
    generated from the earlier one; and the relay group of every mapping
    entry whose [socks_remote] resolves to that IP lists that name after
    [Switch-Proxy]. *)
Theorem C2_last_write_wins (pl : list ProxyRecord) (gp : list pyval)
    (remote : gmap string string) (i j : nat) (ri rj : ProxyRecord) :
  proxies_loop 0 pl [] ∅ = Ok (gp, remote) →
  i < j → pl !! i = Some ri → pl !! j = Some rj → ip ri = ip rj →
  (∀ k r, j < k → pl !! k = Some r → ip r ≠ ip rj) →
  remote !! ip rj = Some (proxy_name j) ∧
  proxy_name j ≠ proxy_name i ∧
  (∃ p, gp !! j = Some (new_proxy (proxy_name j) rj p)) ∧
  (∀ K d sr,
     str_field d "socks_remote" (Some sr) → resolves_to remote sr (ip rj) →
     let group := VDict [("name", VStr ("socks_relay_" +:+ K));
                         ("type", VStr "relay");
                         ("proxies", VList [VStr "Switch-Proxy"; VStr (proxy_name j)])] in
     make_group remote K (VDict d) = Ok group ∧
     ∀ m pre rest gl gg gl' gg',
       reaches remote m pre K rest gl gg → dict_get K m = Some (VDict d) →
       mapping_loop remote m (sorted_mapping_keys (dict_keys m)) [] [] = Ok (gl', gg') →
       gg' !! length pre = Some group).
Proof.
  intros H1 Hij Hi Hj Hip Hlast.
  destruct (proxies_loop_lookup _ _ _ _ _ _ (ip rj) H1) as [Hlk _].
  pose proof (Hlk j rj Hj eq_refl Hlast) as Hrem. simpl in Hrem.
  split; [done|]. split; [|split].
  - intros E%proxy_name_inj. lia.
  - destruct (proxies_loop_ok _ _ _ _ _ _ H1) as (new & -> & _ & Hnew).
    destruct (Hnew j rj Hj) as (p & _ & Hp). by exists p.
  - intros K d sr Hd [Hne Hres] group.
    pose proof (make_group_str pl gp remote K d (Some sr) H1 Hd) as Hg.
    cbv beta iota in Hg. rewrite (is_empty_false _ Hne) in Hg.
    assert (resolve remote sr = Some (proxy_name j)) as Hr.
    { unfold resolve. destruct Hres as [->|(Hn & Hc & Hb)].
      - by rewrite Hrem.
      - by rewrite Hn, Hc, Hb. }
    rewrite Hr in Hg. split; [done|].
    intros m pre rest gl gg gl' gg' Hreach HK Hall.
    destruct (reaches_ok _ _ _ _ _ _ _ _ _ _ Hreach HK Hall) as (l & g & _ & Hg' & _ & Hgg).
    rewrite Hg in Hg'. by simplify_eq.
Qed.

(** ** [sorted] *)

Section SortedFacts.
Context {A : Type} (leb : A → A → bool).
Hypothesis leb_total : ∀ a b, leb a b = false → leb b a = true.
Hypothesis leb_trans : ∀ a b c, leb a b = true → leb b c = true → leb a c = true.

Lemma insert_sorted_perm (x : A) (l : list A) : insert_sorted leb x l ≡ₚ x :: l.
Proof.
  induction l as [|y l IH]; simpl; [done|].
  destruct (leb x y); [done|]. rewrite IH. apply Permutation_swap.
Qed.

Lemma py_sorted_perm (l : list A) : py_sorted leb l ≡ₚ l.
Proof.
  induction l as [|x l IH]; simpl; [done|].
  by rewrite insert_sorted_perm, IH.
Qed.

Lemma insert_sorted_sorted (x : A) (l : list A) :
  StronglySorted (λ a b, leb a b = true) l →
  StronglySorted (λ a b, leb a b = true) (insert_sorted leb x l).
Proof.
  induction 1 as [|y l Hs IH Hy]; simpl.
  { repeat constructor. }
  destruct (leb x y) eqn:E.
  - constructor; [by constructor|]. constructor; [done|].
    eapply Forall_impl; [exact Hy|]. simpl. intros z Hz. by eapply leb_trans.
  - constructor; [done|].
    rewrite insert_sorted_perm. constructor; [by apply leb_total|done].
Qed.

Lemma py_sorted_sorted (l : list A) :
  StronglySorted (λ a b, leb a b = true) (py_sorted leb l).
Proof.
  induction l as [|x l IH]; simpl; [constructor|]. by apply insert_sorted_sorted.
Qed.

(** Stability: elements that compare equal keep their order. *)
Lemma insert_sorted_filter (P : A → Prop) `{!∀ a, Decision (P a)} (x : A) (l : list A) :
  (∀ a b, P a → P b → leb a b = true) →
  filter P (insert_sorted leb x l) = filter P (x :: l).
Proof.
  intros HP. induction l as [|y l IH]; simpl; [done|].
  destruct (leb x y) eqn:E; [done|].
  rewrite filter_cons, IH, !filter_cons.
  destruct (decide (P y)) as [Hy|Hy]; destruct (decide (P x)) as [Hx|Hx]; try done.
  by rewrite (HP x y Hx Hy) in E.
Qed.

Lemma py_sorted_filter (P : A → Prop) `{!∀ a, Decision (P a)} (l : list A) :
  (∀ a b, P a → P b → leb a b = true) →
  filter P (py_sorted leb l) = filter P l.
Proof.
  intros HP. induction l as [|x l IH]; simpl; [done|].
  rewrite insert_sorted_filter by done. by rewrite !filter_cons, IH.
Qed.

(** Two lists with the same elements sort to the same list when no two
    different elements compare equal. *)
Lemma py_sorted_perm_eq (l l' : list A) :
  (∀ a b, a ∈ l → b ∈ l → leb a b = true → leb b a = true → a = b) →
  l ≡ₚ l' → py_sorted leb l = py_sorted leb l'.
Proof.
  intros Hanti Hp.
  apply (StronglySorted_unique_strong (λ a b, leb a b = true)).
  - intros a b Ha Hb. rewrite py_sorted_perm in Ha. rewrite py_sorted_perm, <- Hp in Hb.
    by apply Hanti.
  - apply py_sorted_sorted.
  - apply py_sorted_sorted.
  - by rewrite !py_sorted_perm.
Qed.

End SortedFacts.

Lemma ascii_compare_lt (a b : ascii) :
  Ascii.compare a b = Lt ↔ (N_of_ascii a < N_of_ascii b)%N.
Proof. unfold Ascii.compare. apply N.compare_lt_iff. Qed.

Lemma ascii_compare_gt (a b : ascii) :
  Ascii.compare a b = Gt ↔ (N_of_ascii b < N_of_ascii a)%N.
Proof. unfold Ascii.compare. apply N.compare_gt_iff. Qed.

Lemma string_leb_trans (a b c : string) :
  String.leb a b = true → String.leb b c = true → String.leb a c = true.
Proof.
  unfold String.leb. revert b c.
  induction a as [|x a IH]; intros [|y b] [|z c]; simpl; try done.
  specialize (IH b c).
  destruct (Ascii.compare x y) eqn:Hxy; destruct (Ascii.compare y z) eqn:Hyz;
    destruct (Ascii.compare x z) eqn:Hxz; try done;
    rewrite ?ascii_compare_lt, ?ascii_compare_gt in *;
    repeat match goal with
    | H : Ascii.compare _ _ = Eq |- _ => apply Ascii.compare_eq_iff in H; subst
    end;
    rewrite ?ascii_compare_lt, ?ascii_compare_gt in *; try lia; auto.
Qed.

Lemma string_leb_total (a b : string) : String.leb a b = false → String.leb b a = true.
Proof. intros H. destruct (String.leb_total a b) as [E|E]; congruence. Qed.

Lemma leb_int_key_total (a b : string * Z) : leb_int_key a b = false → leb_int_key b a = true.
Proof. unfold leb_int_key. lia. Qed.

Lemma leb_int_key_trans (a b c : string * Z) :
  leb_int_key a b = true → leb_int_key b c = true → leb_int_key a c = true.
Proof. unfold leb_int_key. lia. Qed.

(** ** The order of the mapping keys *)

Lemma decorate_fst (keys : list string) : map fst (decorate keys) = keys.
Proof. unfold decorate. rewrite map_map. simpl. apply map_id. Qed.

Lemma decorate_snd (keys : list string) :
  Forall key_parses keys → Forall (λ p, PyStr.int p.1 = Some p.2) (decorate keys).
Proof.
  induction 1 as [|k keys [n Hn] _ IH]; simpl; constructor; [|done].
  simpl. by rewrite Hn.
Qed.

Lemma int_keys_decorate (keys : list string) :
  Forall key_parses keys → int_keys keys = Some (decorate keys).
Proof.
  unfold int_keys. induction 1 as [|k keys [n Hn] _ IH]; simpl; [done|].
  rewrite Hn. simpl. by rewrite IH.
Qed.

Lemma int_keys_none (keys : list string) :
  Exists (λ k, PyStr.int k = None) keys → int_keys keys = None.
Proof.
  intros H. apply mapM_None. eapply Exists_impl; [exact H|].
  simpl. by intros k ->.
Qed.

Lemma sorted_mapping_keys_int (keys : list string) :
  Forall key_parses keys →
  sorted_mapping_keys keys = map fst (py_sorted leb_int_key (decorate keys)).
Proof. intros H. unfold sorted_mapping_keys. by rewrite int_keys_decorate. Qed.

Lemma sorted_mapping_keys_str (keys : list string) :
  Exists (λ k, PyStr.int k = None) keys →
  sorted_mapping_keys keys = py_sorted String.leb keys.
Proof. intros H. unfold sorted_mapping_keys. by rewrite int_keys_none. Qed.

Lemma parses_or_not (keys : list string) :
  Forall key_parses keys ∨ Exists (λ k, PyStr.int k = None) keys.
Proof.
  induction keys as [|k keys [IH|IH]].
  - left. constructor.
  - destruct (PyStr.int k) as [n|] eqn:Hk.
    + left. constructor; [by exists n|done].
    + right. by left.
  - right. by right.
Qed.

Lemma sorted_mapping_keys_perm (keys : list string) : sorted_mapping_keys keys ≡ₚ keys.
Proof.
  destruct (parses_or_not keys) as [H|H].
  - rewrite sorted_mapping_keys_int by done.
    rewrite py_sorted_perm. by rewrite decorate_fst.
  - rewrite sorted_mapping_keys_str by done. apply py_sorted_perm.
Qed.

Lemma strongly_sorted_map {A B : Type} (R : A → A → Prop) (S : B → B → Prop)
    (P : A → Prop) (f : A → B) (l : list A) :
  (∀ a b, P a → P b → R a b → S (f a) (f b)) →
  Forall P l → StronglySorted R l → StronglySorted S (map f l).
Proof.
  intros HRS HP Hs. induction Hs as [|x l Hs IH Hx]; simpl; [constructor|].
  inversion HP as [|? ? Px Pl]; subst. constructor; [by apply IH|].
  rewrite Forall_forall in Hx, Pl. apply Forall_forall.
  intros b (a & -> & Ha)%list_elem_of_fmap. apply HRS; auto.
Qed.

Lemma sorted_mapping_keys_int_sorted (keys : list string) :
  Forall key_parses keys → StronglySorted int_le (sorted_mapping_keys keys).
Proof.
  intros H. rewrite sorted_mapping_keys_int by done.
  apply (strongly_sorted_map (λ a b, leb_int_key a b = true) _
           (λ p, PyStr.int p.1 = Some p.2)).
  - intros [a x] [b y] Ha Hb Hab. simpl in *. exists x, y.
    unfold leb_int_key in Hab. simpl in Hab. repeat split; [done..|lia].
  - rewrite py_sorted_perm. by apply decorate_snd.
  - apply py_sorted_sorted; [apply leb_int_key_total|apply leb_int_key_trans].
Qed.

Lemma sorted_mapping_keys_str_sorted (keys : list string) :
  Exists (λ k, PyStr.int k = None) keys → StronglySorted str_le (sorted_mapping_keys keys).
Proof.
  intros H. rewrite sorted_mapping_keys_str by done.
  apply py_sorted_sorted; [apply string_leb_total|apply string_leb_trans].
Qed.

Lemma filter_fst_decorated (z : Z) (D : list (string * Z)) :
  Forall (λ p, PyStr.int p.1 = Some p.2) D →
  filter (λ k, PyStr.int k = Some z) (map fst D) = map fst (filter (λ p, p.2 = z) D).
Proof.
  induction 1 as [|[k n] D Hk _ IH]; simpl in *; [done|].
  rewrite !filter_cons. simpl. rewrite IH.
  destruct (decide (PyStr.int k = Some z)) as [E|E];
    destruct (decide (n = z)) as [E'|E']; try done; congruence.
Qed.

(** Keys of equal integer value keep the order they had. *)
Lemma sorted_mapping_keys_stable (keys : list string) (z : Z) :
  Forall key_parses keys →
  filter (λ k, PyStr.int k = Some z) (sorted_mapping_keys keys) =
  filter (λ k, PyStr.int k = Some z) keys.
Proof.
  intros H. rewrite sorted_mapping_keys_int by done.
  rewrite filter_fst_decorated.
  2: { rewrite py_sorted_perm. by apply decorate_snd. }
  rewrite py_sorted_filter.
  2: { intros [a x] [b y]. unfold leb_int_key. simpl. lia. }
  rewrite <- filter_fst_decorated by (by apply decorate_snd).
  by rewrite decorate_fst.
Qed.

(** The order does not depend on the order the keys came in, when some key
    has no integer value or no two keys have the same one. *)
Lemma sorted_mapping_keys_order_free (keys keys' : list string) :
  keys' ≡ₚ keys →
  Exists (λ k, PyStr.int k = None) keys ∨
  (∀ a b, a ∈ keys → b ∈ keys → PyStr.int a = PyStr.int b → a = b) →
  sorted_mapping_keys keys' = sorted_mapping_keys keys.
Proof.
  intros Hp [Hbad|Hinj].
  - rewrite !sorted_mapping_keys_str; [| done | by rewrite Hp].
    apply py_sorted_perm_eq;
      [apply string_leb_total|apply string_leb_trans| |done].
    intros a b _ _. apply String.leb_antisym.
  - destruct (parses_or_not keys) as [H|H].
    + rewrite !sorted_mapping_keys_int; [| done | by rewrite Hp].
      f_equal. apply py_sorted_perm_eq;
        [apply leb_int_key_total|apply leb_int_key_trans| |].
      * assert (Forall (λ p, PyStr.int p.1 = Some p.2 ∧ p.1 ∈ keys) (decorate keys')) as Hd.
        { rewrite Forall_forall. intros p Hin. split.
          - revert p Hin. apply Forall_forall, decorate_snd. by rewrite Hp.
          - rewrite <- Hp, <- (decorate_fst keys'). apply list_elem_of_fmap. eauto. }
        rewrite Forall_forall in Hd.
        intros [a x] [b y] [Ha Ha']%Hd [Hb Hb']%Hd Hab Hba.
        unfold leb_int_key in *. simpl in *.
        assert (x = y) as -> by lia. f_equal. apply Hinj; [done..|congruence].
      * unfold decorate. by apply fmap_Permutation.
    + rewrite !sorted_mapping_keys_str; [| done | by rewrite Hp].
      apply py_sorted_perm_eq;
        [apply string_leb_total|apply string_leb_trans| |done].
      intros a b _ _. apply String.leb_antisym.
Qed.

Lemma make_listener_name (key : string) (e l : pyval) :
  make_listener key e = Ok l → ∃ n, l = new_listener key n.
Proof.
  unfold make_listener, py_get, py_in_colon, py_split1.
  intros H. repeat (case_match; simpl in *; simplify_eq); eauto.
Qed.

Lemma make_group_name (remote : gmap string string) (key : string) (e g : pyval) :
  make_group remote key e = Ok g → ∃ name, g = new_group key name.
Proof.
  unfold make_group, py_get, py_in_colon, py_split1, remote_get.
  intros H. repeat (case_match; simpl in *; simplify_eq); eauto.
Qed.

(** C4, as the code has it.  The keys are gone through in this order: if
    every key is accepted by [int], ascending by integer value, keys of equal
    value in the order of the source; otherwise in lexicographic string
    order.  The listeners and the relay groups of a merge that ends well are
    in that order.  The order does not depend on the order of the keys in the
    source when some key is not an integer or no two keys have the same
    integer value. *)
Theorem C4_key_order (m : list (string * pyval)) :
  let keys := dict_keys m in
  let order := sorted_mapping_keys keys in
  order ≡ₚ keys ∧
  (Forall key_parses keys →
   StronglySorted int_le order ∧
   ∀ z, filter (λ k, PyStr.int k = Some z) order = filter (λ k, PyStr.int k = Some z) keys) ∧
  (Exists (λ k, PyStr.int k = None) keys → StronglySorted str_le order) ∧
  (∀ remote gl gg,
     mapping_loop remote m order [] [] = Ok (gl, gg) →
     length gl = length order ∧ length gg = length order ∧
     ∀ i k, order !! i = Some k →
       ∃ n name, gl !! i = Some (new_listener k n) ∧ gg !! i = Some (new_group k name)) ∧
  (∀ m' : list (string * pyval),
     dict_keys m' ≡ₚ keys →
     Exists (λ k, PyStr.int k = None) keys ∨
     (∀ a b, a ∈ keys → b ∈ keys → PyStr.int a = PyStr.int b → a = b) →
     sorted_mapping_keys (dict_keys m') = order).
Proof.
  intros keys order. split; [apply sorted_mapping_keys_perm|]. split; [|split; [|split]].
  - intros H. split; [by apply sorted_mapping_keys_int_sorted|].
    intros z. by apply sorted_mapping_keys_stable.
  - apply sorted_mapping_keys_str_sorted.
  - intros remote gl gg H.
    apply mapping_loop_ok in H as (ls & gs & -> & -> & Hls & Hgs & Hall). simpl.
    split; [done|]. split; [done|]. intros i k Hi.
    destruct (Hall i k Hi) as (e & l & g & _ & Hl & Hg & Hli & Hgi).
    apply make_listener_name in Hl as [n ->]. apply make_group_name in Hg as [name ->].
    by exists n, name.
  - intros m' Hp Hcond. by apply sorted_mapping_keys_order_free.
Qed.

(** C4 as stated fails: the same two entries under the keys ["1"] and ["01"],
    which are valid and distinct keys of one JSON object, give the listeners
    in one order when the file has ["1"] first and in the other order when it
    has ["01"] first. *)
Lemma C4_source_order_shows :
  dict_keys tie_mapping_swapped ≡ₚ dict_keys tie_mapping ∧
  Forall key_parses (dict_keys tie_mapping) ∧
  dict_get "1" tie_mapping_swapped = dict_get "1" tie_mapping ∧
  dict_get "01" tie_mapping_swapped = dict_get "01" tie_mapping ∧
  sorted_mapping_keys (dict_keys tie_mapping) = ["1"; "01"] ∧
  sorted_mapping_keys (dict_keys tie_mapping_swapped) = ["01"; "1"] ∧
  result_field (process_data [] tie_mapping one_proxy []) "listeners" =
    Some (VList [new_listener "1" 1081; new_listener "01" 1082]) ∧
  result_field (process_data [] tie_mapping_swapped one_proxy []) "listeners" =
    Some (VList [new_listener "01" 1082; new_listener "1" 1081]).
Proof.
  split; [apply Permutation_swap|].
  split; [repeat constructor; by eexists|].
  repeat split; vm_compute; reflexivity.
Qed.

(** ** The merge and the store *)

Lemma process_data_ending (st1 st2 : store) (m : list (string * pyval))
    (pl : list ProxyRecord) (base1 base2 : config) :
  same_ending (process_data st1 m pl base1).2 (process_data st2 m pl base2).2.
Proof.
  unfold process_data, dict_copy.
  destruct (proxies_loop 0 pl [] ∅) as [[gp remote]| |]; simpl; try done.
  destruct (append_field "proxies" gp st1 base1) as [st1' c1].
  destruct (append_field "proxies" gp st2 base2) as [st2' c2].
  destruct (mapping_loop remote m _ [] []) as [[gl gg]| |]; simpl; try done.
  unfold alloc.
  destruct (append_field "proxy-groups" gg (st1' ++ [gl]) _) as [? ?].
  destruct (append_field "proxy-groups" gg (st2' ++ [gl]) _) as [? ?]. done.
Qed.

Lemma dict_get_snapshot (st : store) (c : config) (k : string) :
  dict_get k (snapshot st c) = field st c k.
Proof.
  unfold field, snapshot. induction c as [|[k0 v0] c IH]; simpl; [done|].
  by destruct (String.eqb k0 k).
Qed.





(** C10. When the [proxies] field of the base configuration is not a list
    (null, a string, a number, or absent), the merge ends as it would on any
    other base configuration, and when it returns, the field of the result is
    a list object that did not exist before the call and holds exactly the
    generated proxies; the same for [proxy-groups] and the generated
    groups. *)
Theorem C10_not_a_list (st : store) (m : list (string * pyval))
    (pl : list ProxyRecord) (base : config) :
  allocated st base →
  (∀ st0 base0,
     same_ending (process_data st m pl base).2 (process_data st0 m pl base0).2) ∧
  (∀ st' final,
     process_data st m pl base = (st', Ok final) →
     ∃ gp remote gl gg,
       proxies_loop 0 pl [] ∅ = Ok (gp, remote) ∧
       mapping_loop remote m (sorted_mapping_keys (dict_keys m)) [] [] = Ok (gl, gg) ∧
       (is_list (dict_get "proxies" base) = false →
        ∃ l, dict_get "proxies" final = Some (CList l) ∧ length st ≤ l ∧
             st' !! l = Some gp ∧ field st' final "proxies" = Some (VList gp)) ∧
       (is_list (dict_get "proxy-groups" base) = false →
        ∃ l, dict_get "proxy-groups" final = Some (CList l) ∧ length st ≤ l ∧
             st' !! l = Some gg ∧ field st' final "proxy-groups" = Some (VList gg))).
Proof.
  intros Hal. split; [intros st0 base0; apply process_data_ending|].
  intros st' final H.
  destruct (process_data_ok _ _ _ _ _ _ Hal H)
    as (gp & remote & gl & gg & p & lm & a & H1 & H2 & -> & Hlm & Hplm & Hgl & Hp & Ha & Hold).
  exists gp, remote, gl, gg. split; [done|]. split; [done|]. split.
  - intros Hn. destruct Hp as [Hp|(_ & Hple & Hpl)]; [by rewrite Hp in Hn|].
    exists p. unfold field. rewrite !dict_get_set_ne by done. rewrite dict_get_set_eq.
    simpl. by rewrite Hpl.
  - intros Hn. destruct Ha as [Ha|(_ & -> & Hal')]; [by rewrite Ha in Hn|].
    exists (S lm). unfold field. rewrite dict_get_set_eq. simpl. rewrite Hal'.
    repeat split; [lia|done..].
Qed.

(** C7 fails on the code.  The copy made of the base configuration is
    shallow, so the result and the base hold the same [proxies] list object
    and the call extends it in place: on the base configuration loaded from
    the YAML document [{}], with one proxy and one mapping entry, the base's
    own [proxies] and [proxy-groups] are no longer empty after the call; and
    with a mapping entry that has no [socks_local] the call returns an error,
    yet the base's [proxies] hold the generated proxy. *)
Theorem C7_base_config_is_modified :
  field empty_store empty_base "proxies" = Some (VList []) ∧
  field empty_store empty_base "proxy-groups" = Some (VList []) ∧
  (∃ st' final,
     process_data empty_store one_mapping one_proxy empty_base = (st', Ok final) ∧
     dict_get "proxies" final = dict_get "proxies" empty_base ∧
     dict_get "proxy-groups" final = dict_get "proxy-groups" empty_base ∧
     field st' empty_base "proxies" = Some (VList [new_proxy "socks_out_01" alice 1080]) ∧
     field st' empty_base "proxy-groups" = Some (VList [new_group "1" "socks_out_01"])) ∧
  (∃ st',
     process_data empty_store bad_mapping one_proxy empty_base =
       (st', Err (SocksLocalInvalid "1" VNone)) ∧
     field st' empty_base "proxies" = Some (VList [new_proxy "socks_out_01" alice 1080])).
Proof.
  split; [done|]. split; [done|]. split.
  - eexists _, _. split; [by vm_compute|]. by vm_compute.
  - eexists. split; [by vm_compute|]. by vm_compute.
Qed.

(** ** The statements at work on the examples *)

(** C5 as stated fails on an entry whose [socks_local] is a number, which a
    JSON file can give it: the field is neither missing nor empty, the test
    for a colon at line 161 raises [TypeError], and the merge neither returns
    a mapping-format error nor yields a listener. *)
Lemma C5_socks_local_a_number :
  proxies_loop 0 one_proxy [] ∅ = Ok (one_generated, one_remote) ∧
  reaches one_remote number_local_mapping [] "1" [] [] [] ∧
  dict_get "1" number_local_mapping = Some (VDict number_local_entry) ∧
  dict_get "socks_local" number_local_entry = Some (VInt 1081) ∧
  truthy (VInt 1081) = true ∧
  make_listener "1" (VDict number_local_entry) = Raise TypeError ∧
  (process_data empty_store number_local_mapping one_proxy empty_base).2 = Raise TypeError ∧
  ¬ (∃ st' e,
       process_data empty_store number_local_mapping one_proxy empty_base = (st', Err e) ∧
       kind_of e = MappingFormatError ∧ key_of e = Some "1") ∧
  ¬ (∃ listener, make_listener "1" (VDict number_local_entry) = Ok listener).
Proof.
  assert ((process_data empty_store number_local_mapping one_proxy empty_base).2 =
          Raise TypeError) as Hrun by (vm_compute; reflexivity).
  split; [vm_compute; reflexivity|]. split; [split; vm_compute; reflexivity|].
  split; [reflexivity|]. split; [reflexivity|]. split; [reflexivity|].
  split; [vm_compute; reflexivity|]. split; [exact Hrun|]. split.
  - intros (st' & e & H & _). rewrite H in Hrun. discriminate.
  - intros (listener & H). vm_compute in H. discriminate.
Qed.

(** C3 as stated fails on an entry whose [socks_remote] is a number: the
    field is neither missing nor empty, the lookup finds nothing, the test
    for a colon at line 193 raises [TypeError], and the merge neither
    returns an error nor yields a relay group. *)
Lemma C3_socks_remote_a_number :
  proxies_loop 0 one_proxy [] ∅ = Ok (one_generated, one_remote) ∧
  reaches one_remote number_remote_mapping [] "1" [] [] [] ∧
  dict_get "1" number_remote_mapping = Some (VDict number_remote_entry) ∧
  dict_get "socks_remote" number_remote_entry = Some (VInt 5) ∧
  truthy (VInt 5) = true ∧
  make_listener "1" (VDict number_remote_entry) = Ok (new_listener "1" 1081) ∧
  make_group one_remote "1" (VDict number_remote_entry) = Raise TypeError ∧
  (process_data empty_store number_remote_mapping one_proxy empty_base).2 = Raise TypeError ∧
  ¬ (∃ st' e,
       process_data empty_store number_remote_mapping one_proxy empty_base = (st', Err e)) ∧
  ¬ (∃ group, make_group one_remote "1" (VDict number_remote_entry) = Ok group).
Proof.
  assert ((process_data empty_store number_remote_mapping one_proxy empty_base).2 =
          Raise TypeError) as Hrun by (vm_compute; reflexivity).
  split; [vm_compute; reflexivity|]. split; [split; vm_compute; reflexivity|].
  split; [reflexivity|]. split; [reflexivity|]. split; [reflexivity|].
  split; [vm_compute; reflexivity|]. split; [vm_compute; reflexivity|].
  split; [exact Hrun|]. split.
  - intros (st' & e & H). rewrite H in Hrun. discriminate.
  - intros (group & H). vm_compute in H. discriminate.
Qed.

Lemma one_proxy_step1 : proxies_loop 0 one_proxy [] ∅ = Ok (one_generated, one_remote).
Proof. vm_compute. reflexivity. Defined.

Lemma two_proxies_step1 : proxies_loop 0 two_proxies [] ∅ = Ok (two_generated, two_remote).
Proof. vm_compute. reflexivity. Defined.

Lemma one_mapping_reaches : reaches one_remote one_mapping [] "1" [] [] [].
Proof. split; vm_compute; reflexivity. Defined.

Lemma one_run_eq :
  process_data empty_store one_mapping one_proxy empty_base =
  (one_run_store, Ok one_run_config).
Proof. vm_compute. reflexivity. Defined.

Lemma odd_run_eq :
  process_data odd_store one_mapping one_proxy odd_base = (odd_run_store, Ok odd_run_config).
Proof. vm_compute. reflexivity. Defined.

Lemma empty_base_allocated : allocated empty_store empty_base.
Proof. repeat constructor. Defined.


Lemma C2_last_write_wins_witness :
  proxies_loop 0 two_proxies [] ∅ = Ok (two_generated, two_remote) ∧
  two_proxies !! 0 = Some alice ∧ two_proxies !! 1 = Some bob ∧ ip alice = ip bob ∧
  two_remote !! "10.0.0.5" = Some "socks_out_02" ∧
  make_group two_remote "1" (VDict one_entry) =
    Ok (VDict [("name", VStr "socks_relay_1"); ("type", VStr "relay");
               ("proxies", VList [VStr "Switch-Proxy"; VStr "socks_out_02"])]).
Proof.
  assert (∀ k r, 1 < k → two_proxies !! k = Some r → ip r ≠ ip bob) as Hlast.
  { intros [|[|k]] r Hk Hr; [lia|lia|]. simpl in Hr. discriminate. }
  destruct (C2_last_write_wins two_proxies two_generated two_remote 0 1 alice bob
              two_proxies_step1 (le_n 1) eq_refl eq_refl eq_refl Hlast)
    as (Hlk & _ & _ & Hgroup).
  split; [exact two_proxies_step1|]. split; [reflexivity|]. split; [reflexivity|].
  split; [reflexivity|]. split; [exact Hlk|].
  refine (proj1 (Hgroup "1" one_entry "10.0.0.5" eq_refl _)).
  split; [discriminate|]. left. reflexivity.
Defined.

Lemma C3_relay_group_witness :
  proxies_loop 0 one_proxy [] ∅ = Ok (one_generated, one_remote) ∧
  reaches one_remote one_mapping [] "1" [] [] [] ∧
  dict_get "1" one_mapping = Some (VDict one_entry) ∧
  remote_field one_entry (Some "10.0.0.5") ∧
  make_group one_remote "1" (VDict one_entry) =
    Ok (VDict [("name", VStr "socks_relay_1"); ("type", VStr "relay");
               ("proxies", VList [VStr "Switch-Proxy"; VStr "socks_out_01"])]).
Proof.
  pose proof (C3_relay_group one_proxy one_generated one_remote one_mapping
                [] "1" [] [] [] one_entry (Some "10.0.0.5")
                one_proxy_step1 one_mapping_reaches eq_refl eq_refl) as [_ Hsome].
  split; [exact one_proxy_step1|]. split; [exact one_mapping_reaches|].
  split; [reflexivity|]. split; [reflexivity|].
  refine (proj1 (proj2 (Hsome "10.0.0.5" (new_listener "1" 1081) eq_refl _ _)
                   "socks_out_01" _)).
  - discriminate.
  - vm_compute. reflexivity.
  - vm_compute. reflexivity.
Defined.

Lemma tie_mapping_parses : Forall key_parses (dict_keys tie_mapping).
Proof. repeat constructor; by eexists. Defined.

Lemma C4_key_order_witness :
  Forall key_parses (dict_keys tie_mapping) ∧
  StronglySorted int_le (sorted_mapping_keys (dict_keys tie_mapping)) ∧
  filter (λ k, PyStr.int k = Some 1%Z) (sorted_mapping_keys (dict_keys tie_mapping)) =
  filter (λ k, PyStr.int k = Some 1%Z) (dict_keys tie_mapping).
Proof.
  split; [exact tie_mapping_parses|].
  pose proof (proj1 (proj2 (C4_key_order tie_mapping)) tie_mapping_parses) as [Hs Hf].
  split; [exact Hs|exact (Hf 1%Z)].
Defined.

Lemma C5_listener_witness :
  proxies_loop 0 one_proxy [] ∅ = Ok (one_generated, one_remote) ∧
  reaches one_remote one_mapping [] "1" [] [] [] ∧
  dict_get "1" one_mapping = Some (VDict one_entry) ∧
  local_field one_entry (Some "0.0.0.0:1081") ∧
  make_listener "1" (VDict one_entry) =
    Ok (VDict [("name", VStr "socks_1"); ("type", VStr "mixed");
               ("port", VInt 1081); ("proxy", VStr "socks_relay_1")]).
Proof.
  pose proof (C5_listener one_proxy one_generated one_remote one_mapping
                [] "1" [] [] [] one_entry (Some "0.0.0.0:1081")
                one_proxy_step1 one_mapping_reaches eq_refl eq_refl) as [_ Hgood].
  split; [exact one_proxy_step1|]. split; [exact one_mapping_reaches|].
  split; [reflexivity|]. split; [reflexivity|].
  refine (proj1 (Hgood "0.0.0.0:1081" 1081%Z eq_refl _ eq_refl _)).
  - discriminate.
  - vm_compute. reflexivity.
Defined.




Lemma odd_base_allocated : allocated odd_store odd_base.
Proof. repeat constructor. Defined.

Lemma C10_not_a_list_witness :
  allocated odd_store odd_base ∧
  is_list (dict_get "proxies" odd_base) = false ∧
  is_list (dict_get "proxy-groups" odd_base) = false ∧
  process_data odd_store one_mapping one_proxy odd_base = (odd_run_store, Ok odd_run_config) ∧
  ∃ gp remote gl gg,
    proxies_loop 0 one_proxy [] ∅ = Ok (gp, remote) ∧
    mapping_loop remote one_mapping (sorted_mapping_keys (dict_keys one_mapping)) [] [] =
      Ok (gl, gg) ∧
    (is_list (dict_get "proxies" odd_base) = false →
     ∃ l, dict_get "proxies" odd_run_config = Some (CList l) ∧ length odd_store ≤ l ∧
          odd_run_store !! l = Some gp ∧
          field odd_run_store odd_run_config "proxies" = Some (VList gp)) ∧
    (is_list (dict_get "proxy-groups" odd_base) = false →
     ∃ l, dict_get "proxy-groups" odd_run_config = Some (CList l) ∧
          length odd_store ≤ l ∧
          odd_run_store !! l = Some gg ∧
          field odd_run_store odd_run_config "proxy-groups" = Some (VList gg)).
Proof.
  split; [exact odd_base_allocated|]. split; [reflexivity|]. split; [reflexivity|].
  split; [exact odd_run_eq|].
  exact (proj2 (C10_not_a_list odd_store one_mapping one_proxy odd_base odd_base_allocated)
           odd_run_store odd_run_config odd_run_eq).
Defined.

(** ** The built-ins and the examples of the specification *)

Example strip_example : PyStr.strip "  1.2.3.4:80:u:p  " = "1.2.3.4:80:u:p".
Proof. reflexivity. Qed.

Example split_example : PyStr.split PyStr.colon "a::b" = ["a"; ""; "b"].
Proof. reflexivity. Qed.

Example split1_example :
  PyStr.split1 PyStr.colon "0.0.0.0:1081:x" = ("0.0.0.0", Some "1081:x").
Proof. reflexivity. Qed.

Example int_examples :
  PyStr.int " +1_000 " = Some 1000%Z ∧ PyStr.int "-07" = Some (-7)%Z ∧
  PyStr.int "1__0" = None ∧ PyStr.int "1_" = None ∧ PyStr.int "12 3" = None ∧
  PyStr.int "-" = None ∧ PyStr.int "" = None ∧ PyStr.int "notaport" = None.
Proof. repeat split; reflexivity. Qed.

Example fmt_02d_examples :
  PyStr.fmt_02d 1 = "01" ∧ PyStr.fmt_02d 10 = "10" ∧ PyStr.fmt_02d 123 = "123".
Proof. repeat split; reflexivity. Qed.

Example sorted_keys_examples :
  sorted_mapping_keys ["10"; "9"; "2"] = ["2"; "9"; "10"] ∧
  sorted_mapping_keys ["10"; "9"; "a"; "2"] = ["10"; "2"; "9"; "a"].
Proof. split; vm_compute; reflexivity. Qed.

(** A comment, an empty line, a line with two fields and a record line. *)
Example read_proxy_file_example :
  read_proxy_file
    (Text ("# upstreams" +:+ String PyStr.LF
           ("" +:+ String PyStr.CR (String PyStr.LF
           ("bad:line" +:+ String PyStr.LF " 10.0.0.5:1080:alice:secret  "))))) =
  (inl [{| ip := "10.0.0.5"; port := "1080"; user := "alice"; pass := "secret";
           line_num := 4 |}],
   [InvalidLine 3 "bad:line"]).
Proof. reflexivity. Qed.

(** The end-to-end example: one mapping entry, one proxy, the base [{}]. *)
Example end_to_end :
  snapshot one_run_store one_run_config =
  [("proxies", VList [new_proxy "socks_out_01" alice 1080]);
   ("proxy-groups", VList [new_group "1" "socks_out_01"]);
   ("listeners", VList [new_listener "1" 1081])].
Proof. reflexivity. Qed.

(** A [socks_local] of zero is turned down like a missing one, and so is a
    list without ":"; a [socks_remote] of false is taken as missing. *)
Example zero_local_aborts :
  local_field [("socks_local", VInt 0); ("socks_remote", VStr "10.0.0.5")] None ∧
  (process_data empty_store
     [("1", VDict [("socks_local", VInt 0); ("socks_remote", VStr "10.0.0.5")])]
     one_proxy empty_base).2 = Err (SocksLocalInvalid "1" (VInt 0)).
Proof. split; vm_compute; reflexivity. Qed.

Example list_local_aborts :
  local_field [("socks_local", VList [VStr "a"]); ("socks_remote", VStr "10.0.0.5")] None ∧
  (process_data empty_store
     [("1", VDict [("socks_local", VList [VStr "a"]); ("socks_remote", VStr "10.0.0.5")])]
     one_proxy empty_base).2 = Err (SocksLocalInvalid "1" (VList [VStr "a"])).
Proof. split; vm_compute; reflexivity. Qed.

Example false_remote_aborts :
  remote_field [("socks_local", VStr "0.0.0.0:1081"); ("socks_remote", VBool false)] None ∧
  (process_data empty_store
     [("1", VDict [("socks_local", VStr "0.0.0.0:1081"); ("socks_remote", VBool false)])]
     one_proxy empty_base).2 = Err (SocksRemoteMissing "1").
Proof. split; vm_compute; reflexivity. Qed.

(** A port that is not a number on line 3 aborts the merge. *)
Example bad_port_aborts :
  (process_data empty_store one_mapping three_proxies empty_base).2 =
  Err (ProxyPortInvalid 3 "notaport").
Proof. vm_compute. reflexivity. Qed.

(** An entry whose remote has no line in the proxy file aborts the merge. *)
Example unresolved_remote_aborts :
  (process_data empty_store [("5", entry "127.0.0.1:1080" "9.9.9.9")] one_proxy
     empty_base).2 =
  Err (SocksRemoteNotFound "5" (VStr "9.9.9.9")).
Proof. vm_compute. reflexivity. Qed.

(** * The merge on the graph of objects *)

Section GraphFacts.
Import Graph.

Lemma pyval_nested_ind (P : pyval → Prop) :
  P VNone → (∀ b, P (VBool b)) → (∀ z, P (VInt z)) → (∀ bits, P (VFloat bits)) →
  (∀ s, P (VStr s)) →
  (∀ xs, Forall P xs → P (VList xs)) →
  (∀ d, Forall (λ kv, P kv.2) d → P (VDict d)) →
  ∀ v, P v.
Proof.
  intros HN HB HI HF HS HL HD. fix IH 1. intros [|b|z|bits|s|xs|d].
  - exact HN.
  - apply HB.
  - apply HI.
  - apply HF.
  - apply HS.
  - apply HL. revert xs. fix IHl 1. intros [|x xs].
    + constructor.
    + constructor; [apply IH|apply IHl].
  - apply HD. revert d. fix IHd 1. intros [|[k x] d].
    + constructor.
    + constructor; [apply IH|apply IHd].
Qed.

Lemma mapM_ext_in {A B : Type} (f g : A → option B) (l : list A) :
  (∀ x, x ∈ l → f x = g x) → mapM f l = mapM g l.
Proof.
  induction l as [|x l IH]; intros H; [done|].
  change (mapM f (x :: l)) with (y ← f x; k ← mapM f l; mret (y :: k)).
  change (mapM g (x :: l)) with (y ← g x; k ← mapM g l; mret (y :: k)).
  rewrite (H x) by (by left). rewrite IH; [done|]. intros y Hy. apply H. by right.
Qed.

Lemma closed_spec (h : heap) :
  closed h = true ↔
  ∀ a o v, h !! a = Some o → v ∈ children o → valid (length h) v = true.
Proof.
  unfold closed. rewrite forallb_forall. split.
  - intros H a o v Ha Hv. specialize (H o).
    rewrite forallb_forall in H. apply H.
    + apply list_elem_of_In. by apply list_elem_of_lookup_2 in Ha.
    + by apply list_elem_of_In.
  - intros H o Ho. apply forallb_forall. intros v Hv.
    apply list_elem_of_In, list_elem_of_lookup in Ho as [a Ha].
    apply (H a o v Ha). by apply list_elem_of_In.
Qed.

Lemma view_mono (n : nat) (h : heap) :
  ∀ v pv, view n h v = Some pv → view (S n) h v = Some pv.
Proof.
  induction n as [|n IH]; intros v pv.
  { destruct v; simpl; try done. }
  destruct v as [a| | | | |]; try done.
  intros H. change (view (S n) h (DRef a)) with
    (match h !! a with
     | Some (OList xs) => VList <$> mapM (view n h) xs
     | Some (ODict d) => VDict <$> mapM (λ kv, pair kv.1 <$> view n h kv.2) d
     | None => None
     end) in H.
  change (view (S (S n)) h (DRef a)) with
    (match h !! a with
     | Some (OList xs) => VList <$> mapM (view (S n) h) xs
     | Some (ODict d) => VDict <$> mapM (λ kv, pair kv.1 <$> view (S n) h kv.2) d
     | None => None
     end).
  destruct (h !! a) as [[xs|d]|]; [| |done].
  - apply fmap_Some in H as (l & Hl & ->). apply fmap_Some. exists l. split; [|done].
    apply mapM_Some in Hl. apply mapM_Some. eapply Forall2_impl; [exact Hl|].
    intros x y. apply IH.
  - apply fmap_Some in H as (l & Hl & ->). apply fmap_Some. exists l. split; [|done].
    apply mapM_Some in Hl. apply mapM_Some. eapply Forall2_impl; [exact Hl|].
    intros x y Hx. apply fmap_Some in Hx as (z & Hz & ->).
    apply fmap_Some. exists z. split; [by apply IH|done].
Qed.

Lemma view_mono_le (n n' : nat) (h : heap) (v : dval) (pv : pyval) :
  n ≤ n' → view n h v = Some pv → view n' h v = Some pv.
Proof. induction 1 as [|m Hle IH]; [done|]. intros Hv. by apply view_mono, IH. Qed.

(** A value reads the same in two heaps that have the same objects wherever
    the value leads. *)
Lemma view_frame (n : nat) (h h' : heap) :
  ∀ v, (∀ a, reach h v a → h' !! a = h !! a) → view n h' v = view n h v.
Proof.
  induction n as [|n IH]; intros v Hsame.
  { by destruct v. }
  destruct v as [a| | | | |]; try done.
  change (match h' !! a with
          | Some (OList xs) => VList <$> mapM (view n h') xs
          | Some (ODict d) => VDict <$> mapM (λ kv, pair kv.1 <$> view n h' kv.2) d
          | None => None
          end =
          match h !! a with
          | Some (OList xs) => VList <$> mapM (view n h) xs
          | Some (ODict d) => VDict <$> mapM (λ kv, pair kv.1 <$> view n h kv.2) d
          | None => None
          end).
  rewrite (Hsame a) by constructor.
  destruct (h !! a) as [[xs|d]|] eqn:Ha; [| |done].
  - f_equal. apply mapM_ext_in. intros x Hx. apply IH. intros b Hb.
    apply Hsame. by eapply reach_step.
  - f_equal. apply mapM_ext_in. intros [k x] Hx. simpl. f_equal. apply IH. intros b Hb.
    apply Hsame. eapply reach_step; [done| |done]. simpl.
    apply list_elem_of_fmap. by exists (k, x).
Qed.

Lemma reach_valid (h : heap) (v : dval) (a : loc) :
  closed h = true → valid (length h) v = true → reach h v a → a < length h.
Proof.
  intros Hc Hv Hr. induction Hr as [a|a o v b Ha Hin _ IH].
  - simpl in Hv. by apply Nat.ltb_lt in Hv.
  - apply IH. by apply (proj1 (closed_spec h) Hc a o v).
Qed.

(** Values that read each have a reading at one depth. *)
Lemma denotes_all (h : heap) (ds : list dval) (vs : list pyval) :
  Forall2 (denotes h) ds vs → ∃ n, mapM (view n h) ds = Some vs.
Proof.
  induction 1 as [|d v ds vs [n Hn] _ [n' IH]].
  { by exists 0. }
  exists (n `max` n'). apply mapM_Some. constructor.
  - apply (view_mono_le n); [lia|done].
  - apply mapM_Some in IH. eapply Forall2_impl; [exact IH|].
    intros x y. apply view_mono_le. lia.
Qed.

Lemma denotes_items (h : heap) (ds : list (string * dval)) (kvs : list (string * pyval)) :
  Forall2 (λ kd kv, kd.1 = kv.1 ∧ denotes h kd.2 kv.2) ds kvs →
  ∃ n, mapM (λ kd, pair kd.1 <$> view n h kd.2) ds = Some kvs.
Proof.
  induction 1 as [|[k d] [k' v] ds kvs [Hk [n Hn]] _ [n' IH]].
  { by exists 0. }
  simpl in Hk, Hn. subst k'.
  exists (n `max` n'). apply mapM_Some. constructor.
  - simpl. rewrite (view_mono_le n (n `max` n') h d v); [done|lia|done].
  - apply mapM_Some in IH. eapply Forall2_impl; [exact IH|].
    intros [k1 x] y Hx. simpl in *. apply fmap_Some in Hx as (z & Hz & ->).
    rewrite (view_mono_le n' (n `max` n') h x z); [done|lia|done].
Qed.


(** *** Values the program builds *)

Lemma build_all_from (xs : list pyval) :
  Forall (λ v, ∀ h d h1, build v h = (d, h1) →
               (∃ new, h1 = h ++ new) ∧
               ∀ h2, (∀ a, length h ≤ a < length h1 → h2 !! a = h1 !! a) →
                     denotes h2 d v) xs →
  ∀ h ds h1, build_all build xs h = (ds, h1) →
    (∃ new, h1 = h ++ new) ∧
    ∀ h2, (∀ a, length h ≤ a < length h1 → h2 !! a = h1 !! a) →
          Forall2 (denotes h2) ds xs.
Proof.
  induction 1 as [|x xs Hx _ IH]; intros h ds h1; simpl.
  { intros [= <- <-]. split; [exists []; by rewrite app_nil_r|]. constructor. }
  destruct (build x h) as [d hm] eqn:E1.
  destruct (build_all build xs hm) as [ds' h1'] eqn:E2. intros [= <- <-].
  destruct (Hx _ _ _ E1) as [[new1 ->] Hd]. destruct (IH _ _ _ E2) as [[new2 ->] Hds].
  split; [exists (new1 ++ new2); by rewrite app_assoc|].
  intros h2 Hag. constructor.
  - apply Hd. intros a Ha. rewrite Hag by (rewrite ?length_app in *; lia).
    by rewrite lookup_app_l by lia.
  - apply Hds. intros a Ha. apply Hag. rewrite ?length_app in *. lia.
Qed.

Lemma build_items_from (kvs : list (string * pyval)) :
  Forall (λ kv, ∀ h d h1, build kv.2 h = (d, h1) →
                (∃ new, h1 = h ++ new) ∧
                ∀ h2, (∀ a, length h ≤ a < length h1 → h2 !! a = h1 !! a) →
                      denotes h2 d kv.2) kvs →
  ∀ h ds h1, build_items build kvs h = (ds, h1) →
    (∃ new, h1 = h ++ new) ∧
    ∀ h2, (∀ a, length h ≤ a < length h1 → h2 !! a = h1 !! a) →
          Forall2 (λ kd kv, kd.1 = kv.1 ∧ denotes h2 kd.2 kv.2) ds kvs.
Proof.
  induction 1 as [|[k x] kvs Hx _ IH]; intros h ds h1; simpl.
  { intros [= <- <-]. split; [exists []; by rewrite app_nil_r|]. constructor. }
  destruct (build x h) as [d hm] eqn:E1.
  destruct (build_items build kvs hm) as [ds' h1'] eqn:E2. intros [= <- <-].
  destruct (Hx _ _ _ E1) as [[new1 ->] Hd]. destruct (IH _ _ _ E2) as [[new2 ->] Hds].
  split; [exists (new1 ++ new2); by rewrite app_assoc|].
  intros h2 Hag. constructor.
  - split; [done|]. simpl. apply Hd. intros a Ha.
    rewrite Hag by (rewrite ?length_app in *; lia). by rewrite lookup_app_l by lia.
  - apply Hds. intros a Ha. apply Hag. rewrite ?length_app in *. lia.
Qed.

(** A value the program builds is made of new objects only, and reads as
    built in every heap that has these objects. *)
Lemma build_spec (v : pyval) :
  ∀ h d h1, build v h = (d, h1) →
    (∃ new, h1 = h ++ new) ∧
    ∀ h2, (∀ a, length h ≤ a < length h1 → h2 !! a = h1 !! a) → denotes h2 d v.
Proof.
  induction v as [|b|z|bits|s|xs IH|kvs IH] using pyval_nested_ind; intros h d h1; simpl.
  1-5: intros [= <- <-]; (split; [exists []; by rewrite app_nil_r|]); intros h2 _;
       by exists 0.
  - destruct (build_all build xs h) as [ds hm] eqn:E. intros [= <- <-].
    destruct (build_all_from xs IH _ _ _ E) as [[new ->] Hds].
    split; [exists (new ++ [OList ds]); by rewrite app_assoc|].
    intros h2 Hag.
    destruct (denotes_all h2 ds xs) as [n Hn].
    { apply Hds. intros a Ha. rewrite Hag by (rewrite ?length_app in *; simpl; lia).
      by rewrite lookup_app_l by lia. }
    exists (S n). simpl.
    rewrite Hag by (rewrite ?length_app; simpl; lia).
    rewrite lookup_app_r, Nat.sub_diag by lia. simpl. by rewrite Hn.
  - destruct (build_items build kvs h) as [ds hm] eqn:E. intros [= <- <-].
    destruct (build_items_from kvs IH _ _ _ E) as [[new ->] Hds].
    split; [exists (new ++ [ODict ds]); by rewrite app_assoc|].
    intros h2 Hag.
    destruct (denotes_items h2 ds kvs) as [n Hn].
    { apply Hds. intros a Ha. rewrite Hag by (rewrite ?length_app in *; simpl; lia).
      by rewrite lookup_app_l by lia. }
    exists (S n). simpl.
    rewrite Hag by (rewrite ?length_app; simpl; lia).
    rewrite lookup_app_r, Nat.sub_diag by lia. simpl. by rewrite Hn.
Qed.

Lemma build_all_spec (xs : list pyval) (h : heap) (ds : list dval) (h1 : heap) :
  build_all build xs h = (ds, h1) →
  (∃ new, h1 = h ++ new) ∧
  ∀ h2, (∀ a, length h ≤ a < length h1 → h2 !! a = h1 !! a) →
        Forall2 (denotes h2) ds xs.
Proof.
  apply build_all_from, Forall_forall. intros v _. apply build_spec.
Qed.


(** *** The operations on objects *)

Lemma lookup_set_item_eq (f : loc) (k : string) (v : dval) (h : heap)
    (c : list (string * dval)) :
  h !! f = Some (ODict c) → set_item f k v h !! f = Some (ODict (dict_set k v c)).
Proof. intros H. unfold set_item. by rewrite list_lookup_alter, decide_True, H by done. Qed.

Lemma lookup_set_item_ne (f a : loc) (k : string) (v : dval) (h : heap) :
  a ≠ f → set_item f k v h !! a = h !! a.
Proof. intros H. unfold set_item. by rewrite list_lookup_alter_ne by done. Qed.

Lemma lookup_extend_eq (l : loc) (ds old : list dval) (h : heap) :
  h !! l = Some (OList old) → extend l ds h !! l = Some (OList (old ++ ds)).
Proof. intros H. unfold extend. by rewrite list_lookup_alter, decide_True, H by done. Qed.

Lemma lookup_extend_ne (l a : loc) (ds : list dval) (h : heap) :
  a ≠ l → extend l ds h !! a = h !! a.
Proof. intros H. unfold extend. by rewrite list_lookup_alter_ne by done. Qed.

Lemma length_set_item (f : loc) (k : string) (v : dval) (h : heap) :
  length (set_item f k v h) = length h.
Proof. apply length_alter. Qed.

Lemma length_extend (l : loc) (ds : list dval) (h : heap) :
  length (extend l ds h) = length h.
Proof. apply length_alter. Qed.

(** Lines 135-138 and 219-222 on the dictionary [c] at [f]: the list [l]
    the field holds afterwards, what it held before, the objects touched,
    and the reading of the entries added. *)
Lemma append_field_ok (k : string) (xs : list pyval) (f : loc) (h : heap)
    (c : list (string * dval)) :
  h !! f = Some (ODict c) →
  ∃ l old ds lo,
    ((dict_get k c = Some (DRef l) ∧ h !! l = Some (OList old) ∧ lo = length h) ∨
     (is_list h (dict_get k c) = false ∧ l = length h ∧ old = [] ∧
      lo = S (length h))) ∧
    append_field k xs f h !! f = Some (ODict (dict_set k (DRef l) c)) ∧
    append_field k xs f h !! l = Some (OList (old ++ ds)) ∧
    l ≠ f ∧ l < lo ∧ length h ≤ lo ∧ lo ≤ length (append_field k xs f h) ∧
    (∀ a, a < length h → a ≠ l → a ≠ f → append_field k xs f h !! a = h !! a) ∧
    (∀ h2, (∀ a, lo ≤ a < length (append_field k xs f h) →
                 h2 !! a = append_field k xs f h !! a) →
           Forall2 (denotes h2) ds xs).
Proof.
  intros Hf. pose proof (lookup_lt_Some _ _ _ Hf) as Hflt.
  unfold append_field, ensure_list, item. rewrite Hf. simpl.
  destruct (is_list h (dict_get k c)) eqn:Eis.
  - unfold is_list in Eis.
    destruct (dict_get k c) as [[l| | | | |]|] eqn:Ek; try done.
    destruct (h !! l) as [[old|]|] eqn:El; try done.
    unfold extend_field, item. rewrite Hf. simpl. rewrite Ek.
    destruct (build_all build xs h) as [ds hb] eqn:Eb.
    destruct (build_all_spec _ _ _ _ Eb) as [[new ->] Hds].
    assert (l ≠ f) as Hlf by (intros ->; congruence).
    pose proof (lookup_lt_Some _ _ _ El) as Hllt.
    exists l, old, ds, (length h). split; [left; done|].
    split.
    { rewrite lookup_extend_ne, lookup_app_l by done.
      by rewrite (dict_set_id _ _ _ Ek). }
    split.
    { apply lookup_extend_eq. by rewrite lookup_app_l. }
    split; [done|]. split; [done|]. split; [done|].
    split; [rewrite length_extend, length_app; lia|].
    split.
    { intros a Ha Hal _. by rewrite lookup_extend_ne, lookup_app_l. }
    intros h2 Hag. apply Hds. intros a Ha.
    rewrite Hag by (rewrite length_extend; lia).
    apply lookup_extend_ne. lia.
  - unfold alloc.
    set (he := set_item f k (DRef (length h)) (h ++ [OList []])).
    assert (he !! f = Some (ODict (dict_set k (DRef (length h)) c))) as Hef.
    { apply lookup_set_item_eq. by rewrite lookup_app_l. }
    assert (length he = S (length h)) as Hlen.
    { unfold he. rewrite length_set_item, length_app. simpl. lia. }
    assert (he !! length h = Some (OList [])) as Hel.
    { unfold he. rewrite lookup_set_item_ne by lia. apply lookup_snoc. }
    unfold extend_field, item. rewrite Hef. simpl. rewrite dict_get_set_eq.
    destruct (build_all build xs he) as [ds hb] eqn:Eb.
    destruct (build_all_spec _ _ _ _ Eb) as [[new ->] Hds].
    exists (length h), [], ds, (S (length h)). split; [right; done|].
    split.
    { rewrite lookup_extend_ne, lookup_app_l by lia. done. }
    split.
    { apply lookup_extend_eq. by rewrite lookup_app_l by lia. }
    split; [lia|]. split; [lia|]. split; [lia|].
    split; [rewrite length_extend, length_app; lia|].
    split.
    { intros a Ha Hal Haf. rewrite lookup_extend_ne, lookup_app_l by lia.
      unfold he. rewrite lookup_set_item_ne by done. by rewrite lookup_app_l. }
    intros h2 Hag. apply Hds. intros a Ha.
    rewrite Hag by (rewrite length_extend; lia).
    apply lookup_extend_ne. lia.
Qed.


Lemma dict_get_children (k : string) (d : list (string * dval)) (v : dval) :
  dict_get k d = Some v → v ∈ children (ODict d).
Proof.
  simpl. induction d as [|[k0 v0] d IH]; simpl; [done|].
  destruct (String.eqb k0 k).
  - intros [= ->]. by left.
  - intros H. right. by apply IH.
Qed.

Lemma list_at_Some (h : heap) (d : list (string * dval)) (k : string) (a : loc)
    (xs : list dval) :
  dict_get k d = Some (DRef a) → h !! a = Some (OList xs) →
  list_at h d k = Some a ∧ elements h d k = xs.
Proof. intros Hk Ha. unfold elements, list_at. by rewrite Hk, Ha, Ha. Qed.

Lemma list_at_None (h : heap) (d : list (string * dval)) (k : string) :
  is_list h (dict_get k d) = false → list_at h d k = None ∧ elements h d k = [].
Proof.
  unfold elements, list_at, is_list.
  destruct (dict_get k d) as [[a| | | | |]|]; try done.
  by destruct (h !! a) as [[xs|c]|].
Qed.

(** What a merge that ends well has done to the objects. *)
Lemma graph_process_data_ok (h h' : heap) (m : list (string * pyval))
    (pl : list ProxyRecord) (base final : loc) (d : list (string * dval)) :
  closed h = true →
  h !! base = Some (ODict d) →
  process_data h m pl base = (h', Ok final) →
  ∃ gp remote gl gg P G ls dsP dsL dsG,
    proxies_loop 0 pl [] ∅ = Ok (gp, remote) ∧
    mapping_loop remote m (sorted_mapping_keys (dict_keys m)) [] [] = Ok (gl, gg) ∧
    final = length h ∧
    h' !! final =
      Some (ODict (dict_set "proxy-groups" (DRef G)
                     (dict_set "listeners" (DRef ls)
                        (dict_set "proxies" (DRef P) d)))) ∧
    (list_at h d "proxies" = Some P ∨
     (list_at h d "proxies" = None ∧ length h < P)) ∧
    (list_at h d "proxy-groups" = Some G ∨
     (list_at h d "proxy-groups" = None ∧ length h < G ∧ G ≠ P)) ∧
    length h < ls ∧ ls ≠ P ∧ ls ≠ G ∧
    h' !! ls = Some (OList dsL) ∧
    h' !! P = Some (OList (elements h d "proxies" ++ dsP ++
                           (if decide (G = P) then dsG else []))) ∧
    h' !! G = Some (OList (elements h d "proxy-groups" ++
                           (if decide (G = P) then dsP else []) ++ dsG)) ∧
    Forall2 (denotes h') dsP gp ∧ Forall2 (denotes h') dsL gl ∧
    Forall2 (denotes h') dsG gg ∧
    (∀ a, a < length h → a ≠ P → a ≠ G → h' !! a = h !! a).
Proof.
  intros Hc Hb Hrun. unfold process_data in Hrun. rewrite Hb in Hrun.
  unfold alloc in Hrun.
  destruct (proxies_loop 0 pl [] ∅) as [[gp remote]| |] eqn:H1; try done.
  set (f := length h) in *. set (h1 := h ++ [ODict d]) in *.
  assert (h1 !! f = Some (ODict d)) as Hf1 by apply lookup_snoc.
  assert (length h1 = S f) as Hlen1 by (unfold h1; rewrite length_app; simpl; lia).
  destruct (append_field_ok "proxies" gp f h1 d Hf1)
    as (P & oldP & dsP & lo2 & HcaseP & Hr2f & Hr2P & HPf & HPlo & Hlo2 & Hlo2' & Hfr2 & HdP).
  set (r2 := append_field "proxies" gp f h1) in *.
  destruct (mapping_loop remote m _ [] []) as [[gl gg]| |] eqn:H2; try done.
  destruct (build_all build gl r2) as [dsL r3] eqn:EL.
  destruct (build_all_spec _ _ _ _ EL) as [[newL Er3] HdL].
  set (ls := length r3) in *. set (r4 := r3 ++ [OList dsL]) in *.
  set (r5 := set_item f "listeners" (DRef ls) r4) in *.
  set (c5 := dict_set "listeners" (DRef ls) (dict_set "proxies" (DRef P) d)).
  assert (length r3 = length r2 + length newL) as Hlen3 by (rewrite Er3, length_app; lia).
  assert (length r4 = S ls) as Hlen4 by (unfold r4; rewrite length_app; simpl; lia).
  assert (length r5 = S ls) as Hlen5 by (unfold r5; by rewrite length_set_item).
  assert (∀ a, a < length r2 → a ≠ f → r5 !! a = r2 !! a) as Hr5.
  { intros a Ha Haf. unfold r5. rewrite lookup_set_item_ne by done.
    unfold r4. rewrite lookup_app_l by lia. rewrite Er3. by rewrite lookup_app_l. }
  assert (r5 !! f = Some (ODict c5)) as Hr5f.
  { unfold r5. apply lookup_set_item_eq. unfold r4. rewrite lookup_app_l by lia.
    rewrite Er3, lookup_app_l by lia. done. }
  assert (r5 !! ls = Some (OList dsL)) as Hr5l.
  { unfold r5. rewrite lookup_set_item_ne by lia. apply lookup_snoc. }
  destruct (append_field_ok "proxy-groups" gg f r5 c5 Hr5f)
    as (G & oldG & dsG & lo6 & HcaseG & Hhf & HhG & HGf & HGlo & Hlo6 & Hlo6' & Hfr6 & HdG).
  injection Hrun as <- <-.
  set (h' := append_field "proxy-groups" gg f r5) in *.
  (* the list of proxies *)
  assert ((list_at h d "proxies" = Some P ∧ elements h d "proxies" = oldP ∧ P < f) ∨
          (list_at h d "proxies" = None ∧ elements h d "proxies" = oldP ∧ P = S f))
    as HP.
  { destruct HcaseP as [(Hk & HlP & ->)|(Hno & -> & -> & ->)].
    - left. pose proof (lookup_lt_Some _ _ _ HlP) as HPlt.
      assert (P < f) as HPf' by lia.
      unfold h1 in HlP. rewrite lookup_app_l in HlP by done.
      destruct (list_at_Some h d "proxies" P oldP Hk HlP). done.
    - right. destruct (list_at_None h d "proxies") as [? ?]; [|done].
      unfold is_list in *. destruct (dict_get "proxies" d) as [[a| | | | |]|]; try done.
      destruct (h !! a) as [[xs|c]|] eqn:Ha; try done.
      unfold h1 in Hno. rewrite lookup_app_l, Ha in Hno; [done|].
      by apply lookup_lt_Some in Ha. }
  assert (dict_get "proxy-groups" c5 = dict_get "proxy-groups" d) as Hc5.
  { unfold c5. by rewrite !dict_get_set_ne by done. }
  assert (P < length r2) as HPr2 by lia.
  (* the list of groups *)
  assert ((list_at h d "proxy-groups" = Some G ∧ G < f ∧
           ((G = P ∧ oldG = oldP ++ dsP ∧ elements h d "proxy-groups" = oldP) ∨
            (G ≠ P ∧ elements h d "proxy-groups" = oldG))) ∨
          (list_at h d "proxy-groups" = None ∧ elements h d "proxy-groups" = oldG ∧
           G = S ls ∧ oldG = []))
    as HG.
  { destruct HcaseG as [(Hk & HlG & ->)|(Hno & -> & -> & ->)].
    - left. rewrite Hc5 in Hk.
      assert (G < f) as HGlt.
      { pose proof (proj1 (closed_spec h) Hc base (ODict d) (DRef G) Hb
                      (dict_get_children _ _ _ Hk)) as Hv.
        simpl in Hv. by apply Nat.ltb_lt in Hv. }
      rewrite Hr5 in HlG by lia.
      destruct (decide (G = P)) as [->|Hne].
      + rewrite Hr2P in HlG. injection HlG as <-.
        destruct HP as [(HPl & HPe & _)|(_ & _ & ->)]; [|lia].
        assert (h !! P = Some (OList oldP)) as HhP.
        { unfold elements in HPe. rewrite HPl in HPe.
          unfold list_at in HPl. destruct (dict_get "proxies" d) as [[a| | | | |]|]; try done.
          destruct (h !! a) as [[xs|c]|] eqn:Ha; try done. injection HPl as ->.
          rewrite Ha in HPe. by subst. }
        destruct (list_at_Some h d "proxy-groups" P oldP Hk HhP).
        split; [done|]. split; [done|]. left. done.
      + rewrite Hfr2 in HlG by (done || lia).
        unfold h1 in HlG. rewrite lookup_app_l in HlG by done.
        destruct (list_at_Some h d "proxy-groups" G oldG Hk HlG).
        split; [done|]. split; [done|]. by right.
    - right. rewrite Hc5 in Hno.
      destruct (list_at_None h d "proxy-groups") as [? ?]; [|by rewrite Hlen5].
      unfold is_list in *.
      destruct (dict_get "proxy-groups" d) as [[a| | | | |]|] eqn:Hk; try done.
      destruct (h !! a) as [[xs|c]|] eqn:Ha; try done.
      pose proof (lookup_lt_Some _ _ _ Ha) as Halt.
      rewrite Hr5 in Hno by (fold f in Halt; lia).
      destruct (decide (a = P)) as [->|Hne].
      + by rewrite Hr2P in Hno.
      + rewrite Hfr2 in Hno by (fold f in Halt; (done || lia)).
        unfold h1 in Hno. by rewrite lookup_app_l, Ha in Hno. }
  assert (G ≠ ls ∧ (G < f ∨ G = S ls)) as [HGls HGrange].
  { destruct HG as [(_ & ? & _)|(_ & _ & -> & _)]; split; lia. }
  assert (f < ls) as Hfls by (unfold ls; lia).
  assert (∀ a, a < S ls → a ≠ G → a ≠ f → h' !! a = r5 !! a) as Hh'.
  { intros a Ha HaG Haf. apply Hfr6; [lia|done|done]. }
  exists gp, remote, gl, gg, P, G, ls, dsP, dsL, dsG.
  split; [done|]. split; [done|]. split; [done|]. split; [done|].
  split.
  { destruct HP as [(? & _)|(? & _ & ->)]; [by left|right; split; [done|lia]]. }
  split.
  { destruct HG as [(? & _)|(? & _ & -> & _)]; [by left|right].
    split; [done|]. split; lia. }
  split; [done|]. split; [lia|]. split; [lia|].
  split.
  { rewrite Hh' by lia. done. }
  assert (elements h d "proxies" = oldP) as EP by (by destruct HP as [(_ & ? & _)|(_ & ? & _)]).
  split.
  { destruct (decide (G = P)) as [->|Hne].
    - rewrite HhG. destruct HG as [(_ & _ & [(_ & -> & _)|[? _]])|(_ & _ & ? & _)];
        [|done|lia]. by rewrite EP, app_assoc.
    - rewrite Hh', Hr5, Hr2P by (done || lia). by rewrite EP, app_nil_r. }
  split.
  { rewrite HhG. destruct (decide (G = P)) as [->|Hne].
    - destruct HG as [(_ & _ & [(_ & -> & ->)|[? _]])|(_ & _ & ? & _)]; [|done|lia].
      by rewrite app_assoc.
    - destruct HG as [(_ & _ & [(? & _)|(_ & ->)])|(_ & -> & _ & ->)]; done. }
  split.
  { apply HdP. intros a Ha. rewrite Hh', Hr5; [done|lia|lia|lia|lia|lia]. }
  split.
  { apply HdL. intros a Ha. rewrite Hh' by lia.
    unfold r5. rewrite lookup_set_item_ne by lia. unfold r4. by rewrite lookup_app_l by lia. }
  split.
  { apply HdG. done. }
  intros a Ha HaP HaG. rewrite Hh', Hr5, Hfr2 by (done || lia).
  unfold h1. by rewrite lookup_app_l.
Qed.


Lemma elements_valid (h : heap) (d : list (string * dval)) (k : string) (x : dval) :
  closed h = true → x ∈ elements h d k → valid (length h) x = true.
Proof.
  intros Hc. unfold elements. destruct (list_at h d k) as [a|]; [|by intros ?%elem_of_nil].
  destruct (h !! a) as [[xs|c]|] eqn:Ha; try by intros ?%elem_of_nil.
  intros Hx. by apply (proj1 (closed_spec h) Hc a (OList xs) x).
Qed.

(** A value of the heap before the call from which neither of the lists the
    merge extends can be reached reads after the call as it did before. *)
Lemma apart_kept (h h' : heap) (d : list (string * dval)) (P G : loc) (v : dval) :
  closed h = true → valid (length h) v = true → apart h d v →
  (list_at h d "proxies" = Some P ∨ length h < P) →
  (list_at h d "proxy-groups" = Some G ∨ length h < G) →
  (∀ a, a < length h → a ≠ P → a ≠ G → h' !! a = h !! a) →
  ∀ n, view n h' v = view n h v.
Proof.
  intros Hc Hv Hap HP HG Hframe n. apply view_frame. intros a Ha.
  pose proof (reach_valid h v a Hc Hv Ha) as Hlt.
  destruct (Hap a Ha) as [HnP HnG].
  apply Hframe; [done| |].
  - intros ->. destruct HP as [HP|HP]; [done|lia].
  - intros ->. destruct HG as [HG|HG]; [done|lia].
Qed.


Lemma denotes_unique (h : heap) (v : dval) (a b : pyval) :
  denotes h v a → denotes h v b → a = b.
Proof.
  intros [n Hn] [n' Hn'].
  apply (view_mono_le n (n `max` n')) in Hn; [|lia].
  apply (view_mono_le n' (n `max` n')) in Hn'; [|lia]. congruence.
Qed.

(** From a value of a set of addresses that holds the addresses its objects
    hold, only the set is reached. *)
Lemma reach_within (h : heap) (s : list loc) (v : dval) (a : loc) :
  holds_children h s = true → (∀ b, v = DRef b → b ∈ s) → reach h v a → a ∈ s.
Proof.
  intros Hs Hv Hr. induction Hr as [a|a o v b Ha Hin _ IH]; [by apply Hv|].
  apply IH. intros c ->.
  unfold holds_children in Hs. rewrite forallb_forall in Hs.
  specialize (Hs a). rewrite Ha in Hs. simpl in Hs.
  rewrite forallb_forall in Hs.
  assert (a ∈ s) as Has by (by apply Hv).
  specialize (Hs (proj1 (list_elem_of_In _ _) Has) (DRef c)
                 (proj1 (list_elem_of_In _ _) Hin)).
  by apply bool_decide_eq_true in Hs.
Qed.

End GraphFacts.

(** The merge on the graph ends as the merge on the store does. *)
Lemma graph_same_ending (h : list Graph.obj) (m : list (string * pyval))
    (pl : list ProxyRecord) (base : loc) (d : list (string * Graph.dval))
    (st : store) (cfg : config) :
  h !! base = Some (Graph.ODict d) →
  match (Graph.process_data h m pl base).2, (process_data st m pl cfg).2 with
  | Ok _, Ok _ => True
  | Err e1, Err e2 => e1 = e2
  | Raise x1, Raise x2 => x1 = x2
  | _, _ => False
  end.
Proof.
  intros Hb. unfold Graph.process_data, process_data. rewrite Hb. unfold Graph.alloc.
  destruct (proxies_loop 0 pl [] ∅) as [[gp remote]| |]; simpl; try done.
  destruct (append_field "proxies" gp st (dict_copy cfg)) as [st1 c1].
  destruct (mapping_loop remote m _ [] []) as [[gl gg]| |]; simpl; try done.
  destruct (Graph.build_all Graph.build gl _) as [ds h3]. unfold alloc.
  by destruct (append_field "proxy-groups" gg _ _).
Qed.

(** C6, as the code has it.  The base configuration is the dictionary [d] at
    the address [base] of a heap whose addresses all lead to objects.  After
    a successful merge, when its [proxies] and its [proxy-groups] are not one
    and the same list object, and neither list can be reached from an element
    of one of the two: the [listeners] of the result are exactly the
    generated listeners, its [proxies] are the base's followed by the
    generated proxies, its [proxy-groups] are the base's followed by the
    generated groups, and every other field holds what it held in the base,
    which reads as it did before the call when neither list can be reached
    from it. *)
Theorem C6_sections_and_frame (h h' : list Graph.obj) (m : list (string * pyval))
    (pl : list ProxyRecord) (base final : loc) (d : list (string * Graph.dval)) :
  Graph.closed h = true →
  h !! base = Some (Graph.ODict d) →
  (∀ a, Graph.list_at h d "proxies" = Some a →
        Graph.list_at h d "proxy-groups" ≠ Some a) →
  (∀ x, x ∈ Graph.elements h d "proxies" ∨ x ∈ Graph.elements h d "proxy-groups" →
        Graph.apart h d x) →
  Graph.process_data h m pl base = (h', Ok final) →
  ∃ gp remote gl gg,
    proxies_loop 0 pl [] ∅ = Ok (gp, remote) ∧
    mapping_loop remote m (sorted_mapping_keys (dict_keys m)) [] [] = Ok (gl, gg) ∧
    Graph.field_is h' final "listeners" (VList gl) ∧
    (∀ vs, Graph.elements_are h d "proxies" vs →
           Graph.field_is h' final "proxies" (VList (vs ++ gp))) ∧
    (∀ vs, Graph.elements_are h d "proxy-groups" vs →
           Graph.field_is h' final "proxy-groups" (VList (vs ++ gg))) ∧
    ∀ k, k ≠ "proxies" → k ≠ "listeners" → k ≠ "proxy-groups" →
      Graph.item h' final k = dict_get k d ∧
      ∀ v, dict_get k d = Some v → Graph.apart h d v →
           ∀ n, Graph.view n h' v = Graph.view n h v.
Proof.
  intros Hc Hb Hdist Helems Hrun.
  destruct (graph_process_data_ok h h' m pl base final d Hc Hb Hrun)
    as (gp & remote & gl & gg & P & G & ls & dsP & dsL & dsG & H1 & H2 & -> & Hf &
        HP & HG & Hls & HlsP & HlsG & Hl & HhP & HhG & HdP & HdL & HdG & Hframe).
  assert (G ≠ P) as Hne.
  { intros ->. destruct HP as [HP|[_ HP]], HG as [HG|(_ & HG & ?)]; try done.
    - by apply (Hdist P).
    - unfold Graph.list_at in HG.
      destruct (dict_get "proxy-groups" d) as [[a| | | | |]|]; try done.
      destruct (h !! a) as [[xs|c]|] eqn:Ha; try done. injection HG as ->.
      apply lookup_lt_Some in Ha. lia. }
  rewrite decide_False in HhP, HhG by done. rewrite app_nil_r in HhP. simpl in HhG.
  assert (Graph.list_at h d "proxies" = Some P ∨ length h < P) as HP'
    by (destruct HP as [?|[_ ?]]; auto).
  assert (Graph.list_at h d "proxy-groups" = Some G ∨ length h < G) as HG'
    by (destruct HG as [?|(_ & ? & _)]; auto).
  assert (∀ k xs vs new news,
            (k = "proxies" ∨ k = "proxy-groups") →
            Graph.elements h d k = xs → Forall2 (Graph.denotes h) xs vs →
            Forall2 (Graph.denotes h') new news →
            ∃ n, mapM (Graph.view n h') (xs ++ new) = Some (vs ++ news)) as Hread.
  { intros k xs vs new news Hk Hxs Hvs Hnew. apply denotes_all, Forall2_app; [|done].
    assert (∀ x, x ∈ xs → Graph.valid (length h) x = true ∧ Graph.apart h d x) as Hx.
    { intros x Hx. rewrite <- Hxs in Hx. split; [by apply (elements_valid h d k)|].
      apply Helems. destruct Hk as [-> | ->]; auto. }
    clear Hxs. induction Hvs as [|x v xs vs [n Hn] _ IH]; constructor.
    - destruct (Hx x) as [Hv Hap]; [by left|]. exists n.
      by rewrite (apart_kept h h' d P G x Hc Hv Hap HP' HG' Hframe).
    - apply IH. intros y Hy. apply Hx. by right. }
  unfold Graph.field_is, Graph.item. rewrite Hf. simpl.
  exists gp, remote, gl, gg. split; [done|]. split; [done|].
  split.
  { exists (Graph.DRef ls). split.
    - by rewrite dict_get_set_ne, dict_get_set_eq by done.
    - destruct (denotes_all h' dsL gl HdL) as [n Hn]. exists (S n). simpl.
      by rewrite Hl; simpl; rewrite Hn. }
  split.
  { intros vs Hvs. exists (Graph.DRef P). split.
    - by rewrite !dict_get_set_ne, dict_get_set_eq by done.
    - destruct (Hread "proxies" _ vs dsP gp (or_introl eq_refl) eq_refl Hvs HdP) as [n Hn].
      exists (S n). simpl. by rewrite HhP; simpl; rewrite Hn. }
  split.
  { intros vs Hvs. exists (Graph.DRef G). split.
    - by rewrite dict_get_set_eq.
    - destruct (Hread "proxy-groups" _ vs dsG gg (or_intror eq_refl) eq_refl Hvs HdG)
        as [n Hn].
      exists (S n). simpl. by rewrite HhG; simpl; rewrite Hn. }
  intros k Hk1 Hk2 Hk3. split.
  { by rewrite !dict_get_set_ne by done. }
  intros v Hv Hap. apply (apart_kept h h' d P G v Hc); [|done..].
  apply (proj1 (closed_spec h) Hc base (Graph.ODict d) v Hb).
  by apply (dict_get_children k).
Qed.

(** C6 as stated fails on a base configuration whose [proxies] and
    [proxy-groups] are one list object, as the YAML document
    [proxies: &a []] / [proxy-groups: *a] makes them: the [proxies] of the
    result are the generated proxy followed by the generated group, not the
    base's proxies followed by the generated proxies alone. *)
Lemma C6_one_list_two_fields :
  Graph.closed shared_heap = true ∧
  shared_heap !! 0%nat = Some (Graph.ODict shared_items) ∧
  Graph.elements_are shared_heap shared_items "proxies" [] ∧
  Graph.process_data shared_heap one_mapping one_proxy 0 = (shared_run_heap, Ok 3%nat) ∧
  proxies_loop 0 one_proxy [] ∅ =
    Ok ([new_proxy "socks_out_01" alice 1080], {["10.0.0.5" := "socks_out_01"]}) ∧
  Graph.field_is shared_run_heap 3 "proxies"
    (VList [new_proxy "socks_out_01" alice 1080; new_group "1" "socks_out_01"]) ∧
  ¬ Graph.field_is shared_run_heap 3 "proxies"
      (VList ([] ++ [new_proxy "socks_out_01" alice 1080])).
Proof.
  assert (Graph.field_is shared_run_heap 3 "proxies"
            (VList [new_proxy "socks_out_01" alice 1080; new_group "1" "socks_out_01"]))
    as Hfield.
  { exists (Graph.DRef 1). split; [reflexivity|]. exists 3%nat. vm_compute. reflexivity. }
  split; [reflexivity|]. split; [reflexivity|]. split; [constructor|].
  split; [vm_compute; reflexivity|]. split; [vm_compute; reflexivity|].
  split; [exact Hfield|].
  intros (v & Hv & Hden). destruct Hfield as (v' & Hv' & Hden').
  assert (v' = v) as -> by congruence.
  pose proof (denotes_unique _ _ _ _ Hden Hden'). discriminate.
Qed.

(** The same on the document [backup: {saved: *a}], where [*a] is the list
    of the proxies: the two lists are different objects with no elements, and
    the field [backup], which the merge does not touch, reads after the call
    with the generated proxy in it. *)
Lemma nested_alias_extended :
  Graph.closed nested_heap = true ∧
  nested_heap !! 0%nat = Some (Graph.ODict nested_items) ∧
  Graph.list_at nested_heap nested_items "proxies" = Some 1%nat ∧
  Graph.list_at nested_heap nested_items "proxy-groups" = Some 2%nat ∧
  Graph.elements nested_heap nested_items "proxies" = [] ∧
  Graph.elements nested_heap nested_items "proxy-groups" = [] ∧
  Graph.process_data nested_heap one_mapping one_proxy 0 = (nested_run_heap, Ok 5%nat) ∧
  Graph.item nested_run_heap 5 "backup" = Some (Graph.DRef 4) ∧
  Graph.reach nested_heap (Graph.DRef 4) 1 ∧
  Graph.view 2 nested_heap (Graph.DRef 4) = Some (VDict [("saved", VList [])]) ∧
  Graph.view 3 nested_run_heap (Graph.DRef 4) =
    Some (VDict [("saved", VList [new_proxy "socks_out_01" alice 1080])]).
Proof.
  split; [reflexivity|]. split; [reflexivity|]. split; [reflexivity|].
  split; [reflexivity|]. split; [reflexivity|]. split; [reflexivity|].
  split; [vm_compute; reflexivity|]. split; [reflexivity|].
  split.
  { eapply Graph.reach_step; [reflexivity| |constructor]. simpl. by left. }
  split; vm_compute; reflexivity.
Qed.

Lemma listed_heap_apart (x : Graph.dval) :
  x ∈ Graph.elements listed_heap listed_items "proxies" ∨
  x ∈ Graph.elements listed_heap listed_items "proxy-groups" →
  Graph.apart listed_heap listed_items x.
Proof.
  intros [Hx|Hx]; [|by apply elem_of_nil in Hx].
  apply list_elem_of_singleton in Hx as ->. intros a Ha.
  apply (reach_within listed_heap [3%nat]) in Ha; [|reflexivity|by intros b [= <-]; left].
  apply list_elem_of_singleton in Ha as ->. by split.
Defined.

Lemma listed_heap_distinct (a : loc) :
  Graph.list_at listed_heap listed_items "proxies" = Some a →
  Graph.list_at listed_heap listed_items "proxy-groups" ≠ Some a.
Proof. intros [= <-]. discriminate. Defined.

Lemma listed_run_eq :
  Graph.process_data listed_heap one_mapping one_proxy 0 = (listed_run_heap, Ok 5%nat).
Proof. vm_compute. reflexivity. Defined.

Lemma C6_sections_and_frame_witness :
  Graph.closed listed_heap = true ∧
  listed_heap !! 0%nat = Some (Graph.ODict listed_items) ∧
  (∀ a, Graph.list_at listed_heap listed_items "proxies" = Some a →
        Graph.list_at listed_heap listed_items "proxy-groups" ≠ Some a) ∧
  (∀ x, x ∈ Graph.elements listed_heap listed_items "proxies" ∨
        x ∈ Graph.elements listed_heap listed_items "proxy-groups" →
        Graph.apart listed_heap listed_items x) ∧
  Graph.process_data listed_heap one_mapping one_proxy 0 = (listed_run_heap, Ok 5%nat) ∧
  ∃ gp remote gl gg,
    proxies_loop 0 one_proxy [] ∅ = Ok (gp, remote) ∧
    mapping_loop remote one_mapping (sorted_mapping_keys (dict_keys one_mapping)) [] [] =
      Ok (gl, gg) ∧
    Graph.field_is listed_run_heap 5 "listeners" (VList gl) ∧
    (∀ vs, Graph.elements_are listed_heap listed_items "proxies" vs →
           Graph.field_is listed_run_heap 5 "proxies" (VList (vs ++ gp))) ∧
    (∀ vs, Graph.elements_are listed_heap listed_items "proxy-groups" vs →
           Graph.field_is listed_run_heap 5 "proxy-groups" (VList (vs ++ gg))) ∧
    ∀ k, k ≠ "proxies" → k ≠ "listeners" → k ≠ "proxy-groups" →
      Graph.item listed_run_heap 5 k = dict_get k listed_items ∧
      ∀ v, dict_get k listed_items = Some v → Graph.apart listed_heap listed_items v →
           ∀ n, Graph.view n listed_run_heap v = Graph.view n listed_heap v.
Proof.
  split; [reflexivity|]. split; [reflexivity|]. split; [exact listed_heap_distinct|].
  split; [exact listed_heap_apart|]. split; [exact listed_run_eq|].
  exact (C6_sections_and_frame listed_heap listed_run_heap one_mapping one_proxy 0 5
           listed_items eq_refl eq_refl listed_heap_distinct listed_heap_apart
           listed_run_eq).
Defined.

(** * Further properties of the merge and of the parser *)

(** ** The generated proxies *)

Lemma proxies_loop_values (pl : list ProxyRecord) :
  ∀ i gp remote gp' remote' s name,
  proxies_loop i pl gp remote = Ok (gp', remote') →
  remote' !! s = Some name →
  remote !! s = Some name ∨
  ∃ k r, pl !! k = Some r ∧ ip r = s ∧ name = proxy_name (i + k).
Proof.
  induction pl as [|r0 pl IH]; intros i gp remote gp' remote' s name H Hl; simpl in H.
  { simplify_eq. by left. }
  destruct (PyStr.int (port r0)) as [p0|] eqn:Hp0; [|done].
  destruct (IH _ _ _ _ _ _ _ H Hl) as [Hin|(k & r & Hk & Hip & ->)].
  - destruct (decide (ip r0 = s)) as [E|Hne].
    + subst s. rewrite lookup_insert_eq in Hin. simplify_eq.
      right. exists 0, r0. by rewrite Nat.add_0_r.
    + rewrite lookup_insert_ne in Hin by done. by left.
  - right. exists (S k), r. split; [done|]. split; [done|]. f_equal. lia.
Qed.

(** X1. The proxies step 1 generates have pairwise different names: two
    positions of the generated list with the same [name] are one position. *)
Theorem generated_proxy_names_distinct (pl : list ProxyRecord) (gp : list pyval)
    (remote : gmap string string) (i j : nat) (a b : pyval) :
  proxies_loop 0 pl [] ∅ = Ok (gp, remote) →
  gp !! i = Some a → gp !! j = Some b →
  entry_field "name" a = entry_field "name" b →
  i = j.
Proof.
  intros H Hi Hj Hname.
  destruct (proxies_loop_ok _ _ _ _ _ _ H) as (new & -> & Hlen & Hnew). simpl in *.
  pose proof (lookup_lt_Some _ _ _ Hi) as Hilt. pose proof (lookup_lt_Some _ _ _ Hj) as Hjlt.
  rewrite Hlen in Hilt, Hjlt.
  destruct (lookup_lt_is_Some_2 pl i Hilt) as [ri Hri].
  destruct (lookup_lt_is_Some_2 pl j Hjlt) as [rj Hrj].
  destruct (Hnew i ri Hri) as (pi & _ & Hi'). destruct (Hnew j rj Hrj) as (pj & _ & Hj').
  rewrite Hi in Hi'. rewrite Hj in Hj'.
  injection Hi' as ->. injection Hj' as ->.
  apply proxy_name_inj. simpl in Hname. congruence.
Qed.

(** ** The generated listeners and groups *)

Lemma make_group_target (remote : gmap string string) (key : string) (e g : pyval) :
  make_group remote key e = Ok g →
  ∃ name s, g = new_group key name ∧ remote !! s = Some name.
Proof.
  unfold make_group, py_get, py_in_colon, py_split1, remote_get, found.
  intros H. repeat (case_match; simpl in *; simplify_eq); eauto.
Qed.

(** X2. Every relay group the loop generates lists [Switch-Proxy] and then
    the name of a proxy that step 1 generated: the name is the [name] of an
    element of the generated proxies. *)
Theorem relay_group_names_generated_proxy (pl : list ProxyRecord) (gp : list pyval)
    (remote : gmap string string) (m : list (string * pyval)) (keys : list string)
    (gl gg : list pyval) (g : pyval) :
  proxies_loop 0 pl [] ∅ = Ok (gp, remote) →
  mapping_loop remote m keys [] [] = Ok (gl, gg) →
  g ∈ gg →
  ∃ name i p,
    group_proxies g = [VStr "Switch-Proxy"; VStr name] ∧
    gp !! i = Some p ∧ entry_field "name" p = Some (VStr name).
Proof.
  intros H1 H2 Hg.
  apply mapping_loop_ok in H2 as (ls & gs & -> & -> & _ & Hgs & Hall). simpl in Hg.
  apply list_elem_of_lookup in Hg as [j Hj].
  assert (j < length keys) as Hlt.
  { apply lookup_lt_Some in Hj. lia. }
  destruct (lookup_lt_is_Some_2 keys j Hlt) as [k Hk].
  destruct (Hall j k Hk) as (e & l & g' & _ & _ & Hmg & _ & Hg').
  rewrite Hj in Hg'. simplify_eq.
  apply make_group_target in Hmg as (name & s & -> & Hs).
  destruct (proxies_loop_values _ _ _ _ _ _ _ _ H1 Hs) as [Hin|(i & r & Hi & _ & ->)].
  { by rewrite lookup_empty in Hin. }
  destruct (proxies_loop_ok _ _ _ _ _ _ H1) as (new & -> & _ & Hnew).
  destruct (Hnew i r Hi) as (p & _ & Hp).
  exists (proxy_name i), i, (new_proxy (proxy_name i) r p). simpl. by rewrite Hp.
Qed.

Lemma sorted_mapping_keys_length (keys : list string) :
  length (sorted_mapping_keys keys) = length keys.
Proof. apply Permutation_length, sorted_mapping_keys_perm. Qed.

(** X3. A loop that ends well has generated one listener and one relay group
    per entry of the mapping table, and the listener and the group at the
    same position belong together: the listener's [proxy] is the group's
    [name]. *)
Theorem listeners_and_groups_pair_up (remote : gmap string string)
    (m : list (string * pyval)) (gl gg : list pyval) :
  mapping_loop remote m (sorted_mapping_keys (dict_keys m)) [] [] = Ok (gl, gg) →
  length gl = length m ∧ length gg = length m ∧
  ∀ i l g, gl !! i = Some l → gg !! i = Some g →
    is_Some (entry_field "name" g) ∧ entry_field "proxy" l = entry_field "name" g.
Proof.
  intros H. apply mapping_loop_ok in H as (ls & gs & -> & -> & Hls & Hgs & Hall).
  simpl. rewrite sorted_mapping_keys_length in Hls, Hgs.
  unfold dict_keys in Hls, Hgs. rewrite length_map in Hls, Hgs.
  split; [done|]. split; [done|]. intros i l g Hl Hg.
  assert (i < length (sorted_mapping_keys (dict_keys m))) as Hlt.
  { rewrite sorted_mapping_keys_length. unfold dict_keys. rewrite length_map.
    apply lookup_lt_Some in Hl. lia. }
  destruct (lookup_lt_is_Some_2 _ i Hlt) as [k Hk].
  destruct (Hall i k Hk) as (e & l' & g' & _ & Hml & Hmg & Hl' & Hg').
  rewrite Hl in Hl'. rewrite Hg in Hg'. simplify_eq.
  apply make_listener_name in Hml as [n ->]. apply make_group_name in Hmg as [name ->].
  simpl. split; [by eexists|done].
Qed.

Lemma append_prefix_inj (p a b : string) : p +:+ a = p +:+ b → a = b.
Proof. induction p as [|c p IH]; simpl; [done|]. intros [= H]. by apply IH. Qed.

(** X4. When the keys of the mapping table are pairwise different, as the
    keys of a JSON object loaded into a dictionary are, the generated
    listeners have pairwise different names, and so have the generated
    groups. *)
Theorem listener_and_group_names_distinct (remote : gmap string string)
    (m : list (string * pyval)) (gl gg : list pyval) :
  NoDup (dict_keys m) →
  mapping_loop remote m (sorted_mapping_keys (dict_keys m)) [] [] = Ok (gl, gg) →
  (∀ i j a b, gl !! i = Some a → gl !! j = Some b →
     entry_field "name" a = entry_field "name" b → i = j) ∧
  (∀ i j a b, gg !! i = Some a → gg !! j = Some b →
     entry_field "name" a = entry_field "name" b → i = j).
Proof.
  intros Hnd H. apply mapping_loop_ok in H as (ls & gs & -> & -> & Hls & Hgs & Hall).
  simpl.
  assert (NoDup (sorted_mapping_keys (dict_keys m))) as Hnd'.
  { by rewrite sorted_mapping_keys_perm. }
  assert (∀ i x, (ls !! i = Some x ∨ gs !! i = Some x) →
            ∃ k n name, sorted_mapping_keys (dict_keys m) !! i = Some k ∧
                        ls !! i = Some (new_listener k n) ∧
                        gs !! i = Some (new_group k name)) as Hat.
  { intros i x Hx.
    assert (i < length (sorted_mapping_keys (dict_keys m))) as Hlt.
    { destruct Hx as [Hx|Hx]; apply lookup_lt_Some in Hx; lia. }
    destruct (lookup_lt_is_Some_2 _ i Hlt) as [k Hk].
    destruct (Hall i k Hk) as (e & l' & g' & _ & Hml & Hmg & Hl' & Hg').
    apply make_listener_name in Hml as [n ->]. apply make_group_name in Hmg as [name ->].
    by exists k, n, name. }
  split; intros i j a b Hi Hj Hname.
  - destruct (Hat i a (or_introl Hi)) as (ki & ni & ? & Hki & Hli & _).
    destruct (Hat j b (or_introl Hj)) as (kj & nj & ? & Hkj & Hlj & _).
    rewrite Hi in Hli. rewrite Hj in Hlj.
    injection Hli as ->. injection Hlj as ->.
    assert (ki = kj) as ->.
    { apply (append_prefix_inj "socks_"). unfold new_listener, listener_name in Hname.
      simpl in Hname. congruence. }
    by eapply NoDup_lookup.
  - destruct (Hat i a (or_intror Hi)) as (ki & ? & ni & Hki & _ & Hgi).
    destruct (Hat j b (or_intror Hj)) as (kj & ? & nj & Hkj & _ & Hgj).
    rewrite Hi in Hgi. rewrite Hj in Hgj.
    injection Hgi as ->. injection Hgj as ->.
    assert (ki = kj) as ->.
    { apply (append_prefix_inj "socks_relay_"). unfold new_group, relay_group_name in Hname.
      simpl in Hname. congruence. }
    by eapply NoDup_lookup.
Qed.

(** ** When the merge succeeds *)

Lemma dict_get_is_Some {V : Type} (k : string) (d : list (string * V)) :
  k ∈ dict_keys d ↔ is_Some (dict_get k d).
Proof.
  unfold dict_keys. induction d as [|[k0 v0] d IH]; simpl.
  - split; [by intros ?%elem_of_nil|by intros [? ?]].
  - rewrite elem_of_cons, IH. destruct (String.eqb_spec k0 k) as [->|Hne].
    + split; [by eexists|by left].
    + split; [by intros [?|?]|by right].
Qed.

Lemma mapping_loop_succeeds_iff (remote : gmap string string)
    (m : list (string * pyval)) (ks : list string) :
  ∀ gl gg,
  (∃ out, mapping_loop remote m ks gl gg = Ok out) ↔
  ∀ k, k ∈ ks → ∃ e l g, dict_get k m = Some e ∧
                         make_listener k e = Ok l ∧ make_group remote k e = Ok g.
Proof.
  induction ks as [|k ks IH]; intros gl gg; simpl.
  { split; [by intros _ k ?%elem_of_nil|by eexists]. }
  split.
  - intros [out H]. unfold py_item in H.
    destruct (dict_get k m) as [e|] eqn:He; simpl in H; [|done].
    destruct (make_listener k e) as [l| |] eqn:Hl; simpl in H; try done.
    destruct (make_group remote k e) as [g| |] eqn:Hg; simpl in H; try done.
    intros k' [->|Hk']%elem_of_cons; [by exists e, l, g|].
    eapply IH; [by eexists|done].
  - intros Hall. destruct (Hall k) as (e & l & g & He & Hl & Hg); [by left|].
    unfold py_item. rewrite He. simpl. rewrite Hl. simpl. rewrite Hg. simpl.
    apply IH. intros k' Hk'. apply Hall. by right.
Qed.

Lemma process_data_succeeds_iff (st : store) (m : list (string * pyval))
    (pl : list ProxyRecord) (base : config) :
  (∃ st' final, process_data st m pl base = (st', Ok final)) ↔
  ∃ gp remote out,
    proxies_loop 0 pl [] ∅ = Ok (gp, remote) ∧
    mapping_loop remote m (sorted_mapping_keys (dict_keys m)) [] [] = Ok out.
Proof.
  unfold process_data, dict_copy.
  destruct (proxies_loop 0 pl [] ∅) as [[gp remote]| |]; simpl.
  - destruct (append_field "proxies" gp st base) as [st1 c1].
    destruct (mapping_loop remote m _ [] []) as [[gl gg]| |] eqn:H2; simpl.
    + unfold alloc. destruct (append_field "proxy-groups" gg _ _) as [st2 c2].
      split; intros _.
      * exists gp, remote, (gl, gg). by split.
      * by eexists _, _.
    + split; [by intros (? & ? & ?)|].
      intros (? & ? & ? & [= <- <-] & H). by rewrite H2 in H.
    + split; [by intros (? & ? & ?)|].
      intros (? & ? & ? & [= <- <-] & H). by rewrite H2 in H.
  - split; [by intros (? & ? & ?)|by intros (? & ? & ? & ? & ?)].
  - split; [by intros (? & ? & ?)|by intros (? & ? & ? & ? & ?)].
Qed.

Lemma typed_entry_accepted (pl : list ProxyRecord) (gp : list pyval)
    (remote : gmap string string) (k : string) (e : pyval) :
  proxies_loop 0 pl [] ∅ = Ok (gp, remote) →
  typed_entry e →
  (∃ l g, make_listener k e = Ok l ∧ make_group remote k e = Ok g) ↔
  entry_accepted remote e.
Proof.
  intros H1 (d & ol & or & -> & Hol & Hor).
  rewrite (make_listener_str k d ol Hol), (make_group_str pl gp remote k d or H1 Hor).
  split.
  - intros (l & g & Hl & Hg).
    destruct ol as [sl|]; [|done]. destruct or as [sr|]; [|done].
    destruct (PyStr.is_empty sl) eqn:Esl; simpl in Hl; [done|].
    destruct (PyStr.contains PyStr.colon sl) eqn:Ec; simpl in Hl; [|done].
    destruct (PyStr.int (after_colon sl)) as [n|] eqn:En; [|done].
    destruct (PyStr.is_empty sr) eqn:Esr; [done|].
    destruct (resolve remote sr) as [name|] eqn:Er; [|done].
    exists d, sl, sr, n, name. repeat split; try done. by intros ->.
  - intros (d' & sl & sr & n & name & [= <-] & Hsl & Hc & Hn & Hsr & Hne & Hr).
    destruct ol as [sl'|]; simpl in Hol.
    2: { destruct Hol as [Hol|Hol]; rewrite Hol in Hsl; done. }
    destruct or as [sr'|]; simpl in Hor.
    2: { destruct Hor as [Hor|Hor]; rewrite Hor in Hsr; done. }
    rewrite Hol in Hsl. rewrite Hor in Hsr. simplify_eq.
    assert (PyStr.is_empty sl = false) as -> by (by destruct sl).
    rewrite Hc, Hn, (is_empty_false _ Hne), Hr. simpl. by eexists _, _.
Qed.

(** X5. On a mapping table whose entries are objects with string or missing
    [socks_local] and [socks_remote], the merge returns a configuration
    exactly when step 1 accepts every port and every entry has a
    [socks_local] with a colon followed by an integer and a non-empty
    [socks_remote] that resolves in the reverse lookup of step 1. *)
Theorem merge_succeeds_iff (st : store) (m : list (string * pyval))
    (pl : list ProxyRecord) (base : config) :
  (∀ k e, dict_get k m = Some e → typed_entry e) →
  (∃ st' final, process_data st m pl base = (st', Ok final)) ↔
  ∃ gp remote,
    proxies_loop 0 pl [] ∅ = Ok (gp, remote) ∧
    ∀ k e, dict_get k m = Some e → entry_accepted remote e.
Proof.
  intros Htyped. rewrite process_data_succeeds_iff. split.
  - intros (gp & remote & out & H1 & H2). exists gp, remote. split; [done|].
    intros k e He.
    destruct (proj1 (mapping_loop_succeeds_iff remote m _ [] []) (ex_intro _ out H2) k)
      as (e' & l & g & He' & Hl & Hg).
    { rewrite sorted_mapping_keys_perm. apply dict_get_is_Some. by eexists. }
    assert (e' = e) as -> by congruence.
    apply (typed_entry_accepted pl gp remote k e H1 (Htyped k e He)). by exists l, g.
  - intros (gp & remote & H1 & Hall).
    destruct (proj2 (mapping_loop_succeeds_iff remote m
                       (sorted_mapping_keys (dict_keys m)) [] [])) as [out Hout].
    { intros k Hk. rewrite sorted_mapping_keys_perm in Hk.
      apply dict_get_is_Some in Hk as [e He]. exists e.
      destruct (proj2 (typed_entry_accepted pl gp remote k e H1 (Htyped k e He))
                  (Hall k e He)) as (l & g & Hl & Hg).
      by exists l, g. }
    by exists gp, remote, out.
Qed.

(** ** What the merge does to the store *)

Lemma process_data_abort (st st' : store) (m : list (string * pyval))
    (pl : list ProxyRecord) (base : config) (r : outcome config) :
  process_data st m pl base = (st', r) →
  (∀ c, r ≠ Ok c) →
  st' = st ∨
  ∃ gp remote, proxies_loop 0 pl [] ∅ = Ok (gp, remote) ∧
               st' = (append_field "proxies" gp st base).1.
Proof.
  unfold process_data, dict_copy.
  destruct (proxies_loop 0 pl [] ∅) as [[gp remote]| |]; simpl;
    [|intros [= <- <-]; by left..].
  destruct (append_field "proxies" gp st base) as [st1 c1] eqn:Ha.
  destruct (mapping_loop remote m _ [] []) as [[gl gg]| |]; simpl.
  - unfold alloc. destruct (append_field "proxy-groups" gg _ _) as [st2 c2].
    intros [= <- <-] Hr. by destruct (Hr c2 eq_refl).
  - intros [= <- <-] _. right. exists gp, remote. by rewrite Ha.
  - intros [= <- <-] _. right. exists gp, remote. by rewrite Ha.
Qed.

(** X6. However the call ends, the store only grows: no list object
    disappears, every list object that existed keeps its elements as a
    prefix, and a list object other than the ones the base configuration
    holds under [proxies] and [proxy-groups] is unchanged.  When the call
    does not return a configuration, the list under [proxy-groups] is
    unchanged as well: only the one under [proxies] can have been
    extended. *)
Theorem store_only_grows (st st' : store) (m : list (string * pyval))
    (pl : list ProxyRecord) (base : config) (r : outcome config) :
  allocated st base →
  process_data st m pl base = (st', r) →
  length st ≤ length st' ∧
  (∀ l xs, st !! l = Some xs → ∃ ys, st' !! l = Some (xs ++ ys)) ∧
  (∀ l xs, st !! l = Some xs →
     dict_get "proxies" base ≠ Some (CList l) →
     dict_get "proxy-groups" base ≠ Some (CList l) →
     st' !! l = Some xs) ∧
  ((∀ c, r ≠ Ok c) →
   ∀ l xs, st !! l = Some xs → dict_get "proxies" base ≠ Some (CList l) →
           st' !! l = Some xs).
Proof.
  intros Hal H.
  assert ((∀ c, r ≠ Ok c) →
          length st ≤ length st' ∧
          (∀ l xs, st !! l = Some xs → ∃ ys, st' !! l = Some (xs ++ ys)) ∧
          (∀ l xs, st !! l = Some xs → dict_get "proxies" base ≠ Some (CList l) →
                   st' !! l = Some xs)) as Habort.
  { intros Hr. destruct (process_data_abort _ _ _ _ _ _ H Hr) as [->|(gp & remote & _ & ->)].
    { split; [done|]. split; [|done]. intros l xs Hl. exists []. by rewrite app_nil_r. }
    destruct (append_field "proxies" gp st base) as [st1 c1] eqn:Ha. simpl.
    destruct (append_field_spec _ _ _ _ _ _ Hal Ha)
      as (p & -> & _ & Hle & _ & [[Hp ->]|(Hn & -> & ->)]).
    - split; [done|]. split.
      + intros l xs Hl. destruct (decide (p = l)) as [->|Hne].
        * exists gp. by rewrite list_lookup_alter_eq, Hl.
        * exists []. by rewrite list_lookup_alter_ne, app_nil_r.
      + intros l xs Hl Hnp. rewrite list_lookup_alter_ne; [done|congruence].
    - split; [done|]. split.
      + intros l xs Hl. exists []. rewrite app_nil_r.
        rewrite lookup_app_l; [done|]. by eapply lookup_lt_Some.
      + intros l xs Hl _. rewrite lookup_app_l; [done|]. by eapply lookup_lt_Some. }
  destruct r as [final| |].
  - destruct (process_data_ok _ _ _ _ _ _ Hal H)
      as (gp & remote & gl & gg & p & lm & a & _ & _ & _ & Hlm & _ & Hgl & Hp & Ha & Hold).
    split; [apply lookup_lt_Some in Hgl; lia|]. split; [|split; [|by intros Hr; destruct (Hr final eq_refl)]].
    + intros l xs Hl. rewrite (Hold _ _ Hl). by eexists.
    + intros l xs Hl Hnp Hna. rewrite (Hold _ _ Hl).
      pose proof (lookup_lt_Some _ _ _ Hl) as Hlt.
      assert (p ≠ l). { destruct Hp as [Hp|(_ & Hp & _)]; [congruence|lia]. }
      assert (a ≠ l). { destruct Ha as [Ha|(_ & -> & _)]; [congruence|lia]. }
      repeat case_bool_decide; try done. by rewrite !app_nil_r.
  - destruct Habort as (Hlen & Hgrow & Hkeep); [done|].
    split; [done|]. split; [done|]. split; [|done].
    intros l xs Hl Hnp _. by apply Hkeep.
  - destruct Habort as (Hlen & Hgrow & Hkeep); [done|].
    split; [done|]. split; [done|]. split; [|done].
    intros l xs Hl Hnp _. by apply Hkeep.
Qed.

(** ** The records of the parser *)

Lemma split_no_sep (c : ascii) (s : string) :
  Forall (λ p, PyStr.contains c p = false) (PyStr.split c s).
Proof.
  induction s as [|d s IH]; simpl; [by repeat constructor|].
  destruct (Ascii.eqb d c) eqn:E; [by constructor|].
  destruct (PyStr.split c s) as [|p ps]; [repeat constructor; simpl; by rewrite E|].
  inversion IH as [|? ? Hp Hps]; subst. constructor; [|done]. simpl. by rewrite E, Hp.
Qed.

Lemma split_four_join (s a b c d : string) :
  PyStr.split PyStr.colon s = [a; b; c; d] →
  s = a +:+ ":" +:+ b +:+ ":" +:+ c +:+ ":" +:+ d.
Proof.
  assert (∀ s p ps, PyStr.split PyStr.colon s = p :: ps →
            match ps with
            | [] => s = p
            | _ :: _ => ∃ s', s = p +:+ String PyStr.colon s' ∧
                              PyStr.split PyStr.colon s' = ps
            end) as Hstep.
  { clear. induction s as [|x s IH]; intros p ps; simpl.
    { by intros [= <- <-]. }
    destruct (Ascii.eqb_spec x PyStr.colon) as [->|Hne].
    - intros [= <- <-]. destruct (PyStr.split PyStr.colon s) eqn:E.
      + by destruct s; simpl in E; [|destruct (Ascii.eqb a PyStr.colon), (PyStr.split PyStr.colon s)].
      + by exists s.
    - destruct (PyStr.split PyStr.colon s) as [|q qs] eqn:E.
      + intros [= <- <-]. by destruct s; simpl in E;
          [|destruct (Ascii.eqb a PyStr.colon), (PyStr.split PyStr.colon s)].
      + intros [= <- <-]. specialize (IH q qs eq_refl). destruct qs.
        * by rewrite IH.
        * destruct IH as (s' & -> & Hs'). by exists s'. }
  intros H. apply Hstep in H as (s1 & -> & H). apply Hstep in H as (s2 & -> & H).
  apply Hstep in H as (s3 & -> & H). apply Hstep in H as ->. done.
Qed.

Lemma record_ip_no_colon (content : string) (proxies : list ProxyRecord)
    (log : list warning) (r : ProxyRecord) :
  read_proxy_file (Text content) = (inl proxies, log) →
  r ∈ proxies → PyStr.contains PyStr.colon (ip r) = false.
Proof.
  unfold read_proxy_file.
  destruct (read_proxy_lines_spec (PyStr.text_lines content) 0 [] [])
    as (recs & ws & -> & Hrec & _). simpl. intros [= <- <-] Hr.
  apply Hrec in Hr as (k & raw & Hk & _ & _ & Hsplit & _).
  pose proof (split_no_sep PyStr.colon (PyStr.strip raw)) as Hno.
  rewrite Hsplit in Hno. by inversion Hno.
Qed.

(** X7. A record the parser returns has no colon in any of its four fields,
    its line number is a line of the file, and its fields joined by colons
    are that line, stripped. *)
Theorem record_fields_are_the_line (content : string) (proxies : list ProxyRecord)
    (log : list warning) (r : ProxyRecord) :
  read_proxy_file (Text content) = (inl proxies, log) →
  r ∈ proxies →
  PyStr.contains PyStr.colon (ip r) = false ∧
  PyStr.contains PyStr.colon (port r) = false ∧
  PyStr.contains PyStr.colon (user r) = false ∧
  PyStr.contains PyStr.colon (pass r) = false ∧
  ∃ raw, 1 ≤ line_num r ∧
         PyStr.text_lines content !! (line_num r - 1) = Some raw ∧
         PyStr.strip raw = ip r +:+ ":" +:+ port r +:+ ":" +:+ user r +:+ ":" +:+ pass r.
Proof.
  unfold read_proxy_file.
  destruct (read_proxy_lines_spec (PyStr.text_lines content) 0 [] [])
    as (recs & ws & -> & Hrec & _). simpl. intros [= <- <-] Hr.
  apply Hrec in Hr as (k & raw & Hk & _ & _ & Hsplit & Hnum). simpl in Hnum.
  pose proof (split_no_sep PyStr.colon (PyStr.strip raw)) as Hno.
  rewrite Hsplit in Hno.
  inversion Hno as [|? ? H0 Hno1]; subst. inversion Hno1 as [|? ? H1 Hno2]; subst.
  inversion Hno2 as [|? ? H2 Hno3]; subst. inversion Hno3 as [|? ? H3 _]; subst.
  repeat split; try done. exists raw.
  assert (line_num r - 1 = k) as -> by lia. split; [lia|]. split; [done|].
  by apply split_four_join.
Qed.

(** X8. With a proxy list that comes from the parser, no key of the reverse
    lookup has a colon; so a [socks_remote] written with a colon is never
    found as a whole and is resolved by the text before its first colon. *)
Theorem remote_with_port_resolves_by_ip (content : string) (pl : list ProxyRecord)
    (log : list warning) (gp : list pyval) (remote : gmap string string)
    (socks_remote : string) :
  read_proxy_file (Text content) = (inl pl, log) →
  proxies_loop 0 pl [] ∅ = Ok (gp, remote) →
  PyStr.contains PyStr.colon socks_remote = true →
  remote !! socks_remote = None ∧
  resolve remote socks_remote = remote !! before_colon socks_remote.
Proof.
  intros Hread H1 Hc.
  assert (remote !! socks_remote = None) as Hnone.
  { destruct (remote !! socks_remote) as [name|] eqn:Hl; [|done].
    destruct (proxies_loop_values _ _ _ _ _ _ _ _ H1 Hl) as [Hin|(k & r & Hk & Hip & _)].
    { by rewrite lookup_empty in Hin. }
    assert (r ∈ pl) as Hr by (apply list_elem_of_lookup; eauto).
    pose proof (record_ip_no_colon content pl log r Hread Hr) as Hno.
    rewrite Hip in Hno. congruence. }
  split; [done|]. unfold resolve. by rewrite Hnone, Hc.
Qed.

Lemma read_proxy_lines_count (lines : list string) :
  ∀ i proxies log,
  length (read_proxy_lines i lines proxies log).1 +
  length (read_proxy_lines i lines proxies log).2 +
  length (filter (λ raw, skipped_line raw = true) lines) =
  length proxies + length log + length lines.
Proof.
  induction lines as [|raw lines IH]; intros i proxies log; simpl; [lia|].
  rewrite filter_cons.
  change (PyStr.is_empty (PyStr.strip raw) || PyStr.startswith PyStr.hash (PyStr.strip raw))
    with (skipped_line raw).
  destruct (skipped_line raw) eqn:Hskip.
  { rewrite decide_True by done. simpl. specialize (IH (S i) proxies log). lia. }
  rewrite decide_False by done.
  destruct (PyStr.split PyStr.colon (PyStr.strip raw)) as [|? [|? [|? [|? [|? ?]]]]];
    match goal with
    | |- context [read_proxy_lines (S i) lines ?p ?l] =>
        specialize (IH (S i) p l); rewrite ?length_app in IH; simpl in IH; lia
    end.
Qed.

(** X9. Every physical line of the file is accounted for once: the number of
    records, the number of warnings and the number of blank or comment lines
    add up to the number of lines. *)
Theorem every_line_accounted_for (content : string) (proxies : list ProxyRecord)
    (log : list warning) :
  read_proxy_file (Text content) = (inl proxies, log) →
  length proxies + length log +
  length (filter (λ raw, skipped_line raw = true) (PyStr.text_lines content)) =
  length (PyStr.text_lines content).
Proof.
  unfold read_proxy_file.
  pose proof (read_proxy_lines_count (PyStr.text_lines content) 0 [] []) as Hc.
  destruct (read_proxy_lines 0 (PyStr.text_lines content) [] []) as [p l].
  simpl in *. intros [= <- <-]. lia.
Qed.

(** ** The base-configuration parser *)

Lemma load_into_get (st : store) (objs : list (list pyval)) (top : config) (k : string) :
  dict_get k (load_into st objs top).2 = shift (length st) <$> dict_get k top.
Proof.
  unfold load_into. simpl. induction top as [|[k0 v0] top IH]; simpl; [done|].
  by destruct (String.eqb k0 k).
Qed.

Lemma load_into_allocated (st : store) (objs : list (list pyval)) (top : config) :
  allocated objs top → allocated (load_into st objs top).1 (load_into st objs top).2.
Proof.
  unfold allocated, load_into. simpl. rewrite length_app.
  induction top as [|[k0 v0] top IH]; simpl; [done|].
  destruct v0; simpl; try done.
  intros H. inversion H; subst. constructor; [lia|by apply IH].
Qed.

Lemma load_into_view (st : store) (objs : list (list pyval)) (v : cval) :
  (∀ l, v = CList l → l < length objs) →
  view (st ++ objs) (shift (length st) v) = view objs v.
Proof.
  intros H. destruct v; simpl; try done.
  rewrite lookup_app_r by lia. by replace (length st + l - length st) with l by lia.
Qed.

Lemma setdefault_spec (k : string) (st st' : store) (data data' : config) :
  allocated st data →
  setdefault_list k st data = (st', data') →
  allocated st' data' ∧ is_Some (dict_get k data') ∧
  ((is_Some (dict_get k data) ∧ st' = st ∧ data' = data) ∨
   (dict_get k data = None ∧ st' = st ++ [[]] ∧
    data' = dict_set k (CList (length st)) data)).
Proof.
  intros Hal. unfold setdefault_list.
  destruct (dict_get k data) as [v|] eqn:E.
  - intros [= <- <-]. rewrite E. split; [done|]. split; [by eexists|]. left. eauto.
  - unfold alloc. intros [= <- <-]. rewrite dict_get_set_eq.
    split; [|split; [by eexists|by right]].
    apply (allocated_set st); [done| |]; rewrite length_app; simpl; lia.
Qed.

Lemma view_snoc (st : store) (xs : list pyval) (v : cval) :
  (∀ l, v = CList l → l < length st) → view (st ++ [xs]) v = view st v.
Proof. intros H. destruct v; simpl; try done. by rewrite lookup_app_l by auto. Qed.

Lemma field_snoc (st : store) (xs : list pyval) (data : config) (k : string) :
  allocated st data → field (st ++ [xs]) data k = field st data k.
Proof.
  intros Hal. unfold field. destruct (dict_get k data) as [v|] eqn:E; [|done].
  simpl. f_equal. apply view_snoc. intros l ->. by eapply allocated_get.
Qed.

Lemma loaded_start (st0 : store) (objs : list (list pyval)) (top : config) :
  allocated objs top →
  loaded st0 objs top (load_into st0 objs top).1 (load_into st0 objs top).2.
Proof.
  intros Hal. split; [by apply load_into_allocated|]. split; [|split].
  - intros l xs Hl. unfold load_into. simpl. by apply lookup_app_l_Some.
  - intros k [v Hv]. split.
    + unfold field. rewrite load_into_get, Hv. simpl. f_equal.
      apply load_into_view. intros l ->. by eapply allocated_get.
    + intros k' (l & Hk' & Hk). rewrite load_into_get in Hk', Hk.
      destruct (dict_get k' top) as [[l1| | | | | |]|] eqn:E1; simpl in Hk'; try done.
      destruct (dict_get k top) as [[l2| | | | | |]|] eqn:E2; simpl in Hk; try done.
      exists l1. split; [done|]. rewrite E2. f_equal. f_equal.
      injection Hk' as <-. injection Hk as Hk. lia.
  - intros k Hk. left. by rewrite load_into_get, Hk.
Qed.

Lemma loaded_setdefault (st0 : store) (objs : list (list pyval)) (top : config)
    (k0 : string) (st st' : store) (data data' : config) :
  is_section k0 →
  loaded st0 objs top st data →
  setdefault_list k0 st data = (st', data') →
  loaded st0 objs top st' data' ∧ is_Some (dict_get k0 data') ∧
  ∀ k, is_Some (dict_get k data) → is_Some (dict_get k data').
Proof.
  intros Hsec (Hal & Hold & Hpres & Habs) Hset.
  destruct (setdefault_spec _ _ _ _ _ Hal Hset) as (Hal' & Hsome & [(_ & -> & ->)|(Hnone & -> & ->)]).
  { split; [exact (conj Hal (conj Hold (conj Hpres Habs)))|]. by split. }
  split; [|split; [done|]].
  2: { intros k Hk. destruct (decide (k0 = k)) as [->|Hne]; [done|].
       by rewrite dict_get_set_ne. }
  assert (∀ k' l, k' ≠ k0 → dict_get k' (dict_set k0 (CList (length st)) data) = Some (CList l) →
            dict_get k' data = Some (CList l) ∧ l < length st) as Hother.
  { intros k' l Hne Hk'. rewrite dict_get_set_ne in Hk' by done.
    split; [done|]. by eapply allocated_get. }
  split; [done|]. split; [|split].
  - intros l xs Hl. apply lookup_app_l_Some. by apply Hold.
  - intros k Hk. destruct (Hpres k Hk) as [Hf Hsh].
    assert (k ≠ k0) as Hne.
    { intros ->. unfold field in Hf. rewrite Hnone in Hf. destruct Hk as [v Hv].
      unfold field in Hf. by rewrite Hv in Hf. }
    split.
    + rewrite <- Hf. unfold field. rewrite dict_get_set_ne by done.
      destruct (dict_get k data) as [v|] eqn:E; [|done]. simpl. f_equal.
      apply view_snoc. intros l ->. by eapply allocated_get.
    + intros k' (l & Hk' & Hkl). apply Hsh.
      destruct (Hother k l Hne Hkl) as [Hkd Hlt].
      destruct (decide (k' = k0)) as [->|Hne'].
      * rewrite dict_get_set_eq in Hk'. simplify_eq. lia.
      * destruct (Hother k' l Hne' Hk') as [Hk'd _]. by exists l.
  - intros k Hk. destruct (decide (k = k0)) as [->|Hne].
    + right. split; [done|]. split.
      * unfold field. rewrite dict_get_set_eq. simpl. by rewrite lookup_snoc.
      * intros k' (l & Hk' & Hkl). rewrite dict_get_set_eq in Hkl. simplify_eq.
        destruct (decide (k' = k0)) as [->|Hne']; [done|].
        destruct (Hother k' _ Hne' Hk') as [_ Hlt]. lia.
    + destruct (Habs k Hk) as [Hn|(Hs & Hf & Hu)].
      * left. by rewrite dict_get_set_ne.
      * right. split; [done|]. split.
        -- rewrite <- Hf. unfold field. rewrite dict_get_set_ne by done.
           destruct (dict_get k data) as [v|] eqn:E; [|done]. simpl. f_equal.
           apply view_snoc. intros l ->. by eapply allocated_get.
        -- intros k' (l & Hk' & Hkl).
           destruct (Hother k l Hne Hkl) as [Hkd Hlt].
           destruct (decide (k' = k0)) as [->|Hne'].
           ++ rewrite dict_get_set_eq in Hk'. simplify_eq. lia.
           ++ destruct (Hother k' l Hne' Hk') as [Hk'd _]. apply Hu. by exists l.
Qed.

Lemma read_clash_config_loaded (st : store) (objs : list (list pyval)) (top : config) :
  allocated objs top →
  ∃ st' data,
    read_clash_config st (YLoaded (YMapping objs top)) = (st', inl data) ∧
    loaded st objs top st' data ∧
    (∀ k, is_section k → is_Some (dict_get k data)).
Proof.
  intros Hal. unfold read_clash_config.
  pose proof (loaded_start st objs top Hal) as H0.
  destruct (load_into st objs top) as [st0 d0]. simpl in H0.
  destruct (setdefault_list "proxies" st0 d0) as [st1 d1] eqn:E1.
  destruct (loaded_setdefault _ _ _ _ _ _ _ _ (or_introl eq_refl) H0 E1) as (H1 & S1 & _).
  destruct (setdefault_list "proxy-groups" st1 d1) as [st2 d2] eqn:E2.
  destruct (loaded_setdefault _ _ _ _ _ _ _ _ (or_intror (or_introl eq_refl)) H1 E2)
    as (H2 & S2 & K2).
  destruct (setdefault_list "listeners" st2 d2) as [st3 d3] eqn:E3.
  destruct (loaded_setdefault _ _ _ _ _ _ _ _ (or_intror (or_intror eq_refl)) H2 E3)
    as (H3 & S3 & K3).
  exists st3, d3. split; [done|]. split; [done|].
  intros k [->|[->| ->]]; auto.
Qed.

(** X10. Given a document whose top level is a mapping, the parser returns a
    dictionary, leaves the objects of the store as they were, and makes sure
    of the three sections: a field of the document keeps the document's
    value, whatever it is; a section the document lacks holds a new empty
    list that no other field holds; and no other key is added. *)
Theorem read_clash_config_sections (st : store) (objs : list (list pyval))
    (top : config) :
  allocated objs top →
  ∃ st' data,
    read_clash_config st (YLoaded (YMapping objs top)) = (st', inl data) ∧
    allocated st' data ∧
    (∀ l xs, st !! l = Some xs → st' !! l = Some xs) ∧
    (∀ k, is_section k → is_Some (dict_get k data)) ∧
    (∀ k, is_Some (dict_get k top) → field st' data k = field objs top k) ∧
    (∀ k, is_section k → dict_get k top = None →
          field st' data k = Some (VList []) ∧ unshared data k) ∧
    (∀ k, ¬ is_section k → dict_get k top = None → dict_get k data = None).
Proof.
  intros Hal.
  destruct (read_clash_config_loaded st objs top Hal)
    as (st' & data & E & (Hal' & Hold & Hpres & Habs) & Hsec).
  exists st', data. split; [done|]. split; [done|]. split; [done|]. split; [done|].
  split; [intros k Hk; by apply Hpres|]. split.
  - intros k Hs Hk. destruct (Habs k Hk) as [Hn|(_ & Hf & Hu)]; [|done].
    destruct (Hsec k Hs) as [v Hv]. by rewrite Hv in Hn.
  - intros k Hns Hk. destruct (Habs k Hk) as [Hn|(Hs & _)]; [done|]. by destruct Hns.
Qed.

(** ** The name of the output file *)

Lemma string_app_assoc (a b c : string) : (a +:+ b) +:+ c = a +:+ (b +:+ c).
Proof.
  induction a as [|x a IH]; [done|].
  change (String x ((a +:+ b) +:+ c) = String x (a +:+ (b +:+ c))). by rewrite IH.
Qed.

Lemma ascii_compare_refl (c : ascii) : Ascii.compare c c = Eq.
Proof. unfold Ascii.compare. apply N.compare_refl. Qed.

Lemma compare_app_same_length (a a' b b' : string) :
  String.length a = String.length a' →
  String.compare (a +:+ b) (a' +:+ b') =
    then_compare (String.compare a a') (String.compare b b').
Proof.
  revert a'. induction a as [|x a IH]; intros [|x' a'] Hlen; simpl in *; try done.
  destruct (Ascii.compare x x'); [|done..]. apply IH. lia.
Qed.

Lemma compare_app_prefix (p a b : string) :
  String.compare (p +:+ a) (p +:+ b) = String.compare a b.
Proof.
  induction p as [|x p IH]; simpl; [done|]. by rewrite ascii_compare_refl.
Qed.

Lemma comparison_eqb_eq (c d : comparison) : comparison_eqb c d = true → c = d.
Proof. by destruct c, d. Qed.

Lemma two_digits (n : nat) : (n < 100)%nat → String.length (PyStr.fmt_02d n) = 2%nat.
Proof.
  intros Hn.
  assert (forallb (λ n, String.length (PyStr.fmt_02d n) =? 2)%nat (seq 0 100) = true)
    as Hall by (vm_compute; reflexivity).
  rewrite forallb_forall in Hall.
  apply Nat.eqb_eq, Hall, in_seq. lia.
Qed.

Lemma two_digits_compare (n m : nat) :
  (n < 100)%nat → (m < 100)%nat →
  String.compare (PyStr.fmt_02d n) (PyStr.fmt_02d m) = Nat.compare n m.
Proof.
  intros Hn Hm.
  assert (forallb (λ n, forallb (λ m,
            comparison_eqb (String.compare (PyStr.fmt_02d n) (PyStr.fmt_02d m))
                           (Nat.compare n m)) (seq 0 100)) (seq 0 100) = true)
    as Hall by (vm_compute; reflexivity).
  rewrite forallb_forall in Hall.
  assert (In n (seq 0 100)) as Hin by (apply in_seq; lia).
  specialize (Hall n Hin). rewrite forallb_forall in Hall.
  apply comparison_eqb_eq, Hall, in_seq. lia.
Qed.

Lemma four_digit_year (y : nat) :
  (1000 ≤ y < 10 * 1000)%nat →
  PyStr.of_nat y = PyStr.fmt_02d (y / 100) +:+ PyStr.fmt_02d (y mod 100).
Proof.
  intros Hy.
  assert (forallb (λ y, String.eqb (PyStr.of_nat y)
            (PyStr.fmt_02d (y / 100) +:+ PyStr.fmt_02d (y mod 100)))
            (seq 1000 (9 * 1000)) = true)
    as Hall by (vm_compute; reflexivity).
  rewrite forallb_forall in Hall.
  apply String.eqb_eq, Hall, in_seq. lia.
Qed.

Lemma string_app_length (a b : string) :
  String.length (a +:+ b) = (String.length a + String.length b)%nat.
Proof.
  induction a as [|x a IH]; [done|].
  change (S (String.length (a +:+ b)) = S (String.length a + String.length b)).
  by rewrite IH.
Qed.

Lemma string_compare_refl (s : string) : String.compare s s = Eq.
Proof. induction s as [|x s IH]; simpl; [done|]. by rewrite ascii_compare_refl. Qed.

Lemma year_compare (y z : nat) :
  (1000 ≤ y < 10 * 1000)%nat → (1000 ≤ z < 10 * 1000)%nat →
  String.compare (PyStr.of_nat y) (PyStr.of_nat z) = Nat.compare y z.
Proof.
  intros Hy Hz.
  pose proof (Nat.div_mod_eq y 100) as Ey. pose proof (Nat.div_mod_eq z 100) as Ez.
  pose proof (Nat.mod_upper_bound y 100) as By.
  pose proof (Nat.mod_upper_bound z 100) as Bz.
  assert (y / 100 < 100)%nat as Dy by (apply Nat.Div0.div_lt_upper_bound; lia).
  assert (z / 100 < 100)%nat as Dz by (apply Nat.Div0.div_lt_upper_bound; lia).
  rewrite (four_digit_year y Hy), (four_digit_year z Hz).
  rewrite compare_app_same_length by (by rewrite !two_digits).
  rewrite !two_digits_compare by lia.
  symmetry.
  destruct (Nat.compare_spec (y / 100) (z / 100)) as [E|E|E];
    destruct (Nat.compare_spec (y mod 100) (z mod 100)) as [F|F|F]; simpl;
    first [ apply Nat.compare_eq_iff | apply Nat.compare_lt_iff | apply Nat.compare_gt_iff ];
    lia.
Qed.

Lemma then_compare_Eq (c d : comparison) : then_compare c d = Eq → c = Eq ∧ d = Eq.
Proof. by destruct c. Qed.

Lemma strftime_compare (a b : datetime) (suffix : string) :
  valid_datetime a → valid_datetime b →
  String.compare (strftime a +:+ suffix) (strftime b +:+ suffix) = datetime_compare a b.
Proof.
  intros (Hy & Hm & Hd & HH & HM & HS) (Hy' & Hm' & Hd' & HH' & HM' & HS').
  unfold strftime, datetime_compare. rewrite !string_app_assoc.
  rewrite compare_app_same_length
    by (rewrite (four_digit_year _ Hy), (four_digit_year _ Hy'), !string_app_length;
        by rewrite !two_digits by (apply Nat.Div0.div_lt_upper_bound || apply Nat.mod_upper_bound; lia)).
  rewrite year_compare by done.
  do 5 (rewrite compare_app_same_length by (rewrite !two_digits; [done|lia..])).
  rewrite !two_digits_compare by lia.
  rewrite string_compare_refl.
  by destruct (second a ?= second b)%nat.
Qed.

(** X12. The names of two output files compare, as strings, as the moments
    they were written at do, for moments from the year 1000 on: the files of
    a directory sort by name in the order they were generated, and two runs
    give one name only within one second. *)
Theorem output_filename_order (a b : datetime) :
  valid_datetime a → valid_datetime b →
  String.compare (output_filename a) (output_filename b) = datetime_compare a b ∧
  (output_filename a = output_filename b → a = b).
Proof.
  intros Ha Hb.
  assert (String.compare (output_filename a) (output_filename b) = datetime_compare a b)
    as Hcmp.
  { unfold output_filename. rewrite compare_app_prefix. by apply strftime_compare. }
  split; [done|]. intros E. rewrite E, string_compare_refl in Hcmp.
  symmetry in Hcmp. unfold datetime_compare in Hcmp.
  repeat (apply then_compare_Eq in Hcmp as [?%Nat.compare_eq_iff Hcmp]).
  apply Nat.compare_eq_iff in Hcmp.
  destruct a, b; simpl in *. by subst.
Qed.

(** ** The click on the button: [generate_files] *)

Lemma update_status_vars (msg : status) (a : FileProcessorApp) :
  mapping_file_var (update_status msg a) = mapping_file_var a ∧
  proxy_file_var (update_status msg a) = proxy_file_var a ∧
  clash_file_var (update_status msg a) = clash_file_var a ∧
  output_dir_var (update_status msg a) = output_dir_var a ∧
  status_label_visible (update_status msg a) = status_label_visible a ∧
  generate_button (update_status msg a) = generate_button a ∧
  geometry (update_status msg a) = geometry a.
Proof.
  unfold update_status. destruct (status_label_visible a) eqn:E; simpl; by rewrite ?E.
Qed.

Lemma update_status_visible (msg : status) (a : FileProcessorApp) :
  status_label_visible a = true → status_label (update_status msg a) = msg.
Proof. unfold update_status. by intros ->. Qed.

Lemma prepared_vars (w : world) (a b : FileProcessorApp) (path : string)
    (doc : list (string * pyval)) :
  mapping_file_var a = mapping_file_var b → proxy_file_var a = proxy_file_var b →
  clash_file_var a = clash_file_var b → output_dir_var a = output_dir_var b →
  prepared w a path doc → prepared w b path doc.
Proof. unfold prepared. by intros -> -> -> ->. Qed.

(** The body of the [try], case by case: every stage goes well, the file is
    opened, the document written and the dialog of success shown; or the
    file is opened and the serializer fails, which leaves the file; or an
    earlier stage fails and no file is opened. *)
Lemma generate_cases (w : world) (a : FileProcessorApp) :
  status_label_visible a = true →
  (∃ path doc a',
     prepared w a path doc ∧ open_refused w path = None ∧
     dump_refused w path doc = None ∧
     generate w a = (a', None,
                     [Opened path; Written path doc;
                      Dialog (GenerationSucceeded (output_dir_var a))]) ∧
     a' = update_status (Succeeded (output_dir_var a)) (update_status Merging a)) ∨
  (∃ path doc reason,
     prepared w a path doc ∧ open_refused w path = None ∧
     dump_refused w path doc = Some reason ∧
     generate w a = (update_status Merging a, Some (OutputError (WriteFailed reason)),
                     [Opened path])) ∨
  (∃ e a',
     generate w a = (a', Some e, []) ∧
     (a' = a ∨ a' = update_status Merging a) ∧
     ∀ path doc, ¬ (prepared w a path doc ∧ open_refused w path = None)).
Proof.
  intros Hvis. unfold generate.
  destruct (update_status_vars Merging a) as (_ & _ & _ & Eo & _).
  destruct (read_mapping_file _) as [m|e] eqn:Em.
  2: { right. right. exists (MappingFileError e), a. split; [done|]. split; [by left|].
       intros path doc [(m & pl & st & base & st' & final & H & _) _]. congruence. }
  destruct (read_proxy_file _).1 as [pl|e] eqn:Ep.
  2: { right. right. exists (ProxyFileError e), a. split; [done|]. split; [by left|].
       intros path doc [(m' & pl & st & base & st' & final & _ & H & _) _]. congruence. }
  destruct (read_clash_config _ _) as [st [base|e]] eqn:Ec.
  2: { right. right. exists (ClashConfigError e), a. split; [done|]. split; [by left|].
       intros path doc [(m' & pl' & st0 & base & st' & final & _ & _ & H & _) _].
       congruence. }
  destruct (process_data st m pl base) as [st' [final|e|e]] eqn:Ed.
  2: { right. right. exists (DataError e), (update_status Merging a).
       split; [done|]. split; [by right|].
       intros path doc [(m' & pl' & st0 & base0 & st0' & final & H1 & H2 & H3 & H4 & _) _].
       rewrite Ep in H2. congruence. }
  2: { right. right. exists (MergeRaised e), (update_status Merging a).
       split; [done|]. split; [by right|].
       intros path doc [(m' & pl' & st0 & base0 & st0' & final & H1 & H2 & H3 & H4 & _) _].
       rewrite Ep in H2. congruence. }
  assert (prepared w a (path_join w (output_dir_var a) (output_filename (now w)))
            (snapshot st' final) ∨ is_dir w (output_dir_var a) = false) as Hprep.
  { destruct (is_dir w (output_dir_var a)) eqn:Edir; [left|by right].
    exists m, pl, st, base, st', final. by rewrite Ep. }
  unfold write_output_file. rewrite Eo.
  destruct (is_dir w (output_dir_var a)) eqn:Edir; simpl.
  2: { right. right. exists (OutputError OutputDirNotFound), (update_status Merging a).
       split; [done|]. split; [by right|].
       intros path doc [(_ & _ & _ & _ & _ & _ & _ & _ & _ & _ & _ & H & _) _].
       congruence. }
  destruct Hprep as [Hprep|?]; [|done].
  destruct (open_refused w _) as [reason|] eqn:Ew.
  { right. right. exists (OutputError (WriteFailed reason)), (update_status Merging a).
    split; [done|]. split; [by right|].
    intros path doc [(_ & _ & _ & _ & _ & _ & _ & _ & _ & _ & _ & _ & ->) H].
    congruence. }
  destruct (dump_refused w _ _) as [reason|] eqn:Ew2.
  { right. left. by eexists _, _, reason. }
  left. by eexists _, _, _.
Qed.

Lemma all_selected_spec (a : FileProcessorApp) :
  forallb (λ s, negb (PyStr.is_empty s))
    [mapping_file_var a; proxy_file_var a; clash_file_var a; output_dir_var a] = true
  ↔ all_selected a.
Proof.
  unfold all_selected.
  destruct (mapping_file_var a), (proxy_file_var a), (clash_file_var a),
    (output_dir_var a); simpl; intuition congruence.
Qed.

Lemma missing_input_stops (w : world) (a : FileProcessorApp) :
  mapping_exists w (mapping_file_var a) = false ∨
  proxies_exists w (proxy_file_var a) = false ∨
  clash_exists w (clash_file_var a) = false ∨
  is_dir w (output_dir_var a) = false →
  ∀ path doc, ¬ prepared w a path doc.
Proof.
  unfold mapping_exists, proxies_exists, clash_exists.
  intros H path doc (m & pl & st & base & st' & final & H1 & H2 & H3 & _ & _ & H4 & _).
  destruct H as [H|[H|[H|H]]].
  - by destruct (mapping_at w _).
  - by destruct (proxies_at w _).
  - by destruct (clash_at w _).
  - congruence.
Qed.

(** What a click does, case by case: the dialog it ends in, the events, and
    the window afterwards. *)
Lemma generate_files_cases (w : world) (a : FileProcessorApp) :
  ∃ d,
    same_paths a (generate_files w a).1 ∧
    (generate_button a = NORMAL → generate_button (generate_files w a).1 = NORMAL) ∧
    (d = NothingSelected ↔ ¬ all_selected a) ∧
    (d ≠ NothingSelected →
       status_label_visible (generate_files w a).1 = true ∧
       status_label (generate_files w a).1 = status_of d (status_label a)) ∧
    ((∃ path doc,
        all_selected a ∧ completes w a path doc ∧
        d = GenerationSucceeded (output_dir_var a) ∧
        (generate_files w a).2 = [Opened path; Written path doc; Dialog d]) ∨
     (∃ path doc reason,
        all_selected a ∧ prepared w a path doc ∧ open_refused w path = None ∧
        dump_refused w path doc = Some reason ∧
        d = GenerationFailed (OutputError (WriteFailed reason)) ∧
        (generate_files w a).2 = [Opened path; Dialog d]) ∨
     ((∀ dir, d ≠ GenerationSucceeded dir) ∧
      (∀ path doc, ¬ (all_selected a ∧ prepared w a path doc ∧
                      open_refused w path = None)) ∧
      (generate_files w a).2 = [Dialog d])).
Proof.
  unfold generate_files.
  destruct (forallb _ _) eqn:Eall; simpl.
  2: { assert (¬ all_selected a) as Hn
         by (rewrite <- all_selected_spec; congruence).
       exists NothingSelected. split; [done|]. split; [done|]. split; [done|].
       split; [done|]. right. right. split; [done|]. split; [|done].
       by intros ?? [? _]. }
  apply all_selected_spec in Eall.
  set (a1 := if status_label_visible a then a else show_status_label a).
  assert (same_paths a a1 ∧ status_label_visible a1 = true ∧
          status_label a1 = status_label a ∧ generate_button a1 = generate_button a)
    as (Hp1 & Hv1 & Hs1 & Hb1).
  { unfold a1. by destruct (status_label_visible a) eqn:E. }
  assert (∀ d msg,
            d ≠ NothingSelected → (∀ dir, d ≠ GenerationSucceeded dir) →
            status_of d (status_label a) = msg →
            (∀ path doc, ¬ prepared w a path doc) →
            same_paths a (update_status msg a1) ∧
            (generate_button a = NORMAL → generate_button (update_status msg a1) = NORMAL) ∧
            (d = NothingSelected ↔ ¬ all_selected a) ∧
            (d ≠ NothingSelected →
               status_label_visible (update_status msg a1) = true ∧
               status_label (update_status msg a1) = status_of d (status_label a)) ∧
            ((∃ path doc,
                all_selected a ∧ completes w a path doc ∧
                d = GenerationSucceeded (output_dir_var a) ∧
                [Dialog d] = [Opened path; Written path doc; Dialog d]) ∨
             (∃ path doc reason,
                all_selected a ∧ prepared w a path doc ∧ open_refused w path = None ∧
                dump_refused w path doc = Some reason ∧
                d = GenerationFailed (OutputError (WriteFailed reason)) ∧
                [Dialog d] = [Opened path; Dialog d]) ∨
             ((∀ dir, d ≠ GenerationSucceeded dir) ∧
              (∀ path doc, ¬ (all_selected a ∧ prepared w a path doc ∧
                              open_refused w path = None)) ∧
              [Dialog d] = [Dialog d]))) as Hstop.
  { intros d msg Hd Hd' Hmsg Hno.
    destruct (update_status_vars msg a1) as (E1 & E2 & E3 & E4 & E5 & E6 & _).
    destruct Hp1 as (P1 & P2 & P3 & P4).
    split; [unfold same_paths; by rewrite E1, E2, E3, E4|].
    split; [rewrite E6, Hb1; done|].
    split; [split; [done|by intros []]|].
    split; [intros _; rewrite E5, update_status_visible by done; by rewrite Hmsg|].
    right. right. split; [done|]. split; [|done].
    intros path doc (_ & H & _). by apply (Hno path doc). }
  assert (mapping_file_var a1 = mapping_file_var a ∧ proxy_file_var a1 = proxy_file_var a ∧
          clash_file_var a1 = clash_file_var a ∧ output_dir_var a1 = output_dir_var a)
    as (Q1 & Q2 & Q3 & Q4) by (destruct Hp1 as (? & ? & ? & ?); done).
  destruct (mapping_exists w (mapping_file_var a)) eqn:X1; simpl.
  2: { eexists. eapply Hstop; [done|done|done|]. apply missing_input_stops. by left. }
  destruct (proxies_exists w (proxy_file_var a)) eqn:X2; simpl.
  2: { eexists. eapply Hstop; [done|done|done|]. apply missing_input_stops. right. by left. }
  destruct (clash_exists w (clash_file_var a)) eqn:X3; simpl.
  2: { eexists. eapply Hstop; [done|done|done|]. apply missing_input_stops.
       right. right. by left. }
  destruct (is_dir w (output_dir_var a)) eqn:X4; simpl.
  2: { eexists. eapply Hstop; [done|done|done|]. apply missing_input_stops.
       right. right. by right. }
  set (a2 := update_status Processing (set_generate_button DISABLED a1)).
  assert (same_paths a a2 ∧ status_label_visible a2 = true) as [Hp2 Hv2].
  { destruct (update_status_vars Processing (set_generate_button DISABLED a1))
      as (E1 & E2 & E3 & E4 & E5 & _).
    unfold a2, same_paths. rewrite E1, E2, E3, E4, E5. simpl. by rewrite Q1, Q2, Q3, Q4. }
  destruct Hp2 as (R1 & R2 & R3 & R4).
  destruct (update_status_vars Merging a2) as (E1 & E2 & E3 & E4 & E5 & _).
  destruct (generate_cases w a2 Hv2)
    as [(path & doc & a3 & Hc & Ho & Hdump & -> & ->)
       |[(path & doc & reason & Hc & Ho & Hdump & ->)
        |(e & a3 & -> & Ha3 & Hno)]].
  - exists (GenerationSucceeded (output_dir_var a)). simpl.
    destruct (update_status_vars (Succeeded (output_dir_var a2)) (update_status Merging a2))
      as (F1 & F2 & F3 & F4 & F5 & _).
    split; [unfold same_paths; simpl; by rewrite F1, F2, F3, F4, E1, E2, E3, E4|].
    split; [done|]. split; [split; [done|by intros []]|].
    split.
    { intros _. rewrite F5, E5. split; [done|].
      rewrite update_status_visible by (by rewrite E5). by rewrite R4. }
    left. exists path, doc. split; [done|]. split.
    { split; [by apply (prepared_vars w a2 a)|done]. }
    split; [done|]. by rewrite R4.
  - exists (GenerationFailed (OutputError (WriteFailed reason))). simpl.
    destruct (update_status_vars (Failed (OutputError (WriteFailed reason)))
                (update_status Merging a2)) as (F1 & F2 & F3 & F4 & F5 & _).
    split; [unfold same_paths; simpl; by rewrite F1, F2, F3, F4, E1, E2, E3, E4|].
    split; [done|]. split; [split; [done|by intros []]|].
    split.
    { intros _. rewrite F5, E5. split; [done|].
      by rewrite update_status_visible by (by rewrite E5). }
    right. left. exists path, doc, reason. split; [done|].
    split; [by apply (prepared_vars w a2 a)|]. done.
  - exists (GenerationFailed e). simpl.
    assert (same_paths a a3 ∧ status_label_visible a3 = true) as [(S1 & S2 & S3 & S4) Hv3].
    { destruct Ha3 as [->| ->]; [done|].
      unfold same_paths. by rewrite E1, E2, E3, E4, E5. }
    destruct (update_status_vars (Failed e) a3) as (F1 & F2 & F3 & F4 & F5 & _).
    split; [unfold same_paths; simpl; by rewrite F1, F2, F3, F4|].
    split; [done|]. split; [split; [done|by intros []]|].
    split.
    { intros _. rewrite F5. split; [done|]. by rewrite update_status_visible. }
    right. right. split; [done|]. split; [|done].
    intros path doc (_ & H & Ho). apply (Hno path doc).
    split; [by apply (prepared_vars w a a2)|done].
Qed.

Lemma prepared_unique (w : world) (a : FileProcessorApp) (p p' : string)
    (d d' : list (string * pyval)) :
  prepared w a p d → prepared w a p' d' → p = p' ∧ d = d'.
Proof.
  intros (m & pl & st & base & st' & final & H1 & H2 & H3 & H4 & -> & _ & ->)
         (m' & pl' & st0 & base' & st0' & final' & G1 & G2 & G3 & G4 & -> & _ & ->).
  split; [done|].
  assert (m' = m) as -> by congruence. assert (pl' = pl) as -> by congruence.
  assert (st0 = st ∧ base' = base) as [-> ->] by (split; congruence).
  assert (st0' = st' ∧ final' = final) as [-> ->] by (split; congruence).
  done.
Qed.

(** X13. A click on the button opens at most one file for writing, which
    creates it or empties it, and it opens [path] exactly when the four
    paths are chosen, every stage before goes well (the mapping table is a
    JSON object, the proxy file can be read, the base configuration is a
    YAML mapping, the merge returns a configuration, the output directory
    is a directory) and [path], the file named after the moment in the
    output directory, can be opened.  The document is written in full into
    it exactly when, moreover, the serializer does not fail.  When an
    earlier stage fails, an error the merge returns or an exception it
    raises included, no file is opened. *)
Theorem output_written_iff (w : world) (a : FileProcessorApp) :
  (length (opened (generate_files w a).2) ≤ 1)%nat ∧
  (∀ path,
     path ∈ opened (generate_files w a).2 ↔
     all_selected a ∧ ∃ doc, prepared w a path doc ∧ open_refused w path = None) ∧
  (∀ path doc,
     (path, doc) ∈ writes (generate_files w a).2 ↔
     all_selected a ∧ completes w a path doc).
Proof.
  destruct (generate_files_cases w a)
    as (d & _ & _ & _ & _ &
        [(p0 & d0 & Hsel & (Hc & Ho & Hdump) & -> & ->)
        |[(p0 & d0 & reason & Hsel & Hc & Ho & Hdump & -> & ->)
         |(Hd & Hno & ->)]]); simpl.
  - split; [lia|]. split.
    + intros path. rewrite list_elem_of_singleton. split.
      * intros ->. split; [done|]. by exists d0.
      * intros (_ & doc & Hc' & _). by destruct (prepared_unique _ _ _ _ _ _ Hc Hc').
    + intros path doc. rewrite list_elem_of_singleton. split.
      * by intros [= -> ->].
      * intros (_ & Hc' & _). by destruct (prepared_unique _ _ _ _ _ _ Hc Hc') as [-> ->].
  - split; [lia|]. split.
    + intros path. rewrite list_elem_of_singleton. split.
      * intros ->. split; [done|]. by exists d0.
      * intros (_ & doc & Hc' & _). by destruct (prepared_unique _ _ _ _ _ _ Hc Hc').
    + intros path doc. split; [by intros ?%elem_of_nil|].
      intros (_ & Hc' & _ & Hdump').
      destruct (prepared_unique _ _ _ _ _ _ Hc Hc') as [-> ->]. congruence.
  - split; [lia|]. split.
    + intros path. split; [by intros ?%elem_of_nil|].
      intros (Hsel & doc & Hc & Ho). by destruct (Hno path doc).
    + intros path doc. split; [by intros ?%elem_of_nil|].
      intros (Hsel & Hc & Ho & _). by destruct (Hno path doc).
Qed.

(** X14. A click on the button ends in exactly one dialog: the request to
    choose the paths exactly when one of the four is empty, and the dialog of
    success exactly when the document was written in full; when a file was
    opened and the document not written, the dialog is that of the failed
    write.  The four paths are as before the click, a button that could be
    clicked can be clicked again, and unless the paths were missing the
    status label is shown with the text that goes with the dialog. *)
Theorem click_ends_in_one_dialog (w : world) (a : FileProcessorApp) :
  ∃ d,
    dialogs (generate_files w a).2 = [d] ∧
    (d = NothingSelected ↔ ¬ all_selected a) ∧
    (d = GenerationSucceeded (output_dir_var a) ↔ writes (generate_files w a).2 ≠ []) ∧
    (∀ dir, d = GenerationSucceeded dir → dir = output_dir_var a) ∧
    (opened (generate_files w a).2 ≠ [] → writes (generate_files w a).2 = [] →
     ∃ reason, d = GenerationFailed (OutputError (WriteFailed reason))) ∧
    same_paths a (generate_files w a).1 ∧
    (generate_button a = NORMAL → generate_button (generate_files w a).1 = NORMAL) ∧
    (d ≠ NothingSelected →
       status_label_visible (generate_files w a).1 = true ∧
       status_label (generate_files w a).1 = status_of d (status_label a)).
Proof.
  destruct (generate_files_cases w a)
    as (d & Hp & Hb & Hn & Hs &
        [(p0 & d0 & Hsel & Hc & Hd & Hev)
        |[(p0 & d0 & reason & Hsel & Hc & Ho & Hdump & Hd & Hev)
         |(Hd & Hno & Hev)]]);
    exists d; rewrite Hev; simpl.
  - split; [done|]. split; [done|]. split; [by split|].
    split; [intros dir ->; by injection Hd|]. split; [done|]. done.
  - split; [done|]. split; [done|]. split; [split; [by rewrite Hd|done]|].
    split; [by rewrite Hd|]. split; [intros _ _; by exists reason|]. done.
  - split; [done|]. split; [done|]. split; [split; [by intros ?%Hd|done]|].
    split; [by intros dir ?%Hd|]. split; [done|]. done.
Qed.

(** ** The merge on empty inputs *)

Lemma make_group_no_proxy (key : string) (e g : pyval) : make_group ∅ key e ≠ Ok g.
Proof.
  unfold make_group, py_get.
  destruct e as [| | | | | |d]; try done. simpl.
  destruct (truthy (default VNone (dict_get "socks_remote" d))); simpl; [|done].
  destruct (default VNone (dict_get "socks_remote" d)) as [| | | |s| |]; simpl; try done.
  rewrite lookup_empty. simpl.
  destruct (PyStr.contains PyStr.colon s); simpl; [|done].
  destruct (PyStr.split1 PyStr.colon s) as [a [b|]]; simpl; [|done].
  by rewrite lookup_empty.
Qed.

(** X15. Without a proxy record no entry of the mapping table can be given a
    relay group: a merge that returns a configuration for a mapping table
    with at least one entry was given at least one proxy record. *)
Theorem merge_needs_a_proxy (st st' : store) (m : list (string * pyval))
    (pl : list ProxyRecord) (base final : config) :
  process_data st m pl base = (st', Ok final) →
  m ≠ [] → pl ≠ [].
Proof.
  intros Hrun Hm ->.
  destruct (proj1 (process_data_succeeds_iff st m [] base))
    as (gp & remote & out & [= <- <-] & Hloop); [by eexists _, _|].
  assert (∃ k, k ∈ sorted_mapping_keys (dict_keys m)) as [k Hk].
  { pose proof (sorted_mapping_keys_length (dict_keys m)) as Hlen.
    destruct (sorted_mapping_keys (dict_keys m)) as [|k ks]; [|exists k; by left].
    destruct m; [done|]. unfold dict_keys in Hlen. simpl in Hlen. lia. }
  destruct (proj1 (mapping_loop_succeeds_iff ∅ m _ [] []) (ex_intro _ out Hloop) k Hk)
    as (e & l & g & _ & _ & Hg).
  by apply make_group_no_proxy in Hg.
Qed.


(** ** Sessions *)

Lemma nothing_selected_nothing_done (w : world) (a : FileProcessorApp) :
  ¬ all_selected a → generate_files w a = (a, [Dialog NothingSelected]).
Proof.
  intros Hn. unfold generate_files.
  destruct (forallb _ _) eqn:E; [|done]. by apply all_selected_spec in E.
Qed.

(** X17. Whatever the user does from the start of the program, choosing
    and choosing again paths, closing dialogs, generating in whatever state
    the files are: between two actions the button can be clicked, a hidden
    status label has never been written to, a shown status label means the
    four paths are chosen, none of which ever gets empty again, and the
    label never stays on a text of work in progress. *)
Theorem session_invariant (xs : list action) :
  generate_button (session xs) = NORMAL ∧
  (status_label_visible (session xs) = false → status_label (session xs) = NoStatus) ∧
  (status_label_visible (session xs) = true → all_selected (session xs)) ∧
  status_label (session xs) ≠ Processing ∧
  status_label (session xs) ≠ Merging ∧
  ∀ x, all_selected (session xs) → all_selected (session (xs ++ [x])).
Proof.
  assert (∀ a x, all_selected a → all_selected (act a x)) as Hkeep.
  { intros a x (H1 & H2 & H3 & H4).
    destruct x as [p|p|p|p|w]; simpl;
      try (unfold browse_mapping_file, browse_proxy_file, browse_clash_file,
             browse_output_dir;
           destruct (PyStr.is_empty p) eqn:E; [done|];
           assert (p ≠ "") by (intros ->; done); done).
    destruct (generate_files_cases w a) as (d & (P1 & P2 & P3 & P4) & _).
    unfold all_selected. by rewrite <- P1, <- P2, <- P3, <- P4. }
  assert (∀ ys,
            generate_button (session ys) = NORMAL ∧
            (status_label_visible (session ys) = false → status_label (session ys) = NoStatus) ∧
            (status_label_visible (session ys) = true → all_selected (session ys)) ∧
            status_label (session ys) ≠ Processing ∧
            status_label (session ys) ≠ Merging) as Hinv.
  { induction ys as [|x ys IH] using rev_ind.
    { unfold session. simpl. split; [done|]. split; [done|]. by split. }
    unfold session in *. rewrite fold_left_app. simpl.
    set (a := fold_left act ys init) in *.
    destruct IH as (Hb & Hh & Hv & Hp & Hm).
    destruct x as [p|p|p|p|w]; simpl;
      try (unfold browse_mapping_file, browse_proxy_file, browse_clash_file,
             browse_output_dir;
           destruct (PyStr.is_empty p) eqn:E; [done|];
           assert (p ≠ "") by (intros ->; done);
           split; [done|]; split; [done|]; split; [|done];
           intros Hvis; destruct (Hv Hvis) as (? & ? & ? & ?); done).
    destruct (generate_files_cases w a) as (d & Hpaths & Hbtn & Hd & Hst & _).
    assert (d = NothingSelected ∨ d ≠ NothingSelected) as [->|Hne]
      by (destruct d; (by left) || (by right)).
    - rewrite nothing_selected_nothing_done by (by apply Hd). done.
    - destruct (Hst Hne) as [Hvis ->].
      split; [by apply Hbtn|]. split; [by rewrite Hvis|].
      split.
      { intros _. apply (Hkeep a (GenerateFiles w)).
        destruct (forallb (λ s, negb (PyStr.is_empty s))
                    [mapping_file_var a; proxy_file_var a; clash_file_var a;
                     output_dir_var a]) eqn:E.
        - by apply all_selected_spec in E.
        - exfalso. apply Hne, Hd. rewrite <- all_selected_spec. congruence. }
      by destruct d. }
  destruct (Hinv xs) as (H1 & H2 & H3 & H4 & H5).
  split; [done|]. split; [done|]. split; [done|]. split; [done|]. split; [done|].
  intros x Hs. unfold session. rewrite fold_left_app. simpl. by apply Hkeep.
Qed.

(** ** The statements at the example data *)

Lemma proxy_text_read :
  read_proxy_file (Text proxy_text) = (inl one_proxy, [InvalidLine 3 "oops"]).
Proof. vm_compute. reflexivity. Defined.

Lemma tie_loop :
  mapping_loop one_remote tie_mapping (sorted_mapping_keys (dict_keys tie_mapping)) [] [] =
  Ok (tie_listeners, tie_groups).
Proof. vm_compute. reflexivity. Defined.

Lemma rules_doc_allocated : allocated rules_objs rules_doc.
Proof. repeat constructor. Defined.




Lemma new_years_eve_valid : valid_datetime new_years_eve.
Proof. unfold valid_datetime. simpl. lia. Defined.

Lemma new_year_valid : valid_datetime new_year.
Proof. unfold valid_datetime. simpl. lia. Defined.

Lemma one_mapping_typed (k : string) (e : pyval) :
  dict_get k one_mapping = Some e → typed_entry e.
Proof.
  unfold one_mapping. cbn [dict_get]. destruct (String.eqb "1" k); [|done].
  intros [= <-]. by exists one_entry, (Some "0.0.0.0:1081"), (Some "10.0.0.5").
Defined.

Lemma tie_keys_distinct : NoDup (dict_keys tie_mapping).
Proof. apply (bool_decide_unpack _). vm_compute. reflexivity. Defined.

Lemma alice_read : alice ∈ one_proxy.
Proof. constructor. Defined.

Lemma tie_group_generated : new_group "01" "socks_out_01" ∈ tie_groups.
Proof. constructor 2. constructor 1. Defined.

Lemma generated_proxy_names_distinct_witness :
  proxies_loop 0 two_proxies [] ∅ = Ok (two_generated, two_remote) ∧
  two_generated !! 1%nat = Some (new_proxy "socks_out_02" bob 1090) ∧
  1%nat = 1%nat.
Proof.
  split; [exact two_proxies_step1|]. split; [reflexivity|].
  exact (generated_proxy_names_distinct two_proxies two_generated two_remote 1 1
           (new_proxy "socks_out_02" bob 1090) (new_proxy "socks_out_02" bob 1090)
           two_proxies_step1 eq_refl eq_refl eq_refl).
Defined.

Lemma relay_group_names_generated_proxy_witness :
  proxies_loop 0 one_proxy [] ∅ = Ok (one_generated, one_remote) ∧
  mapping_loop one_remote tie_mapping (sorted_mapping_keys (dict_keys tie_mapping)) [] [] =
    Ok (tie_listeners, tie_groups) ∧
  new_group "01" "socks_out_01" ∈ tie_groups ∧
  ∃ name i p,
    group_proxies (new_group "01" "socks_out_01") = [VStr "Switch-Proxy"; VStr name] ∧
    one_generated !! i = Some p ∧ entry_field "name" p = Some (VStr name).
Proof.
  split; [exact one_proxy_step1|]. split; [exact tie_loop|].
  split; [exact tie_group_generated|].
  exact (relay_group_names_generated_proxy one_proxy one_generated one_remote tie_mapping
           (sorted_mapping_keys (dict_keys tie_mapping)) tie_listeners tie_groups
           (new_group "01" "socks_out_01") one_proxy_step1 tie_loop tie_group_generated).
Defined.

Lemma listeners_and_groups_pair_up_witness :
  mapping_loop one_remote tie_mapping (sorted_mapping_keys (dict_keys tie_mapping)) [] [] =
    Ok (tie_listeners, tie_groups) ∧
  length tie_listeners = length tie_mapping ∧ length tie_groups = length tie_mapping ∧
  ∀ i l g, tie_listeners !! i = Some l → tie_groups !! i = Some g →
    is_Some (entry_field "name" g) ∧ entry_field "proxy" l = entry_field "name" g.
Proof.
  split; [exact tie_loop|].
  exact (listeners_and_groups_pair_up one_remote tie_mapping tie_listeners tie_groups
           tie_loop).
Defined.

Lemma listener_and_group_names_distinct_witness :
  NoDup (dict_keys tie_mapping) ∧
  mapping_loop one_remote tie_mapping (sorted_mapping_keys (dict_keys tie_mapping)) [] [] =
    Ok (tie_listeners, tie_groups) ∧
  (∀ i j a b, tie_listeners !! i = Some a → tie_listeners !! j = Some b →
     entry_field "name" a = entry_field "name" b → i = j) ∧
  (∀ i j a b, tie_groups !! i = Some a → tie_groups !! j = Some b →
     entry_field "name" a = entry_field "name" b → i = j).
Proof.
  split; [exact tie_keys_distinct|]. split; [exact tie_loop|].
  exact (listener_and_group_names_distinct one_remote tie_mapping tie_listeners tie_groups
           tie_keys_distinct tie_loop).
Defined.

Lemma merge_succeeds_iff_witness :
  (∀ k e, dict_get k one_mapping = Some e → typed_entry e) ∧
  ((∃ st' final,
      process_data empty_store one_mapping one_proxy empty_base = (st', Ok final)) ↔
   ∃ gp remote,
     proxies_loop 0 one_proxy [] ∅ = Ok (gp, remote) ∧
     ∀ k e, dict_get k one_mapping = Some e → entry_accepted remote e).
Proof.
  split; [exact one_mapping_typed|].
  exact (merge_succeeds_iff empty_store one_mapping one_proxy empty_base one_mapping_typed).
Defined.

Lemma store_only_grows_witness :
  allocated empty_store empty_base ∧
  process_data empty_store one_mapping one_proxy empty_base =
    (one_run_store, Ok one_run_config) ∧
  length empty_store ≤ length one_run_store ∧
  (∀ l xs, empty_store !! l = Some xs → ∃ ys, one_run_store !! l = Some (xs ++ ys)).
Proof.
  split; [exact empty_base_allocated|]. split; [exact one_run_eq|].
  pose proof (store_only_grows empty_store one_run_store one_mapping one_proxy empty_base
                (Ok one_run_config) empty_base_allocated one_run_eq) as (Hlen & Hpre & _).
  split; [exact Hlen|exact Hpre].
Defined.

Lemma record_fields_are_the_line_witness :
  read_proxy_file (Text proxy_text) = (inl one_proxy, [InvalidLine 3 "oops"]) ∧
  alice ∈ one_proxy ∧
  PyStr.contains PyStr.colon (ip alice) = false ∧
  PyStr.contains PyStr.colon (port alice) = false ∧
  PyStr.contains PyStr.colon (user alice) = false ∧
  PyStr.contains PyStr.colon (pass alice) = false ∧
  ∃ raw, 1 ≤ line_num alice ∧
         PyStr.text_lines proxy_text !! (line_num alice - 1) = Some raw ∧
         PyStr.strip raw =
           ip alice +:+ ":" +:+ port alice +:+ ":" +:+ user alice +:+ ":" +:+ pass alice.
Proof.
  split; [exact proxy_text_read|]. split; [exact alice_read|].
  exact (record_fields_are_the_line proxy_text one_proxy [InvalidLine 3 "oops"] alice
           proxy_text_read alice_read).
Defined.

Lemma remote_with_port_resolves_by_ip_witness :
  read_proxy_file (Text proxy_text) = (inl one_proxy, [InvalidLine 3 "oops"]) ∧
  proxies_loop 0 one_proxy [] ∅ = Ok (one_generated, one_remote) ∧
  PyStr.contains PyStr.colon "10.0.0.5:1080" = true ∧
  one_remote !! "10.0.0.5:1080" = None ∧
  resolve one_remote "10.0.0.5:1080" = one_remote !! before_colon "10.0.0.5:1080".
Proof.
  split; [exact proxy_text_read|]. split; [exact one_proxy_step1|].
  split; [reflexivity|].
  exact (remote_with_port_resolves_by_ip proxy_text one_proxy [InvalidLine 3 "oops"]
           one_generated one_remote "10.0.0.5:1080" proxy_text_read one_proxy_step1
           eq_refl).
Defined.

Lemma every_line_accounted_for_witness :
  read_proxy_file (Text proxy_text) = (inl one_proxy, [InvalidLine 3 "oops"]) ∧
  length one_proxy + length [InvalidLine 3 "oops"] +
  length (filter (λ raw, skipped_line raw = true) (PyStr.text_lines proxy_text)) =
  length (PyStr.text_lines proxy_text).
Proof.
  split; [exact proxy_text_read|].
  exact (every_line_accounted_for proxy_text one_proxy [InvalidLine 3 "oops"]
           proxy_text_read).
Defined.

Lemma read_clash_config_sections_witness :
  allocated rules_objs rules_doc ∧
  ∃ st' data,
    read_clash_config [] (YLoaded (YMapping rules_objs rules_doc)) = (st', inl data) ∧
    allocated st' data ∧
    (∀ l xs, ([] : store) !! l = Some xs → st' !! l = Some xs) ∧
    (∀ k, is_section k → is_Some (dict_get k data)) ∧
    (∀ k, is_Some (dict_get k rules_doc) → field st' data k = field rules_objs rules_doc k) ∧
    (∀ k, is_section k → dict_get k rules_doc = None →
          field st' data k = Some (VList []) ∧ unshared data k) ∧
    (∀ k, ¬ is_section k → dict_get k rules_doc = None → dict_get k data = None).
Proof.
  split; [exact rules_doc_allocated|].
  exact (read_clash_config_sections [] rules_objs rules_doc rules_doc_allocated).
Defined.

Lemma output_filename_order_witness :
  valid_datetime new_years_eve ∧ valid_datetime new_year ∧
  String.compare (output_filename new_years_eve) (output_filename new_year) =
    datetime_compare new_years_eve new_year ∧
  (output_filename new_years_eve = output_filename new_year → new_years_eve = new_year).
Proof.
  split; [exact new_years_eve_valid|]. split; [exact new_year_valid|].
  exact (output_filename_order new_years_eve new_year new_years_eve_valid new_year_valid).
Defined.

Lemma merge_needs_a_proxy_witness :
  process_data empty_store one_mapping one_proxy empty_base =
    (one_run_store, Ok one_run_config) ∧
  one_mapping ≠ [] ∧ one_proxy ≠ [].
Proof.
  assert (one_mapping ≠ []) as Hm by discriminate.
  split; [exact one_run_eq|]. split; [exact Hm|].
  exact (merge_needs_a_proxy empty_store one_run_store one_mapping one_proxy empty_base
           one_run_config one_run_eq Hm).
Defined.


(** The click in the example world: one file, named after the moment, with
    the merged configuration, then the dialog of success. *)
Lemma example_click :
  generate_files example_world chosen =
  ({| mapping_file_var := "map.json"; proxy_file_var := "proxies.txt";
      clash_file_var := "base.yaml"; output_dir_var := "out";
      status_label_visible := true; status_label := Succeeded "out";
      generate_button := NORMAL; geometry := "600x320" |},
   [Opened "out/generated_clash_config_20250101000000.yaml";
    Written "out/generated_clash_config_20250101000000.yaml"
      (snapshot rules_run_store rules_run_config);
    Dialog (GenerationSucceeded "out")]).
Proof. vm_compute. reflexivity. Qed.

(** The same click on a disk that fills up: the file is there, the document
    is not, and the dialog says so. *)
Lemma example_click_full_disk :
  (generate_files full_disk_world chosen).2 =
  [Opened "out/generated_clash_config_20250101000000.yaml";
   Dialog (GenerationFailed (OutputError (WriteFailed "No space left on device")))].
Proof. vm_compute. reflexivity. Qed.

(** The same click when the proxy file is missing: the dialog naming it,
    nothing written, the button as it was. *)
Lemma example_click_missing :
  generate_files example_world
    {| mapping_file_var := "map.json"; proxy_file_var := "none.txt";
       clash_file_var := "base.yaml"; output_dir_var := "out";
       status_label_visible := false; status_label := NoStatus;
       generate_button := NORMAL; geometry := "600x300" |} =
  ({| mapping_file_var := "map.json"; proxy_file_var := "none.txt";
      clash_file_var := "base.yaml"; output_dir_var := "out";
      status_label_visible := true; status_label := ProxyFileInvalid;
      generate_button := NORMAL; geometry := "600x320" |},
   [Dialog (ProxyFileMissing "none.txt")]).
Proof. vm_compute. reflexivity. Qed.
